(** * Katamari Damacy scene objects: animation and motion

    A shallow embedding of [src/KatamariDamacy/objects.ts] and proofs about
    its per-object animation functions, its motion functions, its path
    follower and the frame of an object, and of the data fetcher of
    [src/fetch.ts].

    Numbers.  A JavaScript [number] is modelled by a real number: arithmetic
    is exact, there is no infinity and no NaN.  The vectors and matrices of
    the source are Float32Arrays, which round what is stored in them to
    single precision; [Math_fround] is that rounding.  The height that bob
    and whack-a-mole store in [pos] goes through it, since the bounds of the
    height depend on it; the other components are kept as they are computed.
    Integer-valued fields ([pathIndex], [state], object and motion
    identifiers, array indices) are modelled by [Z].  [Math.random()] is an
    explicit argument of the functions that call it.

    State.  The functions of the source assign fields of the motion state
    and of the sub-models in place; here they take the state and return the
    new one.  The module-level matrix [pitchTransformScratch], which
    [adjustBasePitch] can read before writing, is passed and returned as
    well.  A TypeError ([object.modelInstance[i]] of a sub-model the object
    does not have) is the result [None].

    Of gl-matrix and of MathHelpers the file has the functions the source
    calls.  [prepareToRender] is modelled up to the calls that hand the
    sub-models to the renderer; [debugDrawObject], which draws on the debug
    overlay, is not modelled. *)

From Stdlib Require Import Reals Lra Lia ZArith List Bool.
From Stdlib Require String Ascii.
Import ListNotations.

Open Scope R_scope.

(** ** Numbers and [Math] *)

Definition Rltb (a b : R) : bool := if Rlt_dec a b then true else false.
Definition Rleb (a b : R) : bool := if Rle_dec a b then true else false.
Definition Reqb (a b : R) : bool := if Req_dec_T a b then true else false.

(** [Math.sign]. *)
Definition Math_sign (x : R) : R :=
  if Rltb 0 x then 1 else if Rltb x 0 then -1 else 0.

(** [Math.hypot] with two and with three arguments. *)
Definition Math_hypot (a b : R) : R := sqrt (a * a + b * b).
Definition Math_hypot3 (a b c : R) : R := sqrt (a * a + b * b + c * c).

(** [Math.atan2 (y, x)]: the angle of the point [(x, y)], in (-PI, PI]. *)
Definition Math_atan2 (y x : R) : R :=
  if Rltb 0 x then atan (y / x)
  else if Rltb x 0 then
    (if Rleb 0 y then atan (y / x) + PI else atan (y / x) - PI)
  else if Rltb 0 y then PI / 2
  else if Rltb y 0 then - (PI / 2)
  else 0.

(** Truncation towards zero, and the [%] operator on numbers (the sign of
    the result is the sign of the dividend). *)
Definition Rtrunc (x : R) : Z :=
  if Rleb 0 x then Int_part x else (- Int_part (- x))%Z.

Definition fmod (x m : R) : R := x - m * IZR (Rtrunc (x / m)).

(** The nearest integer, a tie going to the even one. *)
Definition roundHalfEven (x : R) : Z :=
  let n := Int_part x in
  let d := x - IZR n in
  if Rltb d (1 / 2) then n
  else if Rltb (1 / 2) d then (n + 1)%Z
  else if Z.even n then n else (n + 1)%Z.

(** The exponent of a number in single precision: that of its binade
    [2^e <= |x| < 2^(e+1)], and -126 for the smaller numbers. *)
Definition float32_exponent (x : R) : Z :=
  Z.max (-126) (Int_part (ln (Rabs x) / ln 2)).

(** [Math.fround], and what a store into a Float32Array does to a number:
    the nearest number of single precision, which has 24 binary digits, so
    that the numbers of the exponent [e] are the multiples of [2^(e-23)]; a
    tie goes to the even multiple.  Beyond the largest number of single
    precision the source stores an infinity; no real number stands for it,
    and the rounding here goes on with the larger exponents. *)
Definition Math_fround (x : R) : R :=
  if Reqb x 0 then 0
  else
    let e := float32_exponent x in
    IZR (roundHalfEven (x * powerRZ 2 (23 - e))) * powerRZ 2 (e - 23).

(** A number that a Float32Array holds as it is. *)
Definition float32 (x : R) : Prop := Math_fround x = x.

(** ** gl-matrix: [vec3] and [mat4] *)

Record vec3 : Type := Vec3 { e0 : R; e1 : R; e2 : R }.

(** [vec3.create ()]. *)
Definition vec3_create : vec3 := Vec3 0 0 0.

Definition vec3_set_e0 (x : R) (v : vec3) : vec3 := Vec3 x (e1 v) (e2 v).
Definition vec3_set_e1 (x : R) (v : vec3) : vec3 := Vec3 (e0 v) x (e2 v).
Definition vec3_set_e2 (x : R) (v : vec3) : vec3 := Vec3 (e0 v) (e1 v) x.

Definition vec3_sub (a b : vec3) : vec3 :=
  Vec3 (e0 a - e0 b) (e1 a - e1 b) (e2 a - e2 b).

Definition vec3_scale (a : vec3) (s : R) : vec3 :=
  Vec3 (e0 a * s) (e1 a * s) (e2 a * s).

Definition vec3_scaleAndAdd (a b : vec3) (s : R) : vec3 :=
  Vec3 (e0 a + e0 b * s) (e1 a + e1 b * s) (e2 a + e2 b * s).

Definition vec3_length (a : vec3) : R := Math_hypot3 (e0 a) (e1 a) (e2 a).

Definition vec3_dist (a b : vec3) : R :=
  Math_hypot3 (e0 b - e0 a) (e1 b - e1 a) (e2 b - e2 a).

(** [vec3.normalize]: the zero vector stays the zero vector. *)
Definition vec3_normalize (a : vec3) : vec3 :=
  let len := e0 a * e0 a + e1 a * e1 a + e2 a * e2 a in
  let len' := if Rltb 0 len then 1 / sqrt len else len in
  Vec3 (e0 a * len') (e1 a * len') (e2 a * len').

(** A [mat4] is a flat array of 16 numbers, column after column; [m13] is
    the element the source writes [m[13]]. *)
Record mat4 : Type := Mat4 {
  m0 : R; m1 : R; m2 : R; m3 : R;
  m4 : R; m5 : R; m6 : R; m7 : R;
  m8 : R; m9 : R; m10 : R; m11 : R;
  m12 : R; m13 : R; m14 : R; m15 : R
}.

(** [mat4.create ()] and [mat4.identity]. *)
Definition mat4_identity : mat4 :=
  Mat4 1 0 0 0  0 1 0 0  0 0 1 0  0 0 0 1.

Definition mat4_create : mat4 := mat4_identity.

(** [mat4.mul (out, a, b)]: the matrix product [a * b]. *)
Definition mat4_mul (a b : mat4) : mat4 :=
  let col b0 b1 b2 b3 :=
    (b0 * m0 a + b1 * m4 a + b2 * m8 a + b3 * m12 a,
     b0 * m1 a + b1 * m5 a + b2 * m9 a + b3 * m13 a,
     b0 * m2 a + b1 * m6 a + b2 * m10 a + b3 * m14 a,
     b0 * m3 a + b1 * m7 a + b2 * m11 a + b3 * m15 a) in
  let '(o0, o1, o2, o3) := col (m0 b) (m1 b) (m2 b) (m3 b) in
  let '(o4, o5, o6, o7) := col (m4 b) (m5 b) (m6 b) (m7 b) in
  let '(o8, o9, o10, o11) := col (m8 b) (m9 b) (m10 b) (m11 b) in
  let '(o12, o13, o14, o15) := col (m12 b) (m13 b) (m14 b) (m15 b) in
  Mat4 o0 o1 o2 o3 o4 o5 o6 o7 o8 o9 o10 o11 o12 o13 o14 o15.

Definition glMatrix_EPSILON : R := 1 / 1000000.

(** [mat4.fromRotation (out, rad, axis)]: when the axis is shorter than
    [EPSILON] the function returns [null] and leaves [out] as it was. *)
Definition mat4_fromRotation (out : mat4) (rad : R) (axis : vec3) : mat4 :=
  let len := Math_hypot3 (e0 axis) (e1 axis) (e2 axis) in
  if Rltb len glMatrix_EPSILON then out
  else
    let x := e0 axis * (1 / len) in
    let y := e1 axis * (1 / len) in
    let z := e2 axis * (1 / len) in
    let s := sin rad in
    let c := cos rad in
    let t := 1 - c in
    Mat4 (x * x * t + c) (y * x * t + z * s) (z * x * t - y * s) 0
         (x * y * t - z * s) (y * y * t + c) (z * y * t + x * s) 0
         (x * z * t + y * s) (y * z * t - x * s) (z * z * t + c) 0
         0 0 0 1.

(** [mat4.rotateX], [mat4.rotateY], [mat4.rotateZ] with [out] and [a] the
    same matrix: [a] times the rotation about the axis. *)
Definition mat4_rotateX (a : mat4) (rad : R) : mat4 :=
  let s := sin rad in
  let c := cos rad in
  Mat4 (m0 a) (m1 a) (m2 a) (m3 a)
       (m4 a * c + m8 a * s) (m5 a * c + m9 a * s)
       (m6 a * c + m10 a * s) (m7 a * c + m11 a * s)
       (m8 a * c - m4 a * s) (m9 a * c - m5 a * s)
       (m10 a * c - m6 a * s) (m11 a * c - m7 a * s)
       (m12 a) (m13 a) (m14 a) (m15 a).

Definition mat4_rotateY (a : mat4) (rad : R) : mat4 :=
  let s := sin rad in
  let c := cos rad in
  Mat4 (m0 a * c - m8 a * s) (m1 a * c - m9 a * s)
       (m2 a * c - m10 a * s) (m3 a * c - m11 a * s)
       (m4 a) (m5 a) (m6 a) (m7 a)
       (m0 a * s + m8 a * c) (m1 a * s + m9 a * c)
       (m2 a * s + m10 a * c) (m3 a * s + m11 a * c)
       (m12 a) (m13 a) (m14 a) (m15 a).

Definition mat4_rotateZ (a : mat4) (rad : R) : mat4 :=
  let s := sin rad in
  let c := cos rad in
  Mat4 (m0 a * c + m4 a * s) (m1 a * c + m5 a * s)
       (m2 a * c + m6 a * s) (m3 a * c + m7 a * s)
       (m4 a * c - m0 a * s) (m5 a * c - m1 a * s)
       (m6 a * c - m2 a * s) (m7 a * c - m3 a * s)
       (m8 a) (m9 a) (m10 a) (m11 a)
       (m12 a) (m13 a) (m14 a) (m15 a).

(** [mat4.getTranslation]. *)
Definition mat4_getTranslation (m : mat4) : vec3 :=
  Vec3 (m12 m) (m13 m) (m14 m).

(** ** MathHelpers *)

Definition TAU : R := 2 * PI.

(** Modelled from the spec: [clamp] of MathHelpers is not among the sources;
    the spec lists it as clamping a value to a range. *)
Definition clamp (v lo hi : R) : R := Rmax lo (Rmin v hi).

(** Modelled from the spec: [angleDist] of MathHelpers is not among the
    sources; the spec describes it as the shortest signed difference between
    two angles.  The difference from [v0] to [v1] is reduced with [%] to a
    signed angle of at most half a turn. *)
Definition angleDist (v0 v1 : R) : R :=
  let da := fmod (v1 - v0) TAU in
  fmod (2 * da) TAU - da.

(** Modelled from the spec: [getMatrixAxisZ] of MathHelpers is not among the
    sources; the spec lists it as reading an axis of a matrix.  The Z axis
    is the third column. *)
Definition getMatrixAxisZ (m : mat4) : vec3 := Vec3 (m8 m) (m9 m) (m10 m).

(** Modelled from the spec: [transformVec3Mat4w0] of MathHelpers is not among
    the sources; the spec describes it as transforming a direction by a
    matrix, ignoring the translation. *)
Definition transformVec3Mat4w0 (m : mat4) (v : vec3) : vec3 :=
  Vec3 (m0 m * e0 v + m4 m * e1 v + m8 m * e2 v)
       (m1 m * e0 v + m5 m * e1 v + m9 m * e2 v)
       (m2 m * e0 v + m6 m * e1 v + m10 m * e2 v).

(** Modelled from the spec: [normToLength] of MathHelpers is not among the
    sources; the spec describes it as normalizing a vector to a length.  A
    vector of length zero has no direction and is left as it is. *)
Definition normToLength (v : vec3) (len : R) : vec3 :=
  let vlen := vec3_length v in
  if Rltb 0 vlen then vec3_scale v (len / vlen) else v.

(** ** Scene data *)

(** [AABB] of Geometry: the two fields this file reads. *)
Record AABB : Type := mkAABB { minY : R; maxY : R }.

(** [MissionSetupObjectSpawn] of bin.ts. *)
Module Spawn.
Record t : Type := mk {
  objectId : Z;
  modelMatrix : mat4;
  dispOnAreaNo : Z;
  dispOffAreaNo : Z
}.
End Spawn.

(** [ObjectDefinition] of bin.ts. *)
Module Def.
Record t : Type := mk { speedIndex : Z; stayLevel : bool }.
End Def.

(** [MotionParameters] of bin.ts.  [pathPoints] is the Float32Array of the
    path: four numbers for each waypoint, the fourth unused. *)
Module Params.
Record t : Type := mk {
  motionID : Z;
  globalMotionIndex : Z;
  speed : R;
  pathPoints : list R
}.
End Params.

(** [BINModelInstance] of render.ts; [bbox] stands for
    [binModelData.binModel.bbox]. *)
Module Inst.
Record t : Type := mk {
  modelMatrix : mat4;
  euler : vec3;
  translation : vec3;
  bbox : AABB
}.
End Inst.

(** Reading a typed array (and the array [speedTable]).  Outside the array
    JavaScript gives [undefined], which a [vec3] stores as NaN; numbers here
    are reals, and the read is given the value 0.  No statement below
    depends on that value. *)
Definition Float32Array_get (a : list R) (i : Z) : R :=
  if (i <? 0)%Z then 0 else nth (Z.to_nat i) a 0.

Definition Float32Array_length (a : list R) : Z := Z.of_nat (length a).

Record MotionState : Type := mkMotionState {
  parameters : Params.t;
  pos : vec3;
  target : vec3;
  velocity : vec3;

  adjustPitch : bool;
  pathIndex : Z;
  speed : R;

  euler : vec3;
  eulerStep : vec3;
  eulerTarget : vec3;

  angle : R;
  angleStep : R;
  angleTarget : R;

  base : mat4;
  reference : mat4;
  final : mat4;
  axis : vec3;

  timer : R;
  state : Z
}.

(** Assignments to the fields of a motion state. *)
Definition set_pos (v : vec3) (m : MotionState) : MotionState :=
  mkMotionState (parameters m) v (target m) (velocity m) (adjustPitch m)
    (pathIndex m) (speed m) (euler m) (eulerStep m) (eulerTarget m) (angle m)
    (angleStep m) (angleTarget m) (base m) (reference m) (final m) (axis m)
    (timer m) (state m).

Definition set_target (v : vec3) (m : MotionState) : MotionState :=
  mkMotionState (parameters m) (pos m) v (velocity m) (adjustPitch m)
    (pathIndex m) (speed m) (euler m) (eulerStep m) (eulerTarget m) (angle m)
    (angleStep m) (angleTarget m) (base m) (reference m) (final m) (axis m)
    (timer m) (state m).

Definition set_velocity (v : vec3) (m : MotionState) : MotionState :=
  mkMotionState (parameters m) (pos m) (target m) v (adjustPitch m)
    (pathIndex m) (speed m) (euler m) (eulerStep m) (eulerTarget m) (angle m)
    (angleStep m) (angleTarget m) (base m) (reference m) (final m) (axis m)
    (timer m) (state m).

Definition set_pathIndex (i : Z) (m : MotionState) : MotionState :=
  mkMotionState (parameters m) (pos m) (target m) (velocity m) (adjustPitch m)
    i (speed m) (euler m) (eulerStep m) (eulerTarget m) (angle m)
    (angleStep m) (angleTarget m) (base m) (reference m) (final m) (axis m)
    (timer m) (state m).

Definition set_euler (v : vec3) (m : MotionState) : MotionState :=
  mkMotionState (parameters m) (pos m) (target m) (velocity m) (adjustPitch m)
    (pathIndex m) (speed m) v (eulerStep m) (eulerTarget m) (angle m)
    (angleStep m) (angleTarget m) (base m) (reference m) (final m) (axis m)
    (timer m) (state m).

Definition set_eulerStep (v : vec3) (m : MotionState) : MotionState :=
  mkMotionState (parameters m) (pos m) (target m) (velocity m) (adjustPitch m)
    (pathIndex m) (speed m) (euler m) v (eulerTarget m) (angle m)
    (angleStep m) (angleTarget m) (base m) (reference m) (final m) (axis m)
    (timer m) (state m).

Definition set_eulerTarget (v : vec3) (m : MotionState) : MotionState :=
  mkMotionState (parameters m) (pos m) (target m) (velocity m) (adjustPitch m)
    (pathIndex m) (speed m) (euler m) (eulerStep m) v (angle m)
    (angleStep m) (angleTarget m) (base m) (reference m) (final m) (axis m)
    (timer m) (state m).

Definition set_angle (a : R) (m : MotionState) : MotionState :=
  mkMotionState (parameters m) (pos m) (target m) (velocity m) (adjustPitch m)
    (pathIndex m) (speed m) (euler m) (eulerStep m) (eulerTarget m) a
    (angleStep m) (angleTarget m) (base m) (reference m) (final m) (axis m)
    (timer m) (state m).

Definition set_angleStep (a : R) (m : MotionState) : MotionState :=
  mkMotionState (parameters m) (pos m) (target m) (velocity m) (adjustPitch m)
    (pathIndex m) (speed m) (euler m) (eulerStep m) (eulerTarget m) (angle m)
    a (angleTarget m) (base m) (reference m) (final m) (axis m)
    (timer m) (state m).

Definition set_angleTarget (a : R) (m : MotionState) : MotionState :=
  mkMotionState (parameters m) (pos m) (target m) (velocity m) (adjustPitch m)
    (pathIndex m) (speed m) (euler m) (eulerStep m) (eulerTarget m) (angle m)
    (angleStep m) a (base m) (reference m) (final m) (axis m)
    (timer m) (state m).

Definition set_base (b : mat4) (m : MotionState) : MotionState :=
  mkMotionState (parameters m) (pos m) (target m) (velocity m) (adjustPitch m)
    (pathIndex m) (speed m) (euler m) (eulerStep m) (eulerTarget m) (angle m)
    (angleStep m) (angleTarget m) b (reference m) (final m) (axis m)
    (timer m) (state m).

Definition set_reference (b : mat4) (m : MotionState) : MotionState :=
  mkMotionState (parameters m) (pos m) (target m) (velocity m) (adjustPitch m)
    (pathIndex m) (speed m) (euler m) (eulerStep m) (eulerTarget m) (angle m)
    (angleStep m) (angleTarget m) (base m) b (final m) (axis m)
    (timer m) (state m).

Definition set_axis (v : vec3) (m : MotionState) : MotionState :=
  mkMotionState (parameters m) (pos m) (target m) (velocity m) (adjustPitch m)
    (pathIndex m) (speed m) (euler m) (eulerStep m) (eulerTarget m) (angle m)
    (angleStep m) (angleTarget m) (base m) (reference m) (final m) v
    (timer m) (state m).

Definition set_timer (t : R) (m : MotionState) : MotionState :=
  mkMotionState (parameters m) (pos m) (target m) (velocity m) (adjustPitch m)
    (pathIndex m) (speed m) (euler m) (eulerStep m) (eulerTarget m) (angle m)
    (angleStep m) (angleTarget m) (base m) (reference m) (final m) (axis m)
    t (state m).

Definition set_state (s : Z) (m : MotionState) : MotionState :=
  mkMotionState (parameters m) (pos m) (target m) (velocity m) (adjustPitch m)
    (pathIndex m) (speed m) (euler m) (eulerStep m) (eulerTarget m) (angle m)
    (angleStep m) (angleTarget m) (base m) (reference m) (final m) (axis m)
    (timer m) s.

Definition speedTable : list R :=
  [3 / 10; 1; 2; 4; 6; 8; 10; 15; 20; 40; 200; 0].

(** The animation and motion functions an object can be given. *)
Inductive AnimFunc : Type :=
| Anim_HUKUBIKI_C | Anim_COMPASS_A | Anim_WINDMILL01_G | Anim_vehicle
| Anim_PLANE02_F | Anim_PLANE03_F.

Inductive MotionFunc : Type :=
| Motion_followPath | Motion_miscSpin | Motion_miscBob | Motion_miscFlip
| Motion_miscSway | Motion_miscWhackAMole.

Record ObjectRenderer : Type := mkObjectRenderer {
  objectSpawn : Spawn.t;
  bbox : AABB;
  modelInstance : list Inst.t;
  visible : bool;
  animFunc : option AnimFunc;
  motionFunc : option MotionFunc;
  motionState : option MotionState
}.

Definition set_modelInstance (l : list Inst.t) (o : ObjectRenderer)
  : ObjectRenderer :=
  mkObjectRenderer (objectSpawn o) (bbox o) l (visible o) (animFunc o)
    (motionFunc o) (motionState o).

Inductive Axis : Type := Axis_X | Axis_Y | Axis_Z.

(** ** Animation *)

Module ObjectId.
Definition HUKUBIKI_C : Z := 0x0023.
Definition COMPASS_A : Z := 0x002F.
Definition CAR02_F : Z := 0x0091.
Definition CAR03_F : Z := 0x0092.
Definition CAR04_F : Z := 0x0093.
Definition CAR05_E : Z := 0x0094.
Definition CAR06_E : Z := 0x0095.
Definition CAR07_E : Z := 0x0096.
Definition DUSTCAR_F : Z := 0x0133.
Definition TRUCK01_F : Z := 0x0135.
Definition BUS01_F : Z := 0x0136.
Definition BIKE01_D : Z := 0x0156.
Definition BIKE02_D : Z := 0x0157.
Definition BIKE03_D : Z := 0x0165.
Definition BALANCEDOLL01_C : Z := 0x016B.
Definition SHOPHUGU02_D : Z := 0x0189.
Definition CAR08_F : Z := 0x01A2.
Definition WORKCAR06_F : Z := 0x01AB.
Definition BIKE04_E : Z := 0x01B2.
Definition BIKE05_E : Z := 0x01B3.
Definition RADICON02_E : Z := 0x0220.
Definition BIKE06_E : Z := 0x02B0.
Definition WINDMILL01_G : Z := 0x02C6.
Definition KIDDYCAR01_C : Z := 0x02F1.
Definition KIDDYCAR02_C : Z := 0x02F2.
Definition PLANE02_F : Z := 0x0382.
Definition PLANE03_F : Z := 0x0383.
Definition ZOKUCAR_E : Z := 0x0405.
End ObjectId.

Definition rotateObject (modelInstance : Inst.t) (deltaTimeInFrames : R)
    (axis : Axis) (value : R) : Inst.t :=
  let angle := (value / -60) * deltaTimeInFrames in
  let m := Inst.modelMatrix modelInstance in
  let e := Inst.euler modelInstance in
  match axis with
  | Axis_X =>
      Inst.mk (mat4_rotateX m angle) (vec3_set_e0 (e0 e + angle) e)
        (Inst.translation modelInstance) (Inst.bbox modelInstance)
  | Axis_Y =>
      Inst.mk (mat4_rotateY m angle) (vec3_set_e1 (e1 e + angle) e)
        (Inst.translation modelInstance) (Inst.bbox modelInstance)
  | Axis_Z =>
      Inst.mk (mat4_rotateZ m angle) (vec3_set_e2 (e2 e + angle) e)
        (Inst.translation modelInstance) (Inst.bbox modelInstance)
  end.

(** Replacing the element at an index that exists. *)
Fixpoint list_set {A : Type} (l : list A) (i : nat) (a : A) : list A :=
  match l, i with
  | [], _ => []
  | _ :: t, O => a :: t
  | h :: t, S j => h :: list_set t j a
  end.

(** [rotateObject (object.modelInstance[i], ...)].  When the object has no
    sub-model [i], [modelInstance[i]] is [undefined] and [rotateObject]
    throws a TypeError: [None]. *)
Definition rotateInstance (object : ObjectRenderer) (i : nat)
    (deltaTimeInFrames : R) (axis : Axis) (value : R)
  : option ObjectRenderer :=
  match nth_error (modelInstance object) i with
  | Some inst =>
      Some (set_modelInstance
              (list_set (modelInstance object) i
                 (rotateObject inst deltaTimeInFrames axis value))
              object)
  | None => None
  end.

Definition animFuncSelect (objectId : Z) : option AnimFunc :=
  if (objectId =? ObjectId.HUKUBIKI_C)%Z then Some Anim_HUKUBIKI_C
  else if (objectId =? ObjectId.COMPASS_A)%Z then Some Anim_COMPASS_A
  else if (objectId =? ObjectId.WINDMILL01_G)%Z then Some Anim_WINDMILL01_G
  else if existsb (Z.eqb objectId)
            [ObjectId.CAR02_F; ObjectId.CAR03_F; ObjectId.CAR04_F;
             ObjectId.CAR05_E; ObjectId.CAR06_E; ObjectId.CAR07_E;
             ObjectId.CAR08_F; ObjectId.DUSTCAR_F; ObjectId.TRUCK01_F;
             ObjectId.BUS01_F; ObjectId.BIKE01_D; ObjectId.BIKE02_D;
             ObjectId.BIKE03_D; ObjectId.BIKE04_E; ObjectId.BIKE05_E;
             ObjectId.BIKE06_E; ObjectId.RADICON02_E; ObjectId.KIDDYCAR01_C;
             ObjectId.KIDDYCAR02_C; ObjectId.ZOKUCAR_E]
       then Some Anim_vehicle
  else if (objectId =? ObjectId.PLANE02_F)%Z then Some Anim_PLANE02_F
  else if (objectId =? ObjectId.PLANE03_F)%Z then Some Anim_PLANE03_F
  else None.

Definition animFunc_HUKUBIKI_C (object : ObjectRenderer)
    (deltaTimeInFrames : R) : option ObjectRenderer :=
  rotateInstance object 1 deltaTimeInFrames Axis_Z 1.

Definition animFunc_COMPASS_A (object : ObjectRenderer)
    (deltaTimeInFrames : R) : option ObjectRenderer :=
  rotateInstance object 1 deltaTimeInFrames Axis_Y 1.

Definition animFunc_WINDMILL01_G (object : ObjectRenderer)
    (deltaTimeInFrames : R) : option ObjectRenderer :=
  rotateInstance object 1 deltaTimeInFrames Axis_Z 12.

Definition animFunc_PLANE02_F (object : ObjectRenderer)
    (deltaTimeInFrames : R) : option ObjectRenderer :=
  match rotateInstance object 1 deltaTimeInFrames Axis_Y (168 / 10) with
  | Some object' =>
      rotateInstance object' 2 deltaTimeInFrames Axis_X (168 / 10)
  | None => None
  end.

Definition animFunc_PLANE03_F (object : ObjectRenderer)
    (deltaTimeInFrames : R) : option ObjectRenderer :=
  match rotateInstance object 0 deltaTimeInFrames Axis_Z (168 / 10) with
  | Some object' =>
      rotateInstance object' 2 deltaTimeInFrames Axis_Z (168 / 10)
  | None => None
  end.

Definition vehicleAnimFunc (object : ObjectRenderer)
    (deltaTimeInFrames : R) : option ObjectRenderer :=
  match motionState object with
  | None => Some object
  | Some _ =>
      match rotateInstance object 1 deltaTimeInFrames Axis_X (-4) with
      | Some object' => rotateInstance object' 2 deltaTimeInFrames Axis_X (-4)
      | None => None
      end
  end.

(** The call [this.animFunc (this, deltaTimeInFrames)]. *)
Definition callAnimFunc (f : AnimFunc) (object : ObjectRenderer)
    (deltaTimeInFrames : R) : option ObjectRenderer :=
  match f with
  | Anim_HUKUBIKI_C => animFunc_HUKUBIKI_C object deltaTimeInFrames
  | Anim_COMPASS_A => animFunc_COMPASS_A object deltaTimeInFrames
  | Anim_WINDMILL01_G => animFunc_WINDMILL01_G object deltaTimeInFrames
  | Anim_vehicle => vehicleAnimFunc object deltaTimeInFrames
  | Anim_PLANE02_F => animFunc_PLANE02_F object deltaTimeInFrames
  | Anim_PLANE03_F => animFunc_PLANE03_F object deltaTimeInFrames
  end.

(** ** Motion *)

Module MotionID.
Definition COLLISION_PATH : Z := 0x02.
Definition MISC : Z := 0x16.
Definition SIMPLE_PATH : Z := 0x1D.
End MotionID.

Definition motionFuncSelect (motionID globalMoveIndex : Z)
  : option MotionFunc :=
  if ((motionID =? MotionID.COLLISION_PATH)
      || (motionID =? MotionID.SIMPLE_PATH))%Z then Some Motion_followPath
  else if (motionID =? MotionID.MISC)%Z then
    if (globalMoveIndex =? 0x15)%Z then Some Motion_miscSpin
    else if (globalMoveIndex =? 0x16)%Z then Some Motion_miscBob
    else if (globalMoveIndex =? 0x1E)%Z then Some Motion_miscFlip
    else if (globalMoveIndex =? 0x20)%Z then Some Motion_miscSway
    else if (globalMoveIndex =? 0x22)%Z then Some Motion_miscWhackAMole
    else None
  else None.

(** The constructor of [ObjectRenderer]. *)
Definition newMotionState (objectSpawn : Spawn.t) (def : Def.t)
    (motion : Params.t) : MotionState :=
  let speed :=
    if Rltb (Params.speed motion) 0 then
      if (0 <=? Def.speedIndex def)%Z
      then Float32Array_get speedTable (Def.speedIndex def)
      else 0
    else Params.speed motion in
  {| parameters := motion;
     speed := speed;
     pathIndex := -1;
     adjustPitch := negb (Def.stayLevel def);
     pos := mat4_getTranslation (Spawn.modelMatrix objectSpawn);
     target := vec3_create;
     velocity := vec3_create;
     euler := vec3_create;
     eulerStep := vec3_create;
     eulerTarget := vec3_create;
     angle := 0;
     angleStep := 0;
     angleTarget := 0;
     base := Spawn.modelMatrix objectSpawn;
     reference := mat4_create;
     final := mat4_create;
     axis := vec3_create;
     timer := -1;
     state := -1 |}.

Definition newObjectRenderer (objectSpawn : Spawn.t) (bbox : AABB)
    (def : Def.t) (motion : option Params.t) : ObjectRenderer :=
  {| objectSpawn := objectSpawn;
     bbox := bbox;
     modelInstance := [];
     visible := true;
     animFunc := animFuncSelect (Spawn.objectId objectSpawn);
     motionFunc :=
       match motion with
       | Some m =>
           motionFuncSelect (Params.motionID m) (Params.globalMotionIndex m)
       | None => None
       end;
     motionState :=
       match motion with
       | Some m => Some (newMotionState objectSpawn def m)
       | None => None
       end |}.

(** [deltaTimeInFrames] of [prepareToRender]: the game runs at 30 frames
    a second. *)
Definition deltaTimeInFrames_of (deltaTime : R) : R :=
  clamp (deltaTime / 33) 0 2.

(** ** The path follower *)

Definition pathPoint (path : list R) (i : Z) : vec3 :=
  Vec3 (Float32Array_get path (4 * i + 0))
       (Float32Array_get path (4 * i + 1))
       (Float32Array_get path (4 * i + 2)).

(** The variables of the loop of [findPathStartIndex]. *)
Record StartSearch : Type := mkStartSearch {
  minPoint : Z;
  secPoint : Z;
  secDist : R;
  minDist : R
}.

(** One turn of the loop, for the index [i]. *)
Definition findPathStartIndex_body (pos : vec3) (path : list R)
    (s : StartSearch) (i : Z) : StartSearch :=
  let d := vec3_dist pos (pathPoint path i) in
  if Rltb d (minDist s) then
    mkStartSearch i (minPoint s) (minDist s) d
  else if (secPoint s <? 0)%Z || Rltb d (secDist s) then
    mkStartSearch (minPoint s) i d (minDist s)
  else s.

(** The indices [i] the loop visits: [1 <= i] and [4 * i < path.length]. *)
Definition findPathStartIndex_indices (path : list R) : list Z :=
  map Z.of_nat (seq 1 ((length path + 3) / 4 - 1)).

Definition findPathStartIndex_loop (pos : vec3) (path : list R)
  : StartSearch :=
  fold_left (findPathStartIndex_body pos path)
    (findPathStartIndex_indices path)
    (mkStartSearch 0 (-1) 0 (vec3_dist pos (pathPoint path 0))).

Definition findPathStartIndex (pos : vec3) (path : list R) : Z :=
  let s := findPathStartIndex_loop pos path in
  if (minPoint s =? 0)%Z && negb (secPoint s =? 1)%Z then 0%Z
  else if (secPoint s =? 0)%Z && negb (minPoint s =? 1)%Z then 0%Z
  else Z.max (minPoint s) (secPoint s).

(** The two divisors of [targetNextPoint]. *)
Definition framesUntilYaw (distToTarget speed : R) : R :=
  distToTarget / (if Reqb speed 0 then 30 else speed).

Definition framesUntilPitch (distToTarget speed : R) : R :=
  if Reqb speed 0 then 4 else 25 / 100 * distToTarget / speed.

(** [targetNextPoint] in four parts, in the order of the source: the move
    to the next waypoint (up to [vec3.sub (motion.velocity, ...)]), the yaw
    lines, the block under [if (motion.adjustPitch)], and the last line. *)
Definition targetNextPoint_waypoint (motion : MotionState) (yOffset : R)
  : MotionState :=
  let motion := set_pos (target motion) motion in
  let motion := set_pathIndex (pathIndex motion + 1) motion in
  let motion :=
    if (pathIndex motion * 4
        =? Float32Array_length (Params.pathPoints (parameters motion)))%Z
    then set_pathIndex 0 motion else motion in
  let motion :=
    set_target (pathPoint (Params.pathPoints (parameters motion))
                  (pathIndex motion)) motion in
  let motion :=
    set_target (vec3_set_e1 (e1 (target motion) - yOffset) (target motion))
      motion in
  set_velocity (vec3_sub (target motion) (pos motion)) motion.

Definition targetNextPoint_yaw (motion : MotionState) (distToTarget : R)
    (pathScratch : vec3) : MotionState :=
  let motion :=
    set_euler (vec3_set_e1 (Math_atan2 (e0 pathScratch) (e2 pathScratch))
                 (euler motion)) motion in
  let motion :=
    set_eulerTarget
      (vec3_set_e1
         (PI + Math_atan2 (e0 (velocity motion)) (e2 (velocity motion)))
         (eulerTarget motion)) motion in
  set_eulerStep
    (vec3_set_e1
       (angleDist (e1 (euler motion)) (e1 (eulerTarget motion))
        / framesUntilYaw distToTarget (speed motion))
       (eulerStep motion)) motion.

Definition targetNextPoint_pitch (motion : MotionState) (distToTarget : R)
    (pathScratch : vec3) : MotionState :=
  let motion := set_reference (base motion) motion in
  let motion :=
    set_axis (Vec3 (e2 (velocity motion)) 0 (- e0 (velocity motion)))
      motion in
  let motion := set_axis (vec3_normalize (axis motion)) motion in
  let motion := set_velocity (vec3_normalize (velocity motion)) motion in
  let pathScratch := vec3_normalize pathScratch in
  let dot :=
    - e1 (velocity motion) * e1 pathScratch
    + Math_hypot (e0 (velocity motion)) (e2 (velocity motion))
      * Math_hypot (e0 pathScratch) (e2 pathScratch) in
  let motion := set_angleTarget (acos (clamp dot (-1) 1)) motion in
  let motion :=
    if Rltb (- e1 (velocity motion)) (e1 pathScratch)
    then set_angleTarget (angleTarget motion * -1) motion
    else motion in
  let motion :=
    set_angleStep
      (angleTarget motion / framesUntilPitch distToTarget (speed motion))
      motion in
  set_angle 0 motion.

Definition targetNextPoint (motion : MotionState) (yOffset : R)
  : MotionState :=
  let motion := targetNextPoint_waypoint motion yOffset in
  let distToTarget := vec3_length (velocity motion) in
  let pathScratch := getMatrixAxisZ (final motion) in
  let motion := targetNextPoint_yaw motion distToTarget pathScratch in
  let motion :=
    if adjustPitch motion
    then targetNextPoint_pitch motion distToTarget pathScratch
    else motion in
  set_velocity (normToLength (velocity motion) (speed motion)) motion.

(** [adjustBasePitch] writes the module-level [pitchTransformScratch]; the
    matrix is an argument and a result. *)
Definition adjustBasePitch (motion : MotionState) (deltaTimeInFrames : R)
    (pitchTransformScratch : mat4) : MotionState * mat4 :=
  if Reqb (angleStep motion * deltaTimeInFrames) 0 then
    (motion, pitchTransformScratch)
  else
    let motion :=
      set_angle (angle motion + angleStep motion * deltaTimeInFrames) motion in
    let delta := (angleTarget motion - angle motion) * angleStep motion in
    if Rltb delta 0 then
      let motion := set_angleStep 0 motion in
      let motion := set_angle (angleTarget motion) motion in
      let pitch :=
        - Math_atan2 (e1 (velocity motion))
            (Math_hypot (e0 (velocity motion)) (e2 (velocity motion))) in
      (set_base (mat4_fromRotation (base motion) pitch (axis motion)) motion,
       pitchTransformScratch)
    else
      let pitchTransformScratch :=
        mat4_fromRotation pitchTransformScratch (angle motion) (axis motion) in
      (set_base (mat4_mul (reference motion) pitchTransformScratch) motion,
       pitchTransformScratch).

(** The first block of [followPath], run when [pathIndex < 0]. *)
Definition followPath_init (object : ObjectRenderer) (motion : MotionState)
  : MotionState :=
  let path := Params.pathPoints (parameters motion) in
  let motion := set_base mat4_identity motion in
  let motion := set_pathIndex (findPathStartIndex (pos motion) path) motion in
  let motion := set_pos (pathPoint path (pathIndex motion)) motion in
  let motion :=
    set_pos (vec3_set_e1 (e1 (pos motion) - maxY (bbox object)) (pos motion))
      motion in
  let motion := set_pathIndex (pathIndex motion + 1) motion in
  let motion := set_target (pathPoint path (pathIndex motion)) motion in
  let motion :=
    set_target
      (vec3_set_e1 (e1 (target motion) - maxY (bbox object)) (target motion))
      motion in
  let motion :=
    set_euler
      (vec3_set_e1
         (PI + Math_atan2 (e0 (target motion) - e0 (pos motion))
                 (e2 (target motion) - e2 (pos motion)))
         (euler motion)) motion in
  let motion := set_velocity (vec3_sub (target motion) (pos motion)) motion in
  set_velocity (normToLength (velocity motion) (speed motion)) motion.

(** The yaw lines of [followPath]. *)
Definition followPath_yaw (motion : MotionState) (deltaTimeInFrames : R)
  : MotionState :=
  let motion :=
    set_euler
      (vec3_set_e1
         (e1 (euler motion) + e1 (eulerStep motion) * deltaTimeInFrames)
         (euler motion)) motion in
  if negb (Reqb (Math_sign (e1 (eulerStep motion)))
             (Math_sign (angleDist (e1 (euler motion))
                           (e1 (eulerTarget motion)))))
  then
    let motion :=
      set_euler (vec3_set_e1 (e1 (eulerTarget motion)) (euler motion))
        motion in
    set_eulerStep (vec3_set_e1 0 (eulerStep motion)) motion
  else motion.

Definition followPath (object : ObjectRenderer) (deltaTimeInFrames : R)
    (motion : MotionState) (pitchTransformScratch : mat4)
  : bool * MotionState * mat4 :=
  let motion :=
    if (pathIndex motion <? 0)%Z then followPath_init object motion
    else motion in
  let '(motion, pitchTransformScratch) :=
    if adjustPitch motion
    then adjustBasePitch motion deltaTimeInFrames pitchTransformScratch
    else (motion, pitchTransformScratch) in
  let motion :=
    if Rleb (vec3_dist (target motion) (pos motion))
         (speed motion * deltaTimeInFrames)
    then targetNextPoint motion (maxY (bbox object))
    else motion in
  let motion := followPath_yaw motion deltaTimeInFrames in
  let motion :=
    set_pos (vec3_scaleAndAdd (pos motion) (velocity motion)
               deltaTimeInFrames) motion in
  (true, motion, pitchTransformScratch).

(** ** The other motion functions *)

Definition miscSpinMotionFunc (object : ObjectRenderer)
    (deltaTimeInFrames : R) (motion : MotionState) : bool * MotionState :=
  (true,
   set_euler
     (vec3_set_e1 (e1 (euler motion) + 5 / 100 * deltaTimeInFrames)
        (euler motion)) motion).

(** [random] is the value [Math.random ()] returns if it is called.  The
    store into [motion.pos], a Float32Array, rounds the height. *)
Definition miscBobMotionFunc (object : ObjectRenderer)
    (deltaTimeInFrames : R) (motion : MotionState) (random : R)
  : bool * MotionState :=
  let motion :=
    if Reqb (timer motion) (-1) then set_timer (random * 60) motion
    else motion in
  let motion :=
    if Rltb (timer motion) deltaTimeInFrames then
      let motion :=
        set_angle (angle motion + deltaTimeInFrames * PI / 45) motion in
      set_pos
        (vec3_set_e1
           (Math_fround
              (m13 (Spawn.modelMatrix (objectSpawn object))
               + maxY (bbox object) * (15 / 100) * sin (angle motion)))
           (pos motion)) motion
    else set_timer (timer motion - deltaTimeInFrames) motion in
  (false, motion).

Definition miscFlipMotionFunc (object : ObjectRenderer)
    (deltaTimeInFrames : R) (motion : MotionState) : bool * MotionState :=
  (true,
   set_euler
     (vec3_set_e0 (e0 (euler motion) - 5 / 100 * deltaTimeInFrames)
        (euler motion)) motion).

(** [None]: the object has no sub-model, [object.modelInstance[0]] is
    [undefined] and reading its bounding box throws a TypeError. *)
Definition miscSwayMotionFunc (object : ObjectRenderer)
    (deltaTimeInFrames : R) (motion : MotionState)
  : option (bool * MotionState) :=
  let motion :=
    set_angle (angle motion + deltaTimeInFrames * PI / 45) motion in
  let motion :=
    set_euler (vec3_set_e2 (sin (angle motion) * TAU / 36) (euler motion))
      motion in
  if negb (Spawn.objectId (objectSpawn object)
           =? ObjectId.BALANCEDOLL01_C)%Z
  then
    let swayScratch :=
      Vec3 (sin (e2 (euler motion))) (- cos (e2 (euler motion))) 0 in
    let swayScratch := transformVec3Mat4w0 (final motion) swayScratch in
    match nth_error (modelInstance object) 0 with
    | None => None
    | Some inst0 =>
        let bottomOffset := maxY (Inst.bbox inst0) in
        let swayScratch := vec3_scale swayScratch bottomOffset in
        let mm := Spawn.modelMatrix (objectSpawn object) in
        Some (true,
              set_pos
                (Vec3 (m12 mm + e0 swayScratch)
                      (m13 mm + e1 swayScratch + bottomOffset)
                      (m14 mm + e2 swayScratch)) motion)
    end
  else Some (true, motion).

(** The block of [miscWhackAMoleMotionFunc] that starts a cycle. *)
Definition miscWhackAMole_restart (motion : MotionState) (random : R)
  : MotionState :=
  let motion := set_timer (random * 150 + 60) motion in
  let motion := set_angle (PI / 2) motion in
  let motion := set_state (Z.rem (state motion + 1) 2) motion in
  set_angleStep (PI / 45) motion.

(** [None]: the object has no sub-model.  The store into [motion.pos]
    rounds the height. *)
Definition miscWhackAMoleMotionFunc (object : ObjectRenderer)
    (deltaTimeInFrames : R) (motion : MotionState) (random : R)
  : option (bool * MotionState) :=
  let motion :=
    if Reqb (timer motion) (-1) then miscWhackAMole_restart motion random
    else motion in
  if Rltb (timer motion) deltaTimeInFrames then
    let motion :=
      set_angle (angle motion + angleStep motion * deltaTimeInFrames)
        motion in
    let motion :=
      if Rltb PI (angle motion)
      then set_timer (-1) (set_angle 0 motion)
      else motion in
    match nth_error (modelInstance object) 0 with
    | None => None
    | Some inst0 =>
        let firstBBox := Inst.bbox inst0 in
        let buriedDepth := maxY firstBBox + (maxY firstBBox - minY firstBBox) in
        Some (false,
              set_pos
                (vec3_set_e1
                   (Math_fround
                      (m13 (Spawn.modelMatrix (objectSpawn object))
                       + buriedDepth
                         * (if (state motion =? 0)%Z
                            then 1 - sin (angle motion)
                            else sin (angle motion))))
                   (pos motion)) motion)
    end
  else Some (false, set_timer (timer motion - deltaTimeInFrames) motion).

(** * Runs, invariants and examples

    Definitions the statements below are written with: parts of the path
    follower under names of their own, the motion functions over several
    frames, the invariants, the spec's notions of nearest and second-nearest
    waypoint, and the objects the theorems are tried on. *)

(** ** Parts of the path follower *)

(** [motion.parameters.pathPoints.length]. *)
Definition pathLength (motion : MotionState) : Z :=
  Float32Array_length (Params.pathPoints (parameters motion)).

(** The number of waypoints of a path of four numbers a waypoint. *)
Definition waypointCount (path : list R) : Z :=
  (Float32Array_length path / 4)%Z.

(** The index [targetNextPoint] moves to. *)
Definition nextIndex (motion : MotionState) : Z :=
  if ((pathIndex motion + 1) * 4 =? pathLength motion)%Z then 0%Z
  else (pathIndex motion + 1)%Z.

(** [distToTarget] of [targetNextPoint]: the distance from the waypoint just
    reached to the next one. *)
Definition distToTarget_of (motion : MotionState) (yOffset : R) : R :=
  vec3_length (velocity (targetNextPoint_waypoint motion yOffset)).

(** [followPath] up to the yaw lines: the start block, the pitch blend and
    the move to the next waypoint. *)
Definition followPath_before_yaw (object : ObjectRenderer)
    (deltaTimeInFrames : R) (motion : MotionState)
    (pitchTransformScratch : mat4) : MotionState * mat4 :=
  let motion :=
    if (pathIndex motion <? 0)%Z then followPath_init object motion
    else motion in
  let '(motion, pitchTransformScratch) :=
    if adjustPitch motion
    then adjustBasePitch motion deltaTimeInFrames pitchTransformScratch
    else (motion, pitchTransformScratch) in
  let motion :=
    if Rleb (vec3_dist (target motion) (pos motion))
         (speed motion * deltaTimeInFrames)
    then targetNextPoint motion (maxY (bbox object))
    else motion in
  (motion, pitchTransformScratch).

(** ** Several frames *)

(** A frame of [prepareToRender]: the elapsed time [viewerInput.deltaTime]
    and the number [Math.random ()] returns in that frame if asked. *)
Definition Frame : Type := (R * R)%type.

Fixpoint bobFrames (object : ObjectRenderer) (motion : MotionState)
    (frames : list Frame) : MotionState :=
  match frames with
  | [] => motion
  | (deltaTime, random) :: rest =>
      bobFrames object
        (snd (miscBobMotionFunc object (deltaTimeInFrames_of deltaTime)
                motion random))
        rest
  end.


(** [adjustBasePitch] over successive frames with the given time steps. *)
Fixpoint adjustBasePitchFrames (motion : MotionState) (scratch : mat4)
    (steps : list R) : MotionState * mat4 :=
  match steps with
  | [] => (motion, scratch)
  | dt :: rest =>
      let '(motion', scratch') := adjustBasePitch motion dt scratch in
      adjustBasePitchFrames motion' scratch' rest
  end.

(** ** Invariants *)





(** Pitch blend: the step points from the angle towards its target. *)
Definition pitch_coherent (motion : MotionState) : Prop :=
  0 <= (angleTarget motion - angle motion) * angleStep motion.

(** Pitch blend: the blend is over. *)
Definition pitch_done (motion : MotionState) : Prop :=
  angleStep motion = 0 /\ angle motion = angleTarget motion.

(** Yaw: the step and the remaining angular distance have the same sign. *)
Definition yaw_coherent (motion : MotionState) : Prop :=
  Math_sign (e1 (eulerStep motion))
  = Math_sign (angleDist (e1 (euler motion)) (e1 (eulerTarget motion))).

(** Yaw: the yaw was set on its target and the step to 0. *)
Definition yaw_snapped (motion : MotionState) : Prop :=
  e1 (euler motion) = e1 (eulerTarget motion) /\ e1 (eulerStep motion) = 0.

(** ** The start index in the spec's words *)

Definition waypointDist (pos : vec3) (path : list R) (i : Z) : R :=
  vec3_dist pos (pathPoint path i).

(** [m] is a nearest waypoint among the first [k]. *)
Definition nearestAmong (pos : vec3) (path : list R) (k m : Z) : Prop :=
  (0 <= m < k)%Z
  /\ forall j : Z,
       (0 <= j < k)%Z -> waypointDist pos path m <= waypointDist pos path j.

(** [s] is a nearest waypoint among the first [k] other than [m]. *)
Definition secondNearestAmong (pos : vec3) (path : list R) (k m s : Z)
  : Prop :=
  (0 <= s < k)%Z /\ s <> m
  /\ forall j : Z,
       (0 <= j < k)%Z -> j <> m ->
       waypointDist pos path s <= waypointDist pos path j.

(** The result: 0 when the nearest waypoint is 0 and the second-nearest is
    not 1, 0 when the second-nearest is 0 and the nearest is not 1,
    otherwise the larger of the two. *)
Definition startIndexOf (nearest secondNearest : Z) : Z :=
  if (nearest =? 0)%Z && negb (secondNearest =? 1)%Z then 0%Z
  else if (secondNearest =? 0)%Z && negb (nearest =? 1)%Z then 0%Z
  else Z.max nearest secondNearest.

(** The loop variables of [findPathStartIndex] after the waypoints below
    [k] have been seen. *)
Definition search_inv (pos : vec3) (path : list R) (k : Z) (s : StartSearch)
  : Prop :=
  nearestAmong pos path k (minPoint s)
  /\ minDist s = waypointDist pos path (minPoint s)
  /\ ((k = 1%Z /\ secPoint s = (-1)%Z)
      \/ ((2 <= k)%Z
          /\ secondNearestAmong pos path k (minPoint s) (secPoint s)
          /\ secDist s = waypointDist pos path (secPoint s))).

Definition search_nonneg (s : StartSearch) : Prop :=
  (0 <= minPoint s)%Z /\ (-1 <= secPoint s)%Z.

(** ** Objects the theorems are tried on *)

(** [mat4.fromTranslation]. *)
Definition mat4_fromTranslation (v : vec3) : mat4 :=
  Mat4 1 0 0 0  0 1 0 0  0 0 1 0  (e0 v) (e1 v) (e2 v) 1.

(** Two waypoints: (0,0,0) and (3,0,4). *)
Definition twoPointPath : list R := [0; 0; 0; 0;  3; 0; 4; 0].

Definition carSpawn : Spawn.t :=
  Spawn.mk ObjectId.CAR02_F mat4_identity 0 (-1).

(** The motion state of a new car that follows the slope of its path. *)
Definition newCar (speed : R) (path : list R) : MotionState :=
  newMotionState carSpawn (Def.mk (-1) false)
    (Params.mk MotionID.SIMPLE_PATH 0 speed path).

(** A car of speed 0 on the first waypoint of [twoPointPath]. *)
Definition standingCar : MotionState :=
  set_pathIndex 0 (newCar (-1) twoPointPath).

(** A car in the middle of a pitch blend: one radian to go, half a radian a
    frame, about the X axis; the car drives level along Z. *)
Definition pitchingCar : MotionState :=
  set_angleStep (1 / 2)
    (set_angleTarget 1
       (set_axis (Vec3 1 0 0)
          (set_velocity (Vec3 0 0 1)
             (set_pathIndex 0 (newCar 1 twoPointPath))))).

Definition moleBox : AABB := mkAABB (-1) 2.

(** A mole with one sub-model. *)
Definition mole : ObjectRenderer :=
  set_modelInstance
    [Inst.mk mat4_identity vec3_create vec3_create moleBox]
    (newObjectRenderer (Spawn.mk 0 mat4_identity 0 (-1)) moleBox
       (Def.mk 0 false) (Some (Params.mk MotionID.MISC 0x22 1 []))).



(** Four waypoints: (0,0,0), (10,0,0), (10,0,10), (0,0,10). *)
Definition squarePath : list R :=
  [0; 0; 0; 0;  10; 0; 0; 0;  10; 0; 10; 0;  0; 0; 10; 0].

Definition carBox : AABB := mkAABB (-1) 1.

Definition carParams (speed : R) : Params.t :=
  Params.mk MotionID.SIMPLE_PATH 0 speed squarePath.

Definition carSpawnAt (x z : R) : Spawn.t :=
  Spawn.mk ObjectId.CAR02_F (mat4_fromTranslation (Vec3 x 0 z)) 0 (-1).

(** A car on the square path that stays level, spawned at [(x, 0, z)], and
    the motion state it is created with. *)
Definition squareCar (x z speed : R) : ObjectRenderer :=
  newObjectRenderer (carSpawnAt x z) carBox (Def.mk (-1) true)
    (Some (carParams speed)).

Definition squareCarMotion (x z speed : R) : MotionState :=
  newMotionState (carSpawnAt x z) (Def.mk (-1) true) (carParams speed).

(** The fast car (ten units a frame) after its first frame: it has gone
    through the third waypoint and stands exactly on the fourth, its
    target. *)
Definition fastCarAfterOneFrame : MotionState :=
  snd (fst (followPath (squareCar 1 0 10) 1 (squareCarMotion 1 0 10)
              mat4_identity)).

(** The car stands on the third waypoint, its target, heading 0 while its
    yaw target is still half a turn away, a tenth of it a frame. *)
Definition turningCar : MotionState :=
  set_eulerStep (Vec3 0 (- (PI / 10)) 0)
    (set_eulerTarget (Vec3 0 PI 0)
       (set_target (Vec3 10 (-1) 10)
          (set_pos (Vec3 10 (-1) 10)
             (set_pathIndex 2 (squareCarMotion 1 0 1))))).

(** The car half way between the second and the third waypoint, its yaw on
    its target. *)
Definition cruisingCar : MotionState :=
  set_target (Vec3 10 (-1) 10)
    (set_pos (Vec3 10 (-1) 5) (set_pathIndex 2 (squareCarMotion 1 0 1))).

(** The same car with a tenth of a radian left to turn, at two tenths a
    frame: the next frame carries its yaw past the target. *)
Definition steeringCar : MotionState :=
  set_eulerStep (Vec3 0 (2 / 10) 0)
    (set_eulerTarget (Vec3 0 (1 / 10) 0) cruisingCar).

(** * The frame of an object, and its display *)

(** ** [prepareToRender] *)

(** Modelled from the spec: [setMatrixTranslation] of MathHelpers is not
    among the sources; the spec lists it as setting the translation column
    of a matrix. *)
Definition setMatrixTranslation (dst : mat4) (v : vec3) : mat4 :=
  Mat4 (m0 dst) (m1 dst) (m2 dst) (m3 dst)
       (m4 dst) (m5 dst) (m6 dst) (m7 dst)
       (m8 dst) (m9 dst) (m10 dst) (m11 dst)
       (e0 v) (e1 v) (e2 v) (m15 dst).

Definition set_final (b : mat4) (m : MotionState) : MotionState :=
  mkMotionState (parameters m) (pos m) (target m) (velocity m) (adjustPitch m)
    (pathIndex m) (speed m) (euler m) (eulerStep m) (eulerTarget m) (angle m)
    (angleStep m) (angleTarget m) (base m) (reference m) b (axis m)
    (timer m) (state m).

Definition set_motionState (s : option MotionState) (o : ObjectRenderer)
  : ObjectRenderer :=
  mkObjectRenderer (objectSpawn o) (bbox o) (modelInstance o) (visible o)
    (animFunc o) (motionFunc o) s.

(** The call [this.motionFunc (this, deltaTimeInFrames, this.motionState)].
    [random] is the value [Math.random ()] returns if it is called, and
    [pitchTransformScratch] the module-level matrix of [adjustBasePitch]. *)
Definition callMotionFunc (f : MotionFunc) (object : ObjectRenderer)
    (deltaTimeInFrames : R) (motion : MotionState) (random : R)
    (pitchTransformScratch : mat4) : option (bool * MotionState * mat4) :=
  match f with
  | Motion_followPath =>
      Some (followPath object deltaTimeInFrames motion pitchTransformScratch)
  | Motion_miscSpin =>
      let '(rebuild, motion) :=
        miscSpinMotionFunc object deltaTimeInFrames motion in
      Some (rebuild, motion, pitchTransformScratch)
  | Motion_miscBob =>
      let '(rebuild, motion) :=
        miscBobMotionFunc object deltaTimeInFrames motion random in
      Some (rebuild, motion, pitchTransformScratch)
  | Motion_miscFlip =>
      let '(rebuild, motion) :=
        miscFlipMotionFunc object deltaTimeInFrames motion in
      Some (rebuild, motion, pitchTransformScratch)
  | Motion_miscSway =>
      match miscSwayMotionFunc object deltaTimeInFrames motion with
      | Some (rebuild, motion) => Some (rebuild, motion, pitchTransformScratch)
      | None => None
      end
  | Motion_miscWhackAMole =>
      match miscWhackAMoleMotionFunc object deltaTimeInFrames motion random
      with
      | Some (rebuild, motion) => Some (rebuild, motion, pitchTransformScratch)
      | None => None
      end
  end.

(** The translation column of a sub-model's matrix moved by the change of
    position: [dst[12] += ...], [dst[13] += ...], [dst[14] += ...]. *)
Definition translateBy (dst : mat4) (pos objectPosScratch : vec3) : mat4 :=
  Mat4 (m0 dst) (m1 dst) (m2 dst) (m3 dst)
       (m4 dst) (m5 dst) (m6 dst) (m7 dst)
       (m8 dst) (m9 dst) (m10 dst) (m11 dst)
       (m12 dst + (e0 pos - e0 objectPosScratch))
       (m13 dst + (e1 pos - e1 objectPosScratch))
       (m14 dst + (e2 pos - e2 objectPosScratch))
       (m15 dst).

Section PrepareToRender.

(** Modelled from the spec: [computeModelMatrixSRT] of MathHelpers is not
    among the sources; the spec lists it as composing a transform from
    scale, rotation and translation and does not give the order of the
    rotations.  It is a parameter here: a function of the matrix it writes
    to and of its nine numbers. *)
Variable computeModelMatrixSRT :
  mat4 -> R -> R -> R -> R -> R -> R -> R -> R -> R -> mat4.

(** The lines under [if (rebuild)] that recompute [motionState.final]. *)
Definition rebuildFinal (motion : MotionState) : MotionState :=
  let motion :=
    set_final
      (computeModelMatrixSRT (final motion) 1 1 1
         (e0 (euler motion)) (e1 (euler motion)) (e2 (euler motion))
         0 0 0) motion in
  let motion := set_final (mat4_mul (base motion) (final motion)) motion in
  set_final (setMatrixTranslation (final motion) (pos motion)) motion.

(** One turn of the loop over the sub-models. *)
Definition prepareToRender_instance (rebuild : bool) (motion : MotionState)
    (objectPosScratch : vec3) (inst : Inst.t) : Inst.t :=
  let dst := Inst.modelMatrix inst in
  let dst :=
    if rebuild then
      let dst :=
        computeModelMatrixSRT dst 1 1 1
          (e0 (Inst.euler inst)) (e1 (Inst.euler inst)) (e2 (Inst.euler inst))
          (e0 (Inst.translation inst)) (e1 (Inst.translation inst))
          (e2 (Inst.translation inst)) in
      mat4_mul (final motion) dst
    else translateBy dst (pos motion) objectPosScratch in
  Inst.mk dst (Inst.euler inst) (Inst.translation inst) (Inst.bbox inst).

(** The block under [if (this.motionFunc !== null && this.motionState !==
    null)]. *)
Definition prepareToRender_motion (object : ObjectRenderer)
    (deltaTimeInFrames : R) (random : R) (pitchTransformScratch : mat4)
  : option (ObjectRenderer * mat4) :=
  match motionFunc object, motionState object with
  | Some f, Some motion =>
      let objectPosScratch := pos motion in
      match callMotionFunc f object deltaTimeInFrames motion random
              pitchTransformScratch with
      | None => None
      | Some (rebuild, motion, pitchTransformScratch) =>
          let motion := if rebuild then rebuildFinal motion else motion in
          Some (set_modelInstance
                  (map (prepareToRender_instance rebuild motion
                          objectPosScratch) (modelInstance object))
                  (set_motionState (Some motion) object),
                pitchTransformScratch)
      end
  | _, _ => Some (object, pitchTransformScratch)
  end.

(** [prepareToRender] up to the calls that hand the sub-models to the
    renderer.  [deltaTime] is [viewerInput.deltaTime]; [None] is a
    TypeError of the motion or of the animation function. *)
Definition prepareToRender (object : ObjectRenderer) (deltaTime : R)
    (random : R) (pitchTransformScratch : mat4)
  : option (ObjectRenderer * mat4) :=
  if negb (visible object) then Some (object, pitchTransformScratch)
  else
    let deltaTimeInFrames := clamp (deltaTime / 33) 0 2 in
    match prepareToRender_motion object deltaTimeInFrames random
            pitchTransformScratch with
    | None => None
    | Some (object, pitchTransformScratch) =>
        match animFunc object with
        | Some f =>
            match callAnimFunc f object deltaTimeInFrames with
            | Some object => Some (object, pitchTransformScratch)
            | None => None
            end
        | None => Some (object, pitchTransformScratch)
        end
    end.

(** [prepareToRender] frame after frame. *)
Fixpoint prepareToRenderFrames (object : ObjectRenderer)
    (pitchTransformScratch : mat4) (frames : list Frame)
  : option (ObjectRenderer * mat4) :=
  match frames with
  | [] => Some (object, pitchTransformScratch)
  | (deltaTime, random) :: rest =>
      match prepareToRender object deltaTime random pitchTransformScratch with
      | Some (object, pitchTransformScratch) =>
          prepareToRenderFrames object pitchTransformScratch rest
      | None => None
      end
  end.

End PrepareToRender.

(** ** [setVisible] and [setActiveAreaNo] *)

(** [setVisible] assigns no field of the object: it calls
    [modelInstance[i].setVisible (visible)] for each sub-model.  The result
    is the list of the arguments of these calls, in the order of the
    sub-models. *)
Definition setVisible (object : ObjectRenderer) (visible : bool) : list bool :=
  map (fun _ : Inst.t => visible) (modelInstance object).

Definition setActiveAreaNo (object : ObjectRenderer) (areaNo : Z) : list bool :=
  let visible :=
    (areaNo >=? Spawn.dispOnAreaNo (objectSpawn object))%Z
    && ((areaNo <? Spawn.dispOffAreaNo (objectSpawn object))%Z
        || (Spawn.dispOffAreaNo (objectSpawn object) =? -1)%Z) in
  setVisible object visible.

(** The flag [setActiveAreaNo] passes on for an area. *)
Definition shownInArea (object : ObjectRenderer) (areaNo : Z) : bool :=
  (areaNo >=? Spawn.dispOnAreaNo (objectSpawn object))%Z
  && ((areaNo <? Spawn.dispOffAreaNo (objectSpawn object))%Z
      || (Spawn.dispOffAreaNo (objectSpawn object) =? -1)%Z).

(** ** Runs *)

(** [targetNextPoint] called [k] times. *)
Fixpoint targetNextPointTimes (k : nat) (motion : MotionState) (yOffset : R)
  : MotionState :=
  match k with
  | O => motion
  | S k' => targetNextPoint (targetNextPointTimes k' motion yOffset) yOffset
  end.

(** [followPath] over successive frames with the given time steps. *)
Fixpoint followPathFrames (object : ObjectRenderer) (motion : MotionState)
    (pitchTransformScratch : mat4) (steps : list R) : MotionState * mat4 :=
  match steps with
  | [] => (motion, pitchTransformScratch)
  | dt :: rest =>
      let r := followPath object dt motion pitchTransformScratch in
      followPathFrames object (snd (fst r)) (snd r) rest
  end.

(** ** Notions the statements use *)

(** The sub-models an animation function turns. *)
Definition rotatedInstances (f : AnimFunc) (object : ObjectRenderer)
  : list nat :=
  match f with
  | Anim_HUKUBIKI_C | Anim_COMPASS_A | Anim_WINDMILL01_G => [1%nat]
  | Anim_PLANE02_F => [1%nat; 2%nat]
  | Anim_PLANE03_F => [0%nat; 2%nat]
  | Anim_vehicle =>
      match motionState object with
      | Some _ => [1%nat; 2%nat]
      | None => []
      end
  end.

(** [object'] is [object] with some of the sub-models [indices] turned:
    nothing else has changed, and no sub-model has moved. *)
Definition turned_only (indices : list nat) (object object' : ObjectRenderer)
  : Prop :=
  objectSpawn object' = objectSpawn object
  /\ bbox object' = bbox object
  /\ visible object' = visible object
  /\ animFunc object' = animFunc object
  /\ motionFunc object' = motionFunc object
  /\ motionState object' = motionState object
  /\ length (modelInstance object') = length (modelInstance object)
  /\ forall (i : nat) (inst : Inst.t),
       nth_error (modelInstance object) i = Some inst ->
       exists inst' : Inst.t,
         nth_error (modelInstance object') i = Some inst'
         /\ mat4_getTranslation (Inst.modelMatrix inst')
            = mat4_getTranslation (Inst.modelMatrix inst)
         /\ Inst.translation inst' = Inst.translation inst
         /\ Inst.bbox inst' = Inst.bbox inst
         /\ (~ In i indices -> inst' = inst).

(** Whether a motion function asks for the matrices to be rebuilt. *)
Definition rebuilds (f : MotionFunc) : bool :=
  match f with
  | Motion_miscBob | Motion_miscWhackAMole => false
  | _ => true
  end.

(** The sub-models the animation function of an object turns. *)
Definition animatedInstances (object : ObjectRenderer) : list nat :=
  match animFunc object with
  | Some f => rotatedInstances f object
  | None => []
  end.

(** What a frame keeps of an object: what it was made from, its functions,
    and the rest pose and the bounding box of each sub-model. *)
Definition frame_kept (object object' : ObjectRenderer) : Prop :=
  objectSpawn object' = objectSpawn object
  /\ bbox object' = bbox object
  /\ visible object' = visible object
  /\ animFunc object' = animFunc object
  /\ motionFunc object' = motionFunc object
  /\ (motionState object' = None <-> motionState object = None)
  /\ length (modelInstance object') = length (modelInstance object)
  /\ map Inst.translation (modelInstance object')
     = map Inst.translation (modelInstance object)
  /\ map Inst.bbox (modelInstance object')
     = map Inst.bbox (modelInstance object).


(** ** More objects the theorems are tried on *)

(** A windmill with its mast and its sails. *)
Definition windmill : ObjectRenderer :=
  set_modelInstance
    [Inst.mk mat4_identity vec3_create vec3_create carBox;
     Inst.mk (mat4_fromTranslation (Vec3 0 3 0)) vec3_create (Vec3 0 3 0)
       carBox]
    (newObjectRenderer (Spawn.mk ObjectId.WINDMILL01_G mat4_identity 0 (-1))
       carBox (Def.mk (-1) true) None).

(** A function of the type of [computeModelMatrixSRT] to try the theorems
    on: the translation alone. *)
Definition translationOnly (dst : mat4) (sx sy sz rx ry rz tx ty tz : R)
  : mat4 :=
  mat4_fromTranslation (Vec3 tx ty tz).

(** A top that spins: one sub-model. *)
Definition top : ObjectRenderer :=
  set_modelInstance
    [Inst.mk mat4_identity vec3_create (Vec3 0 (1 / 2) 0) carBox]
    (newObjectRenderer (Spawn.mk 0 mat4_identity 0 (-1)) carBox
       (Def.mk 0 true) (Some (Params.mk MotionID.MISC 0x15 1 []))).

(** A balance doll that sways; it has no sub-model. *)
Definition balanceDoll : ObjectRenderer :=
  newObjectRenderer (Spawn.mk ObjectId.BALANCEDOLL01_C mat4_identity 0 (-1))
    carBox (Def.mk 0 true) (Some (Params.mk MotionID.MISC 0x20 1 [])).

Definition balanceDollMotion : MotionState :=
  newMotionState (Spawn.mk ObjectId.BALANCEDOLL01_C mat4_identity 0 (-1))
    (Def.mk 0 true) (Params.mk MotionID.MISC 0x20 1 []).

(** * The data fetcher

    A shallow embedding of the classes of [src/fetch.ts].  The fetcher is a
    state, and its methods and the handlers it gives to its XMLHttpRequests
    are functions from the state to the new state and to the list of what
    they do to the outside: the requests they send and abort, the values
    they give to the progress meter, the promises they resolve.  A handler
    is called for the request at an index of [requests]; in the source it
    is bound to the request object, which [indexOf] finds at that index.
    The functions [downloadHref], [downloadBlob], [downloadBufferSlice] and
    [downloadBuffer], which only drive the browser, are not modelled. *)

Module Fetch.

Import String.

(** [IS_DEVELOPMENT] of BuildVersion is an argument: [dev]. *)
Definition getDataStorageBaseURL (dev : bool) : string :=
  (if dev then "/data" else "https://noclip.beyond3d.com")%string.

(** [assert] throws when its argument is false: [None]. *)
Definition getDataURLForPath (dev : bool) (url : string) : option string :=
  if prefix "data/" url then None
  else Some (getDataStorageBaseURL dev ++ "/" ++ url)%string.

(** An XMLHttpRequest that has been sent. *)
Inductive XMLHttpRequest : Type := Sent.

(** [DataFetcherRequest].  [ondone] and [onprogress] are not fields here:
    [fetchData], the only place that makes a request, sets both before the
    request can be started.  The promise of a request is known by the
    request. *)
Record DataFetcherRequest : Type := mkRequest {
  url : string;
  request : option XMLHttpRequest;
  progress : R
}.

(** What the fetcher does to the outside. *)
Inductive Effect : Type :=
| Send (url : string)
| AbortRequest (url : string)
| SetProgress (value : option R)
| Resolve (name : string)
| ConsoleError (url : string).

Record DataFetcher : Type := mk {
  requests : list DataFetcherRequest;
  doneRequestCount : Z;
  maxParallelRequests : Z;
  aborted : bool
}.

Definition set_requests (l : list DataFetcherRequest) (f : DataFetcher)
  : DataFetcher :=
  mk l (doneRequestCount f) (maxParallelRequests f) (aborted f).

(** [new DataFetcher (abortSignal, progressMeter)]. *)
Definition newDataFetcher : DataFetcher := mk [] 0 2 false.

(** [DataFetcherRequest.start]: the request is opened and sent. *)
Definition start (r : DataFetcherRequest) : DataFetcherRequest * list Effect :=
  (mkRequest (url r) (Some Sent) (progress r), [Send (url r)]).

(** [DataFetcherRequest.destroy]. *)
Definition destroy (r : DataFetcherRequest) : DataFetcherRequest :=
  mkRequest (url r) None (progress r).

(** [DataFetcherRequest.abort]. *)
Definition abort (r : DataFetcherRequest) : DataFetcherRequest * list Effect :=
  (destroy r,
   match request r with
   | Some _ => [AbortRequest (url r)]
   | None => []
   end).

(** [calcProgress].  A division by 0 gives NaN or an infinity in
    JavaScript, which no real number stands for: [None].  With no request
    in the list and none done the division is 0 / 0. *)
Definition calcProgress (f : DataFetcher) : option R :=
  let n := fold_left (fun n r => n + progress r) (requests f) 0 in
  let n := n + IZR (doneRequestCount f) in
  let d :=
    IZR (Z.of_nat (List.length (requests f))) + IZR (doneRequestCount f) in
  if Reqb d 0 then None else Some (n / d).

(** [setProgress]. *)
Definition setProgress (f : DataFetcher) : list Effect :=
  [SetProgress (calcProgress f)].

(** The loop of [pump] over the first [k] requests. *)
Fixpoint pump_loop (k : nat) (rs : list DataFetcherRequest)
  : list DataFetcherRequest * list Effect :=
  match k, rs with
  | S k', r :: rest =>
      let '(r, e) :=
        match request r with
        | None => start r
        | Some _ => (r, [])
        end in
      let '(rest, es) := pump_loop k' rest in
      (r :: rest, e ++ es)
  | _, _ => (rs, [])
  end.

Definition pump (f : DataFetcher) : DataFetcher * list Effect :=
  let k :=
    Z.to_nat (Z.min (Z.of_nat (List.length (requests f)))
                (maxParallelRequests f)) in
  let '(rs, es) := pump_loop k (requests f) in
  (set_requests rs f, es).

(** The two errors [fetchData] can throw. *)
Inductive Failure : Type :=
| TriedToFetchWhileAborted
| AssertionFailed.

Definition fetchData (dev : bool) (path : string) (f : DataFetcher)
  : Failure + DataFetcher * list Effect :=
  if aborted f then inl TriedToFetchWhileAborted
  else
    match getDataURLForPath dev path with
    | None => inl AssertionFailed
    | Some url =>
        let request := mkRequest url None 0 in
        let f := set_requests (requests f ++ [request]) f in
        inr (pump f)
    end.

(** [array.splice (i, 1)]. *)
Definition splice1 {A : Type} (l : list A) (i : nat) : list A :=
  firstn i l ++ skipn (S i) l.

(** The [ondone] that [fetchData] gives a request, for the request at the
    index [i]. *)
Definition ondone (i : nat) (f : DataFetcher) : DataFetcher * list Effect :=
  let f :=
    mk (requests f) (doneRequestCount f + 1) (maxParallelRequests f)
      (aborted f) in
  let f :=
    match nth_error (requests f) i with
    | Some r => set_requests (list_set (requests f) i (destroy r)) f
    | None => f
    end in
  let f := set_requests (splice1 (requests f) i) f in
  pump f.

(** The handlers [start] gives to the XMLHttpRequest of a request, for the
    request at the index [i].  [None]: the list has no request at [i] that
    has been sent, and no handler to call. *)
Definition onload (i : nat) (f : DataFetcher)
  : option (DataFetcher * list Effect) :=
  match nth_error (requests f) i with
  | Some r =>
      match request r with
      | Some _ =>
          let r := mkRequest (url r) (request r) 1 in
          let f := set_requests (list_set (requests f) i r) f in
          let e1 := setProgress f in
          let '(f, e2) := ondone i f in
          Some (f, e1 ++ e2 ++ [Resolve (url r)])
      | None => None
      end
  | None => None
  end.

Definition onerror (i : nat) (f : DataFetcher)
  : option (DataFetcher * list Effect) :=
  match nth_error (requests f) i with
  | Some r =>
      match request r with
      | Some _ => Some (f, [ConsoleError (url r)])
      | None => None
      end
  | None => None
  end.

(** [e.lengthComputable], [e.loaded] and [e.total] are arguments. *)
Definition onprogress (i : nat) (lengthComputable : bool) (loaded total : R)
    (f : DataFetcher) : option (DataFetcher * list Effect) :=
  match nth_error (requests f) i with
  | Some r =>
      match request r with
      | Some _ =>
          let r :=
            if lengthComputable
            then mkRequest (url r) (request r) (loaded / total)
            else r in
          let f := set_requests (list_set (requests f) i r) f in
          Some (f, setProgress f)
      | None => None
      end
  | None => None
  end.

(** The listener the constructor gives to the abort signal. *)
Definition onabort (f : DataFetcher) : DataFetcher * list Effect :=
  let f :=
    mk (requests f) (doneRequestCount f) (maxParallelRequests f) true in
  let es := flat_map (fun r => snd (abort r)) (requests f) in
  (set_requests [] f, es).

(** [waitForLoad]: the promises [Promise.all] waits for, by the names of
    their requests. *)
Definition waitForLoad (f : DataFetcher) : list string :=
  map url (requests f).

(** What can happen to a fetcher. *)
Inductive Event : Type :=
| FetchData (path : string)
| Load (i : nat)
| Progress (i : nat) (lengthComputable : bool) (loaded total : R)
| Error (i : nat)
| AbortSignal.

(** [None]: [fetchData] throws, or the event has no handler to call. *)
Definition step (dev : bool) (f : DataFetcher) (e : Event)
  : option (DataFetcher * list Effect) :=
  match e with
  | FetchData path =>
      match fetchData dev path f with
      | inr r => Some r
      | inl _ => None
      end
  | Load i => onload i f
  | Progress i lengthComputable loaded total =>
      onprogress i lengthComputable loaded total f
  | Error i => onerror i f
  | AbortSignal => Some (onabort f)
  end.

Fixpoint run (dev : bool) (f : DataFetcher) (events : list Event)
  : option (DataFetcher * list Effect) :=
  match events with
  | [] => Some (f, [])
  | e :: rest =>
      match step dev f e with
      | Some (f, es) =>
          match run dev f rest with
          | Some (f, es') => Some (f, es ++ es')
          | None => None
          end
      | None => None
      end
  end.

(** ** Notions the statements use *)

(** The beginning [getDataURLForPath] refuses. *)
Definition dataDirectory : string := "data/".

(** The request has been sent and has not come back. *)
Definition inFlight (r : DataFetcherRequest) : bool :=
  match request r with
  | Some _ => true
  | None => false
  end.

(** The first [maxParallelRequests] requests of the list, and no other, are
    in flight. *)
Definition pumped (f : DataFetcher) : Prop :=
  forall (i : nat) (r : DataFetcherRequest),
    nth_error (requests f) i = Some r ->
    (inFlight r = true <-> (Z.of_nat i < maxParallelRequests f)%Z).

(** No request beyond the first [maxParallelRequests] is in flight. *)
Definition queued (f : DataFetcher) : Prop :=
  forall (i : nat) (r : DataFetcherRequest),
    nth_error (requests f) i = Some r ->
    (maxParallelRequests f <= Z.of_nat i)%Z -> inFlight r = false.

Definition isFetchData (e : Event) : bool :=
  match e with
  | FetchData _ => true
  | _ => false
  end.

Definition isLoad (e : Event) : bool :=
  match e with
  | Load _ => true
  | _ => false
  end.

Definition isAbortSignal (e : Event) : bool :=
  match e with
  | AbortSignal => true
  | _ => false
  end.

Definition isSend (e : Effect) : bool :=
  match e with
  | Send _ => true
  | _ => false
  end.

Definition isResolve (e : Effect) : bool :=
  match e with
  | Resolve _ => true
  | _ => false
  end.

(** The addresses of the requests sent, in the order they were sent. *)
Definition sent (effects : list Effect) : list string :=
  flat_map (fun e => match e with Send u => [u] | _ => [] end) effects.

(** The addresses [fetchData] was called for, in the order of the calls. *)
Definition fetched (dev : bool) (events : list Event) : list string :=
  flat_map
    (fun e =>
       match e with
       | FetchData path =>
           match getDataURLForPath dev path with
           | Some u => [u]
           | None => []
           end
       | _ => []
       end) events.

(** The addresses of the requests of the list that have not been sent, in
    the order of the list. *)
Definition waiting (f : DataFetcher) : list string :=
  map url (filter (fun r => negb (inFlight r)) (requests f)).

(** A progress event as the browser gives it: when the length is
    computable, [0 <= loaded <= total] and [total] is not 0. *)
Definition wellFormed (e : Event) : Prop :=
  match e with
  | Progress _ true loaded total => 0 <= loaded <= total /\ 0 < total
  | _ => True
  end.

(** The progress of every request is a fraction, and the count of the
    requests done is not negative. *)
Definition fractions (f : DataFetcher) : Prop :=
  Forall (fun p => 0 <= p <= 1) (map progress (requests f))
  /\ (0 <= doneRequestCount f)%Z.

(** A fetcher with three requests, two of them in flight. *)
Definition threeRequests : DataFetcher :=
  mk [mkRequest "/data/a" (Some Sent) 0;
      mkRequest "/data/b" (Some Sent) 0;
      mkRequest "/data/c" None 0] 0 2 false.

End Fetch.

(** The state [ondone] gives to [pump]. *)
Definition done_state (i : nat) (f : Fetch.DataFetcher) : Fetch.DataFetcher :=
  Fetch.mk (Fetch.splice1 (Fetch.requests f) i)
    (Fetch.doneRequestCount f + 1) (Fetch.maxParallelRequests f)
    (Fetch.aborted f).

(** * Proofs *)

(** ** Comparisons of numbers *)

Lemma Rltb_true (a b : R) : Rltb a b = true <-> a < b.
Proof. unfold Rltb. destruct (Rlt_dec a b); split; intros; easy. Qed.

Lemma Rltb_false (a b : R) : Rltb a b = false <-> b <= a.
Proof.
  unfold Rltb. destruct (Rlt_dec a b); split; intros; try easy; lra.
Qed.

Lemma Rleb_true (a b : R) : Rleb a b = true <-> a <= b.
Proof. unfold Rleb. destruct (Rle_dec a b); split; intros; easy. Qed.

Lemma Rleb_false (a b : R) : Rleb a b = false <-> b < a.
Proof.
  unfold Rleb. destruct (Rle_dec a b); split; intros; try easy; lra.
Qed.

Lemma Reqb_true (a b : R) : Reqb a b = true <-> a = b.
Proof. unfold Reqb. destruct (Req_dec_T a b); split; intros; easy. Qed.

Lemma Reqb_false (a b : R) : Reqb a b = false <-> a <> b.
Proof. unfold Reqb. destruct (Req_dec_T a b); split; intros; easy. Qed.

Lemma Reqb_refl (a : R) : Reqb a a = true.
Proof. now apply Reqb_true. Qed.

(** Case analysis on every comparison of numbers in the goal. *)
Ltac rcases :=
  repeat match goal with
  | |- context [Rltb ?a ?b] =>
      let H := fresh "Hlt" in
      destruct (Rltb a b) eqn:H;
      [apply Rltb_true in H | apply Rltb_false in H]
  | |- context [Rleb ?a ?b] =>
      let H := fresh "Hle" in
      destruct (Rleb a b) eqn:H;
      [apply Rleb_true in H | apply Rleb_false in H]
  | |- context [Reqb ?a ?b] =>
      let H := fresh "Heq" in
      destruct (Reqb a b) eqn:H;
      [apply Reqb_true in H | apply Reqb_false in H]
  end.

Lemma Math_sign_pos (x : R) : 0 < x -> Math_sign x = 1.
Proof. intros. unfold Math_sign. rcases; lra. Qed.

Lemma Math_sign_neg (x : R) : x < 0 -> Math_sign x = -1.
Proof. intros. unfold Math_sign. rcases; lra. Qed.

Lemma Math_sign_0 : Math_sign 0 = 0.
Proof. unfold Math_sign. rcases; lra. Qed.

Lemma Math_hypot3_lt (a b c a' b' c' : R) :
  a * a + b * b + c * c < a' * a' + b' * b' + c' * c' ->
  Math_hypot3 a b c < Math_hypot3 a' b' c'.
Proof. intros H. unfold Math_hypot3. apply sqrt_lt_1; nra. Qed.

Lemma Math_hypot3_eq (a b c d : R) :
  0 <= d -> a * a + b * b + c * c = d * d -> Math_hypot3 a b c = d.
Proof.
  intros Hd H. unfold Math_hypot3. rewrite H. now apply sqrt_square.
Qed.

(** ** Which motion functions ask for a rebuild *)

(** C8. Bob and whack-a-mole return [false] and the path follower, spin,
    flip and sway return [true], whatever the object, the time step and the
    motion state.  Sway and whack-a-mole read the bounding box of the
    object's first sub-model: they return for every object that has one, and
    the only other outcome is the TypeError on an object without any
    sub-model. *)
Theorem motion_functions_rebuild_flag :
  forall (object : ObjectRenderer) (deltaTimeInFrames : R)
         (motion : MotionState) (scratch : mat4) (random : R),
    fst (fst (followPath object deltaTimeInFrames motion scratch)) = true
    /\ fst (miscSpinMotionFunc object deltaTimeInFrames motion) = true
    /\ fst (miscFlipMotionFunc object deltaTimeInFrames motion) = true
    /\ fst (miscBobMotionFunc object deltaTimeInFrames motion random) = false
    /\ match miscSwayMotionFunc object deltaTimeInFrames motion with
       | Some (rebuild, _) => rebuild = true
       | None => modelInstance object = []
       end
    /\ match miscWhackAMoleMotionFunc object deltaTimeInFrames motion random
       with
       | Some (rebuild, _) => rebuild = false
       | None => modelInstance object = []
       end.
Proof.
  intros object dt motion scratch random.
  repeat split.
  - unfold followPath.
    destruct (adjustPitch _); [destruct (adjustBasePitch _ _ _) |];
      reflexivity.
  - unfold miscSwayMotionFunc.
    destruct (negb _); [| reflexivity].
    destruct (modelInstance object); reflexivity.
  - unfold miscWhackAMoleMotionFunc.
    destruct (Rltb _ dt) eqn:E; rewrite ?E.
    + destruct (modelInstance object); reflexivity.
    + reflexivity.
Qed.

(** ** The vehicle animation *)

(** C9. For an object whose identifier selects the shared vehicle animation
    and that has no motion state, the animation function returns with the
    object as it was: no sub-model's matrix or stored Euler angles change. *)
Theorem vehicleAnimFunc_noop_without_motion :
  forall (object : ObjectRenderer) (deltaTimeInFrames : R),
    animFuncSelect (Spawn.objectId (objectSpawn object)) = Some Anim_vehicle ->
    motionState object = None ->
    callAnimFunc Anim_vehicle object deltaTimeInFrames = Some object
    /\ forall object',
         vehicleAnimFunc object deltaTimeInFrames = Some object' ->
         map Inst.modelMatrix (modelInstance object')
           = map Inst.modelMatrix (modelInstance object)
         /\ map Inst.euler (modelInstance object')
           = map Inst.euler (modelInstance object).
Proof.
  intros object dt _ Hnone.
  assert (H : vehicleAnimFunc object dt = Some object).
  { unfold vehicleAnimFunc. now rewrite Hnone. }
  split; [exact H |].
  intros object' H'. rewrite H in H'. injection H' as <-. now split.
Qed.

(** ** Whack-a-mole: the start of a cycle *)


(** C10. Entered with [timer = -1] and a random number in [0, 1), the
    whack-a-mole function starts a cycle: the timer is set to a value in
    [60, 210), [angle] to PI/2, [angleStep] to PI/45, and [state] to the
    remainder of [state + 1] by 2, which turns 0 into 1 and 1 (or the
    initial -1) into 0.  With a time step of at most two frames the rest of
    the call only counts the new timer down. *)
Theorem whackAMole_restart_values :
  forall (object : ObjectRenderer) (deltaTimeInFrames : R)
         (motion : MotionState) (random : R),
    timer motion = -1 ->
    0 <= random < 1 ->
    0 <= deltaTimeInFrames <= 2 ->
    let restarted := miscWhackAMole_restart motion random in
    60 <= timer restarted < 210
    /\ angle restarted = PI / 2
    /\ angleStep restarted = PI / 45
    /\ state restarted = Z.rem (state motion + 1) 2
    /\ ((-1 <= state motion)%Z ->
        state restarted = ((state motion + 1) mod 2)%Z)
    /\ (state motion = 0%Z -> state restarted = 1%Z)
    /\ (state motion = 1%Z \/ state motion = (-1)%Z -> state restarted = 0%Z)
    /\ miscWhackAMoleMotionFunc object deltaTimeInFrames motion random
       = Some (false,
               set_timer (timer restarted - deltaTimeInFrames) restarted).
Proof.
  intros object dt motion random Ht Hr Hdt restarted.
  assert (Htimer : timer restarted = random * 150 + 60) by reflexivity.
  assert (Hstate : state restarted = Z.rem (state motion + 1) 2)
    by reflexivity.
  repeat split; try reflexivity.
  - rewrite Htimer. lra.
  - rewrite Htimer. lra.
  - intros Hs. rewrite Hstate. apply Z.rem_mod_nonneg; lia.
  - intros Hs. rewrite Hstate, Hs. reflexivity.
  - intros [Hs | Hs]; rewrite Hstate, Hs; reflexivity.
  - unfold miscWhackAMoleMotionFunc.
    rewrite Ht, Reqb_refl. fold restarted.
    assert (Hcmp : Rltb (timer restarted) dt = false).
    { apply Rltb_false. rewrite Htimer. lra. }
    rewrite Hcmp. reflexivity.
Qed.

(** The claim's theorem at the state a new object starts in. *)
Lemma whackAMole_restart_values_witness :
  let object :=
    newObjectRenderer (Spawn.mk 0 mat4_identity 0 (-1)) (mkAABB 0 1)
      (Def.mk 0 false) (Some (Params.mk MotionID.MISC 0x22 1 [])) in
  let motion :=
    newMotionState (Spawn.mk 0 mat4_identity 0 (-1)) (Def.mk 0 false)
      (Params.mk MotionID.MISC 0x22 1 []) in
  timer motion = -1
  /\ 60 <= timer (miscWhackAMole_restart motion (1 / 2)) < 210
  /\ state (miscWhackAMole_restart motion (1 / 2)) = 0%Z.
Proof.
  intros object motion.
  assert (Ht : timer motion = -1) by reflexivity.
  assert (Hr : 0 <= 1 / 2 < 1) by lra.
  assert (Hd : 0 <= 1 <= 2) by lra.
  pose proof (whackAMole_restart_values object 1 motion (1 / 2) Ht Hr Hd)
    as (Htimer & _ & _ & _ & _ & _ & Hstate & _).
  split; [exact Ht |].
  split; [exact Htimer |].
  apply Hstate. right. reflexivity.
Defined.

(** ** What [targetNextPoint] writes *)

(** Unfolding of the functions that assign fields, and nothing else. *)
Ltac motion_reduce :=
  cbv beta iota zeta delta
    [targetNextPoint_waypoint targetNextPoint_yaw targetNextPoint_pitch
     nextIndex pathLength
     set_pos set_target set_velocity set_pathIndex set_euler set_eulerStep
     set_eulerTarget set_angle set_angleStep set_angleTarget set_base
     set_reference set_axis set_timer set_state
     parameters pos target velocity adjustPitch pathIndex speed euler
     eulerStep eulerTarget angle angleStep angleTarget base reference final
     axis timer state].

Lemma targetNextPoint_waypoint_fields (motion : MotionState) (yOffset : R) :
  let next := targetNextPoint_waypoint motion yOffset in
  pathIndex next = nextIndex motion
  /\ pos next = target motion
  /\ target next
     = (let p := pathPoint (Params.pathPoints (parameters motion))
                   (nextIndex motion) in
        vec3_set_e1 (e1 p - yOffset) p)
  /\ velocity next = vec3_sub (target next) (pos next)
  /\ parameters next = parameters motion
  /\ speed next = speed motion
  /\ adjustPitch next = adjustPitch motion
  /\ final next = final motion.
Proof.
  destruct motion as [pa po ta ve ap pidx sp eu es et an ans ant ba re fi ax
                        ti st].
  motion_reduce.
  destruct ((pidx + 1) * 4 =? Float32Array_length (Params.pathPoints pa))%Z;
    repeat split; reflexivity.
Qed.

Lemma targetNextPoint_yaw_fields (motion : MotionState) (d : R)
    (pathScratch : vec3) :
  let next := targetNextPoint_yaw motion d pathScratch in
  pathIndex next = pathIndex motion
  /\ pos next = pos motion
  /\ target next = target motion
  /\ velocity next = velocity motion
  /\ parameters next = parameters motion
  /\ speed next = speed motion
  /\ adjustPitch next = adjustPitch motion
  /\ e1 (euler next) = Math_atan2 (e0 pathScratch) (e2 pathScratch)
  /\ e1 (eulerTarget next)
     = PI + Math_atan2 (e0 (velocity motion)) (e2 (velocity motion))
  /\ e1 (eulerStep next)
     = angleDist (e1 (euler next)) (e1 (eulerTarget next))
       / framesUntilYaw d (speed motion).
Proof.
  destruct motion as [pa po ta ve ap pidx sp eu es et an ans ant ba re fi ax
                        ti st].
  motion_reduce. repeat split; reflexivity.
Qed.

Lemma targetNextPoint_pitch_fields (motion : MotionState) (d : R)
    (pathScratch : vec3) :
  let next := targetNextPoint_pitch motion d pathScratch in
  pathIndex next = pathIndex motion
  /\ pos next = pos motion
  /\ target next = target motion
  /\ parameters next = parameters motion
  /\ speed next = speed motion
  /\ adjustPitch next = adjustPitch motion
  /\ euler next = euler motion
  /\ eulerStep next = eulerStep motion
  /\ eulerTarget next = eulerTarget motion
  /\ angleStep next = angleTarget next / framesUntilPitch d (speed motion)
  /\ angle next = 0.
Proof.
  destruct motion as [pa po ta ve ap pidx sp eu es et an ans ant ba re fi ax
                        ti st].
  motion_reduce.
  match goal with
  | |- context [if Rltb ?a ?b then _ else _] => destruct (Rltb a b)
  end; repeat split; reflexivity.
Qed.

(** [targetNextPoint] as its parts, one after the other. *)
Lemma targetNextPoint_eq (motion : MotionState) (yOffset : R) :
  targetNextPoint motion yOffset
  = let moved := targetNextPoint_waypoint motion yOffset in
    let distToTarget := distToTarget_of motion yOffset in
    let pathScratch := getMatrixAxisZ (final moved) in
    let turned := targetNextPoint_yaw moved distToTarget pathScratch in
    let pitched :=
      if adjustPitch turned
      then targetNextPoint_pitch turned distToTarget pathScratch
      else turned in
    set_velocity (normToLength (velocity pitched) (speed pitched)) pitched.
Proof. unfold targetNextPoint, distToTarget_of. reflexivity. Qed.

Lemma targetNextPoint_fields (motion : MotionState) (yOffset : R) :
  let next := targetNextPoint motion yOffset in
  let d := distToTarget_of motion yOffset in
  pathIndex next = nextIndex motion
  /\ pos next = target motion
  /\ target next
     = (let p := pathPoint (Params.pathPoints (parameters motion))
                   (nextIndex motion) in
        vec3_set_e1 (e1 p - yOffset) p)
  /\ parameters next = parameters motion
  /\ speed next = speed motion
  /\ adjustPitch next = adjustPitch motion
  /\ e1 (euler next) = Math_atan2 (m8 (final motion)) (m10 (final motion))
  /\ e1 (eulerTarget next)
     = PI + Math_atan2 (e0 (target next) - e0 (pos next))
              (e2 (target next) - e2 (pos next))
  /\ e1 (eulerStep next)
     = angleDist (e1 (euler next)) (e1 (eulerTarget next))
       / framesUntilYaw d (speed motion)
  /\ d = vec3_length (vec3_sub (target next) (pos next))
  /\ (adjustPitch motion = true ->
      angleStep next = angleTarget next / framesUntilPitch d (speed motion)
      /\ angle next = 0)
  /\ (adjustPitch motion = false ->
      velocity next
      = normToLength (vec3_sub (target next) (pos next)) (speed motion)).
Proof.
  cbv zeta. rewrite targetNextPoint_eq. cbv zeta.
  assert (Hd : distToTarget_of motion yOffset
               = vec3_length
                   (velocity (targetNextPoint_waypoint motion yOffset)))
    by reflexivity.
  destruct (targetNextPoint_waypoint_fields motion yOffset)
    as (Wi & Wp & Wt & Wv & Wpa & Ws & Wa & Wf).
  cbv zeta in Wi, Wp, Wt, Wv, Wpa, Ws, Wa, Wf.
  revert Hd Wi Wp Wt Wv Wpa Ws Wa Wf.
  generalize (distToTarget_of motion yOffset) as d.
  generalize (targetNextPoint_waypoint motion yOffset) as moved.
  intros moved d Hd Wi Wp Wt Wv Wpa Ws Wa Wf.
  destruct (targetNextPoint_yaw_fields moved d (getMatrixAxisZ (final moved)))
    as (Yi & Yp & Yt & Yv & Ypa & Ys & Ya & Ye & Yet & Yes).
  cbv zeta in Yi, Yp, Yt, Yv, Ypa, Ys, Ya, Ye, Yet, Yes.
  pose proof (targetNextPoint_pitch_fields
                (targetNextPoint_yaw moved d (getMatrixAxisZ (final moved)))
                d (getMatrixAxisZ (final moved))) as Hpitch.
  cbv zeta in Hpitch.
  revert Yi Yp Yt Yv Ypa Ys Ya Ye Yet Yes Hpitch.
  generalize (targetNextPoint_yaw moved d (getMatrixAxisZ (final moved)))
    as turned.
  intros turned Yi Yp Yt Yv Ypa Ys Ya Ye Yet Yes Hpitch.
  set (pitched :=
         if adjustPitch turned
         then targetNextPoint_pitch turned d (getMatrixAxisZ (final moved))
         else turned).
  assert (Hfields :
            pathIndex pitched = pathIndex turned
            /\ pos pitched = pos turned
            /\ target pitched = target turned
            /\ parameters pitched = parameters turned
            /\ speed pitched = speed turned
            /\ adjustPitch pitched = adjustPitch turned
            /\ euler pitched = euler turned
            /\ eulerStep pitched = eulerStep turned
            /\ eulerTarget pitched = eulerTarget turned
            /\ (adjustPitch turned = true ->
                angleStep pitched
                = angleTarget pitched / framesUntilPitch d (speed turned)
                /\ angle pitched = 0)
            /\ (adjustPitch turned = false -> pitched = turned)).
  { unfold pitched. destruct (adjustPitch turned) eqn:Eturned.
    - destruct Hpitch as (Pi & Pp & Pt & Ppa & Ps & Pa & Pe & Pes & Pet
                          & Pas & Pan).
      repeat split; try assumption; congruence.
    - repeat split; try reflexivity; congruence. }
  clearbody pitched. clear Hpitch.
  destruct Hfields as (Pi & Pp & Pt & Ppa & Ps & Pa & Pe & Pes & Pet & Pas
                       & Psame).
  change (pathIndex (set_velocity ?v ?m)) with (pathIndex m).
  change (pos (set_velocity ?v ?m)) with (pos m).
  change (target (set_velocity ?v ?m)) with (target m).
  change (parameters (set_velocity ?v ?m)) with (parameters m).
  change (speed (set_velocity ?v ?m)) with (speed m).
  change (adjustPitch (set_velocity ?v ?m)) with (adjustPitch m).
  change (euler (set_velocity ?v ?m)) with (euler m).
  change (eulerStep (set_velocity ?v ?m)) with (eulerStep m).
  change (eulerTarget (set_velocity ?v ?m)) with (eulerTarget m).
  change (angleStep (set_velocity ?v ?m)) with (angleStep m).
  change (angleTarget (set_velocity ?v ?m)) with (angleTarget m).
  change (angle (set_velocity ?v ?m)) with (angle m).
  change (velocity (set_velocity ?v ?m)) with v.
  assert (Hap : adjustPitch turned = adjustPitch motion) by congruence.
  rewrite Ys, Ws in Pas. rewrite Hap in Pas, Psame.
  assert (Hsub : velocity moved
                 = vec3_sub
                     (let p := pathPoint (Params.pathPoints (parameters motion))
                                 (nextIndex motion) in
                      vec3_set_e1 (e1 p - yOffset) p)
                     (target motion)).
  { rewrite Wv, Wt, Wp. reflexivity. }
  repeat split; intros;
    try (rewrite Psame by assumption);
    rewrite ?Pi, ?Pp, ?Pt, ?Ppa, ?Ps, ?Pa, ?Pe, ?Pes, ?Pet;
    rewrite ?Yi, ?Yp, ?Yt, ?Yv, ?Ypa, ?Ys, ?Ya, ?Yes, ?Ye, ?Yet;
    rewrite ?Wi, ?Wp, ?Wt, ?Wpa, ?Ws, ?Wa, ?Wf, ?Hsub;
    try reflexivity.
  - rewrite Hd, Hsub. reflexivity.
  - now apply Pas.
  - now apply Pas.
Qed.

Lemma targetNextPoint_pathIndex (motion : MotionState) (yOffset : R) :
  pathIndex (targetNextPoint motion yOffset) = nextIndex motion.
Proof. apply targetNextPoint_fields. Qed.

Lemma targetNextPoint_pos (motion : MotionState) (yOffset : R) :
  pos (targetNextPoint motion yOffset) = target motion.
Proof. apply targetNextPoint_fields. Qed.

Lemma targetNextPoint_target (motion : MotionState) (yOffset : R) :
  target (targetNextPoint motion yOffset)
  = let p := pathPoint (Params.pathPoints (parameters motion))
               (nextIndex motion) in
    vec3_set_e1 (e1 p - yOffset) p.
Proof. apply targetNextPoint_fields. Qed.

Lemma targetNextPoint_parameters (motion : MotionState) (yOffset : R) :
  parameters (targetNextPoint motion yOffset) = parameters motion.
Proof. apply targetNextPoint_fields. Qed.

Lemma targetNextPoint_speed (motion : MotionState) (yOffset : R) :
  speed (targetNextPoint motion yOffset) = speed motion.
Proof. apply targetNextPoint_fields. Qed.

Lemma targetNextPoint_adjustPitch (motion : MotionState) (yOffset : R) :
  adjustPitch (targetNextPoint motion yOffset) = adjustPitch motion.
Proof. apply targetNextPoint_fields. Qed.

Lemma targetNextPoint_euler (motion : MotionState) (yOffset : R) :
  e1 (euler (targetNextPoint motion yOffset))
  = Math_atan2 (m8 (final motion)) (m10 (final motion)).
Proof. apply targetNextPoint_fields. Qed.

Lemma targetNextPoint_eulerTarget (motion : MotionState) (yOffset : R) :
  let next := targetNextPoint motion yOffset in
  e1 (eulerTarget next)
  = PI + Math_atan2 (e0 (target next) - e0 (pos next))
           (e2 (target next) - e2 (pos next)).
Proof. apply targetNextPoint_fields. Qed.

Lemma targetNextPoint_eulerStep (motion : MotionState) (yOffset : R) :
  let next := targetNextPoint motion yOffset in
  e1 (eulerStep next)
  = angleDist (e1 (euler next)) (e1 (eulerTarget next))
    / framesUntilYaw (distToTarget_of motion yOffset) (speed motion).
Proof. apply targetNextPoint_fields. Qed.

(** [distToTarget] is the distance from the waypoint reached to the next
    target. *)
Lemma distToTarget_of_eq (motion : MotionState) (yOffset : R) :
  let next := targetNextPoint motion yOffset in
  distToTarget_of motion yOffset
  = vec3_length (vec3_sub (target next) (pos next)).
Proof. apply targetNextPoint_fields. Qed.

Lemma targetNextPoint_angleStep (motion : MotionState) (yOffset : R) :
  adjustPitch motion = true ->
  let next := targetNextPoint motion yOffset in
  angleStep next
  = angleTarget next
    / framesUntilPitch (distToTarget_of motion yOffset) (speed motion)
  /\ angle next = 0.
Proof. apply targetNextPoint_fields. Qed.

Lemma targetNextPoint_velocity_level (motion : MotionState) (yOffset : R) :
  adjustPitch motion = false ->
  let next := targetNextPoint motion yOffset in
  velocity next
  = normToLength (vec3_sub (target next) (pos next)) (speed motion).
Proof. apply targetNextPoint_fields. Qed.

(** ** Division by zero in [targetNextPoint] *)

(** C6. With a speed that is not negative and a positive distance to the
    next target, no divisor of the yaw-step and pitch-step computations of
    [targetNextPoint] is zero: at speed 0 the distance is divided by 30 and
    the pitch takes 4 frames, otherwise the divisors are the speed and
    positive numbers of frames. *)
Theorem targetNextPoint_no_division_by_zero :
  forall (motion : MotionState) (yOffset : R),
    0 <= speed motion ->
    0 < distToTarget_of motion yOffset ->
    let next := targetNextPoint motion yOffset in
    let d := distToTarget_of motion yOffset in
    (if Reqb (speed motion) 0 then 30 else speed motion) <> 0
    /\ 0 < framesUntilYaw d (speed motion)
    /\ e1 (eulerStep next)
       = angleDist (e1 (euler next)) (e1 (eulerTarget next))
         / framesUntilYaw d (speed motion)
    /\ (speed motion = 0 ->
        framesUntilYaw d (speed motion) = d / 30
        /\ framesUntilPitch d (speed motion) = 4)
    /\ (speed motion <> 0 ->
        framesUntilYaw d (speed motion) = d / speed motion
        /\ framesUntilPitch d (speed motion) = 25 / 100 * d / speed motion)
    /\ 0 < framesUntilPitch d (speed motion)
    /\ (adjustPitch motion = true ->
        angleStep next = angleTarget next / framesUntilPitch d (speed motion)).
Proof.
  intros motion yOffset Hs Hd next d.
  fold d in Hd.
  assert (Hdivisor : 0 < (if Reqb (speed motion) 0 then 30 else speed motion)).
  { rcases; lra. }
  assert (Hyaw : 0 < framesUntilYaw d (speed motion)).
  { unfold framesUntilYaw. apply Rdiv_lt_0_compat; assumption. }
  assert (Hpitch : 0 < framesUntilPitch d (speed motion)).
  { unfold framesUntilPitch. rcases; [lra |].
    apply Rdiv_lt_0_compat; lra. }
  split; [lra |]. split; [exact Hyaw |].
  split; [apply targetNextPoint_eulerStep |].
  split; [| split; [| split; [exact Hpitch |]]].
  - intros Hzero. unfold framesUntilYaw, framesUntilPitch.
    rewrite (proj2 (Reqb_true _ _) Hzero). split; reflexivity.
  - intros Hmoving. unfold framesUntilYaw, framesUntilPitch.
    rewrite (proj2 (Reqb_false _ _) Hmoving). split; reflexivity.
  - intros Hp. apply (targetNextPoint_angleStep motion yOffset Hp).
Qed.

(** *** An object on a two-point path *)

Lemma standingCar_distToTarget : distToTarget_of standingCar 0 = 5.
Proof.
  rewrite distToTarget_of_eq. cbv zeta.
  rewrite targetNextPoint_pos, targetNextPoint_target.
  change (nextIndex standingCar) with 1%Z.
  change (pathPoint (Params.pathPoints (parameters standingCar)) 1)
    with (Vec3 3 0 4).
  change (target standingCar) with (Vec3 0 0 0).
  unfold vec3_length, vec3_sub, vec3_set_e1. cbn [e0 e1 e2].
  apply Math_hypot3_eq; lra.
Qed.

(** The claim's theorem on a car that stands still (speed 0) at the first
    point of [twoPointPath]. *)
Lemma targetNextPoint_no_division_by_zero_witness :
  speed standingCar = 0
  /\ framesUntilYaw (distToTarget_of standingCar 0) (speed standingCar)
     = distToTarget_of standingCar 0 / 30
  /\ 0 < framesUntilPitch (distToTarget_of standingCar 0) (speed standingCar).
Proof.
  assert (Hs : 0 <= speed standingCar).
  { cbn. unfold Rltb. destruct (Rlt_dec (-1) 0); cbn; lra. }
  assert (Hd : 0 < distToTarget_of standingCar 0).
  { rewrite standingCar_distToTarget. lra. }
  assert (H0 : speed standingCar = 0).
  { cbn. unfold Rltb. destruct (Rlt_dec (-1) 0); cbn; lra. }
  pose proof (targetNextPoint_no_division_by_zero standingCar 0 Hs Hd)
    as (_ & _ & _ & Hzero & _ & Hpitch & _).
  split; [exact H0 |].
  split; [exact (proj1 (Hzero H0)) | exact Hpitch].
Defined.

(** ** Rounding to single precision *)

Lemma pow2_pos (e : Z) : 0 < powerRZ 2 e.
Proof. apply powerRZ_lt. lra. Qed.

Lemma pow2_add (a b : Z) : powerRZ 2 (a + b) = powerRZ 2 a * powerRZ 2 b.
Proof. apply powerRZ_add. lra. Qed.

Lemma pow2_le (a b : Z) : (a <= b)%Z -> powerRZ 2 a <= powerRZ 2 b.
Proof.
  intros H. rewrite !powerRZ_Rpower by lra.
  apply Rle_Rpower; [lra | now apply IZR_le].
Qed.

Lemma pow2_lt (a b : Z) : (a < b)%Z -> powerRZ 2 a < powerRZ 2 b.
Proof.
  intros H. rewrite !powerRZ_Rpower by lra.
  apply Rpower_lt; [lra | now apply IZR_lt].
Qed.

Lemma pow2_lt_inv (a b : Z) : powerRZ 2 a < powerRZ 2 b -> (a < b)%Z.
Proof.
  intros H. destruct (Z_lt_le_dec a b) as [Hlt | Hle]; [exact Hlt |].
  apply pow2_le in Hle. lra.
Qed.

Lemma pow2_scale (e : Z) : powerRZ 2 (23 - e) * powerRZ 2 (e - 23) = 1.
Proof. rewrite <- pow2_add. replace (23 - e + (e - 23))%Z with 0%Z by lia. reflexivity. Qed.

Lemma pow2_24 : powerRZ 2 24 = IZR (2 ^ 24).
Proof. change (2 ^ 24)%Z with (Z.pow_pos 2 24). now rewrite Zpower_pos_powerRZ. Qed.

Lemma pow2_23 : powerRZ 2 23 = IZR (2 ^ 23).
Proof. change (2 ^ 23)%Z with (Z.pow_pos 2 23). now rewrite Zpower_pos_powerRZ. Qed.

Lemma pow2_pos_IZR (p : positive) :
  powerRZ 2 (Z.pos p) = IZR (Z.pow_pos 2 p).
Proof. now rewrite Zpower_pos_powerRZ. Qed.



Lemma ln_2_pos : 0 < ln 2.
Proof. rewrite <- ln_1. apply ln_increasing; lra. Qed.

(** The binade of a positive number. *)
Lemma log2_bounds (a : R) :
  0 < a ->
  let k := Int_part (ln a / ln 2) in
  powerRZ 2 k <= a < powerRZ 2 (k + 1).
Proof.
  intros Ha k.
  pose proof ln_2_pos as H2.
  destruct (base_Int_part (ln a / ln 2)) as [Hlo Hhi]. fold k in Hlo, Hhi.
  assert (Hq : ln a / ln 2 * ln 2 = ln a) by (field; lra).
  assert (Hlo' : IZR k * ln 2 <= ln a) by (rewrite <- Hq; nra).
  assert (Hhi' : ln a < IZR (k + 1) * ln 2)
    by (rewrite plus_IZR, <- Hq; nra).
  rewrite !powerRZ_Rpower by lra. unfold Rpower.
  pose proof (exp_ln a Ha) as Hexp.
  split.
  - destruct Hlo' as [Hlt | Heq].
    + apply exp_increasing in Hlt. lra.
    + rewrite Heq. lra.
  - apply exp_increasing in Hhi'. lra.
Qed.

Lemma log2_unique (a : R) (e : Z) :
  powerRZ 2 e <= a < powerRZ 2 (e + 1) ->
  Int_part (ln a / ln 2) = e.
Proof.
  intros [Hlo Hhi].
  assert (Ha : 0 < a) by (pose proof (pow2_pos e); lra).
  destruct (log2_bounds a Ha) as [Klo Khi].
  set (k := Int_part (ln a / ln 2)) in *.
  assert (H1 : (k < e + 1)%Z) by (apply pow2_lt_inv; lra).
  assert (H2 : (e < k + 1)%Z) by (apply pow2_lt_inv; lra).
  lia.
Qed.

Lemma Int_part_IZR (n : Z) : Int_part (IZR n) = n.
Proof. symmetry. apply Int_part_spec. lra. Qed.

Lemma Int_part_le (x y : R) : x <= y -> (Int_part x <= Int_part y)%Z.
Proof.
  intros H.
  destruct (base_Int_part x) as [Hx _], (base_Int_part y) as [_ Hy].
  assert (Hlt : IZR (Int_part x) < IZR (Int_part y + 1))
    by (rewrite plus_IZR; lra).
  apply lt_IZR in Hlt. lia.
Qed.

Lemma roundHalfEven_cases (x : R) :
  let n := Int_part x in
  (roundHalfEven x = n /\ x - IZR n <= 1 / 2)
  \/ (roundHalfEven x = (n + 1)%Z /\ 1 / 2 <= x - IZR n).
Proof.
  intros n. unfold roundHalfEven. fold n.
  destruct (Rltb (x - IZR n) (1 / 2)) eqn:E1.
  - apply Rltb_true in E1. left. split; [reflexivity | lra].
  - apply Rltb_false in E1.
    destruct (Rltb (1 / 2) (x - IZR n)) eqn:E2.
    + right. split; [reflexivity | exact E1].
    + apply Rltb_false in E2.
      destruct (Z.even n); [left | right]; split; auto; lra.
Qed.

Lemma roundHalfEven_IZR (n : Z) : roundHalfEven (IZR n) = n.
Proof.
  unfold roundHalfEven. rewrite Int_part_IZR.
  assert (E : Rltb (IZR n - IZR n) (1 / 2) = true) by (apply Rltb_true; lra).
  now rewrite E.
Qed.


Lemma roundHalfEven_le (x y : R) :
  x <= y -> (roundHalfEven x <= roundHalfEven y)%Z.
Proof.
  intros H. pose proof (Int_part_le x y H) as Hn.
  destruct (Z.eq_dec (Int_part x) (Int_part y)) as [Heq | Hne].
  - unfold roundHalfEven. rewrite <- Heq.
    set (n := Int_part x).
    destruct (Rltb (x - IZR n) (1 / 2)) eqn:X1;
      destruct (Rltb (y - IZR n) (1 / 2)) eqn:Y1;
      try apply Rltb_true in X1; try apply Rltb_false in X1;
      try apply Rltb_true in Y1; try apply Rltb_false in Y1;
      try lra; try lia.
    + destruct (Rltb (1 / 2) (y - IZR n)); [lia |].
      destruct (Z.even n); lia.
    + destruct (Rltb (1 / 2) (x - IZR n)) eqn:X2;
        destruct (Rltb (1 / 2) (y - IZR n)) eqn:Y2;
        try apply Rltb_true in X2; try apply Rltb_false in X2;
        try apply Rltb_true in Y2; try apply Rltb_false in Y2;
        try lra; try lia;
        destruct (Z.even n); lia.
  - destruct (roundHalfEven_cases x) as [[Hx _] | [Hx _]],
             (roundHalfEven_cases y) as [[Hy _] | [Hy _]];
      cbv zeta in Hx, Hy; lia.
Qed.

Lemma roundHalfEven_opp (x : R) : roundHalfEven (- x) = (- roundHalfEven x)%Z.
Proof.
  destruct (base_Int_part x) as [Flo Fhi].
  set (n := Int_part x) in *.
  destruct (Req_dec_T x (IZR n)) as [Hint | Hfrac].
  - rewrite Hint, <- opp_IZR, !roundHalfEven_IZR. reflexivity.
  - assert (Hn : Int_part (- x) = (- n - 1)%Z).
    { symmetry. apply Int_part_spec.
      rewrite minus_IZR, opp_IZR. lra. }
    unfold roundHalfEven. rewrite Hn. fold n.
    rewrite minus_IZR, opp_IZR.
    destruct (Rltb (x - IZR n) (1 / 2)) eqn:X1;
      [apply Rltb_true in X1 | apply Rltb_false in X1].
    + assert (E1 : Rltb (- x - (- IZR n - 1)) (1 / 2) = false)
        by (apply Rltb_false; lra).
      assert (E2 : Rltb (1 / 2) (- x - (- IZR n - 1)) = true)
        by (apply Rltb_true; lra).
      rewrite E1, E2. lia.
    + destruct (Rltb (1 / 2) (x - IZR n)) eqn:X2;
        [apply Rltb_true in X2 | apply Rltb_false in X2].
      * assert (E1 : Rltb (- x - (- IZR n - 1)) (1 / 2) = true)
          by (apply Rltb_true; lra).
        rewrite E1. lia.
      * assert (E1 : Rltb (- x - (- IZR n - 1)) (1 / 2) = false)
          by (apply Rltb_false; lra).
        assert (E2 : Rltb (1 / 2) (- x - (- IZR n - 1)) = false)
          by (apply Rltb_false; lra).
        rewrite E1, E2.
        replace (- n - 1)%Z with (- (n + 1))%Z by lia.
        rewrite Z.even_opp, Z.even_add. cbn.
        destruct (Z.even n); cbn; lia.
Qed.

Lemma Math_fround_0 : Math_fround 0 = 0.
Proof.
  unfold Math_fround.
  assert (E : Reqb 0 0 = true) by now apply Reqb_true.
  now rewrite E.
Qed.

Lemma Math_fround_nonzero (x : R) :
  x <> 0 ->
  Math_fround x
  = IZR (roundHalfEven (x * powerRZ 2 (23 - float32_exponent x)))
    * powerRZ 2 (float32_exponent x - 23).
Proof.
  intros H. unfold Math_fround.
  assert (E : Reqb x 0 = false) by now apply Reqb_false.
  now rewrite E.
Qed.

Lemma Math_fround_opp (x : R) : Math_fround (- x) = - Math_fround x.
Proof.
  destruct (Req_dec_T x 0) as [H0 | Hx].
  - subst x. rewrite Ropp_0, Math_fround_0. lra.
  - rewrite !Math_fround_nonzero by lra.
    unfold float32_exponent. rewrite Rabs_Ropp.
    rewrite <- Ropp_mult_distr_l, roundHalfEven_opp, opp_IZR. ring.
Qed.







Lemma pow2_nonneg_IZR (k : Z) : (0 <= k)%Z -> powerRZ 2 k = IZR (2 ^ k).
Proof.
  intros Hk. destruct k as [| p | p]; [reflexivity | | lia].
  apply pow2_pos_IZR.
Qed.

(** The multiples of the spacing of an exponent, up to the first number of
    the next exponent, are numbers of single precision. *)
Lemma float32_multiple (m e : Z) :
  (-126 <= e)%Z ->
  (0 <= m <= 2 ^ 24)%Z ->
  float32 (IZR m * powerRZ 2 (e - 23)).
Proof.
  intros He [Hm0 Hm]. unfold float32.
  destruct (Z.eq_dec m 0) as [-> | Hne].
  { rewrite Rmult_0_l. apply Math_fround_0. }
  set (y := IZR m * powerRZ 2 (e - 23)).
  pose proof (pow2_pos (e - 23)) as Hu.
  assert (Hm1 : 1 <= IZR m) by (apply IZR_le; lia).
  assert (Hy : 0 < y) by (unfold y; nra).
  rewrite Math_fround_nonzero by lra.
  set (e' := float32_exponent y).
  assert (Hcases : (e' <= e)%Z \/ (m = 2 ^ 24 /\ e' = e + 1)%Z).
  { destruct (Z.eq_dec m (2 ^ 24)) as [Hfull | Hless].
    - right. split; [exact Hfull |].
      assert (Hval : y = powerRZ 2 (e + 1)).
      { unfold y. rewrite Hfull, <- pow2_24, <- pow2_add. f_equal. lia. }
      unfold e', float32_exponent. rewrite Rabs_right by lra.
      rewrite (log2_unique y (e + 1)); [lia |].
      rewrite Hval. split; [lra | apply pow2_lt; lia].
    - left.
      assert (Hlt : y < powerRZ 2 (e + 1)).
      { replace (e + 1)%Z with (24 + (e - 23))%Z by lia.
        rewrite pow2_add, pow2_24. unfold y.
        assert (IZR m < IZR (2 ^ 24)) by (apply IZR_lt; lia). nra. }
      destruct (log2_bounds y Hy) as [Hlo _].
      assert (Hk : (Int_part (ln y / ln 2) < e + 1)%Z)
        by (apply pow2_lt_inv; lra).
      unfold e', float32_exponent. rewrite Rabs_right by lra. lia. }
  assert (Hint : exists n : Z, y * powerRZ 2 (23 - e') = IZR n).
  { destruct Hcases as [Hle | [Hfull ->]].
    - exists (m * 2 ^ (e - e'))%Z.
      rewrite mult_IZR, <- pow2_nonneg_IZR by lia.
      unfold y. rewrite Rmult_assoc, <- pow2_add. do 2 f_equal. lia.
    - exists (2 ^ 23)%Z.
      unfold y. rewrite Hfull, <- pow2_24, <- pow2_23, <- !pow2_add.
      f_equal. lia. }
  destruct Hint as [n Hn]. rewrite Hn, roundHalfEven_IZR, <- Hn.
  rewrite Rmult_assoc, pow2_scale. lra.
Qed.

(** What [Math.fround] gives is a number of single precision. *)
Lemma Math_fround_float32 (x : R) : float32 (Math_fround x).
Proof.
  assert (Hpos : forall a, 0 < a -> float32 (Math_fround a)).
  { intros a Ha. rewrite Math_fround_nonzero by lra.
    set (e := float32_exponent a).
    pose proof (pow2_pos (23 - e)) as Hs.
    apply float32_multiple.
    - unfold e, float32_exponent. lia.
    - split.
      + rewrite <- (roundHalfEven_IZR 0). apply roundHalfEven_le. nra.
      + rewrite <- (roundHalfEven_IZR (2 ^ 24)). apply roundHalfEven_le.
        destruct (log2_bounds a Ha) as [_ Hhi].
        assert (He : (Int_part (ln a / ln 2) <= e)%Z).
        { unfold e, float32_exponent. rewrite Rabs_right by lra. lia. }
        assert (Hlt : a < powerRZ 2 (e + 1)).
        { eapply Rlt_le_trans; [exact Hhi |]. apply pow2_le. lia. }
        replace (IZR (2 ^ 24)) with (powerRZ 2 (e + 1) * powerRZ 2 (23 - e)).
        * nra.
        * rewrite <- pow2_add.
          replace (e + 1 + (23 - e))%Z with 24%Z by lia.
          apply pow2_24. }
  destruct (Rtotal_order x 0) as [Hneg | [-> | Hx]].
  - pose proof (Hpos (- x)) as H. unfold float32 in H |- *.
    rewrite !Math_fround_opp in H. lra.
  - unfold float32. now rewrite !Math_fround_0.
  - now apply Hpos.
Qed.

(** ** Bob and whack-a-mole stay within their bounds *)

Section Bob.
Variable object : ObjectRenderer.



End Bob.

Section WhackAMole.
Variable object : ObjectRenderer.
Variable inst0 : Inst.t.
Variable others : list Inst.t.
Hypothesis first_instance : modelInstance object = inst0 :: others.



End WhackAMole.


(** *** A mole with one sub-model *)









(** *** A bob above its bound *)





(** ** The pitch blend *)

Lemma adjustBasePitch_idle (motion : MotionState) (dt : R) (scratch : mat4) :
  angleStep motion = 0 ->
  adjustBasePitch motion dt scratch = (motion, scratch).
Proof.
  intros H0. unfold adjustBasePitch.
  rewrite H0, Rmult_0_l, Reqb_refl. reflexivity.
Qed.

Lemma adjustBasePitchFrames_idle (steps : list R) (motion : MotionState)
    (scratch : mat4) :
  angleStep motion = 0 ->
  adjustBasePitchFrames motion scratch steps = (motion, scratch).
Proof.
  intros H0. induction steps as [| dt rest IH]; cbn.
  - reflexivity.
  - now rewrite adjustBasePitch_idle.
Qed.

(** The three outcomes of one call. *)
Lemma adjustBasePitch_cases (motion : MotionState) (dt : R) (scratch : mat4) :
  let motion' := fst (adjustBasePitch motion dt scratch) in
  angleTarget motion' = angleTarget motion
  /\ ((angleStep motion * dt = 0 /\ motion' = motion)
      \/ ((angleTarget motion - (angle motion + angleStep motion * dt))
          * angleStep motion < 0
          /\ angle motion' = angleTarget motion /\ angleStep motion' = 0)
      \/ (angleStep motion * dt <> 0
          /\ 0 <= (angleTarget motion - (angle motion + angleStep motion * dt))
                  * angleStep motion
          /\ angle motion' = angle motion + angleStep motion * dt
          /\ angleStep motion' = angleStep motion)).
Proof.
  unfold adjustBasePitch.
  destruct (Reqb (angleStep motion * dt) 0) eqn:E0; cbn.
  - apply Reqb_true in E0. split; [reflexivity | left; now split].
  - apply Reqb_false in E0.
    match goal with
    | |- context [Rltb ?a ?b] => destruct (Rltb a b) eqn:Ed
    end; cbn.
    + apply Rltb_true in Ed.
      split; [reflexivity | right; left; repeat split; assumption].
    + apply Rltb_false in Ed.
      split; [reflexivity | right; right; repeat split; assumption].
Qed.

Lemma adjustBasePitch_coherent (motion : MotionState) (dt : R)
    (scratch : mat4) :
  pitch_coherent motion ->
  pitch_coherent (fst (adjustBasePitch motion dt scratch)).
Proof.
  intros Hc. unfold pitch_coherent in *.
  destruct (adjustBasePitch_cases motion dt scratch)
    as [Ht [[_ Hsame] | [(_ & Ha & Hs) | (_ & Hd & Ha & Hs)]]];
    rewrite ?Hsame, ?Ht, ?Ha, ?Hs; try assumption; lra.
Qed.

(** One call never carries the angle past its target, and never away from
    it. *)
Lemma adjustBasePitch_no_overshoot (motion : MotionState) (dt : R)
    (scratch : mat4) :
  pitch_coherent motion ->
  0 <= dt ->
  let motion' := fst (adjustBasePitch motion dt scratch) in
  0 <= (angleTarget motion - angle motion')
       * (angleTarget motion - angle motion)
  /\ Rabs (angleTarget motion - angle motion')
     <= Rabs (angleTarget motion - angle motion).
Proof.
  intros Hc Hdt. unfold pitch_coherent in Hc.
  destruct (adjustBasePitch_cases motion dt scratch)
    as [Ht [[_ Hsame] | [(_ & Ha & Hs) | (_ & Hd & Ha & Hs)]]];
    cbn zeta; rewrite ?Hsame, ?Ha.
  - split; [apply Rle_0_sqr | lra].
  - replace (angleTarget motion - angleTarget motion) with 0 by lra.
    rewrite Rabs_R0. split; [lra | apply Rabs_pos].
  - set (t := angleTarget motion) in *. set (a := angle motion) in *.
    set (s := angleStep motion) in *.
    destruct (Rtotal_order s 0) as [Hneg | [Hzero | Hpos]].
    + assert (t <= a) by nra. assert (t <= a + s * dt) by nra.
      assert (s * dt <= 0) by nra.
      split; [nra |]. rewrite !Rabs_left1 by lra. lra.
    + rewrite Hzero, Rmult_0_l, Rplus_0_r. split; [apply Rle_0_sqr | lra].
    + assert (a <= t) by nra. assert (a + s * dt <= t) by nra.
      assert (0 <= s * dt) by nra.
      split; [nra |]. rewrite !Rabs_right by lra. lra.
Qed.

(** The blend ends: with time steps of at least [dtMin], it is over after
    any number of calls that would cover the remaining angle. *)
Lemma adjustBasePitchFrames_done (dtMin : R) (steps : list R) :
  0 < dtMin ->
  Forall (fun dt => dtMin <= dt) steps ->
  forall (motion : MotionState) (scratch : mat4),
    pitch_coherent motion ->
    Rabs (angleTarget motion - angle motion)
      < INR (length steps) * dtMin * Rabs (angleStep motion) ->
    pitch_done (fst (adjustBasePitchFrames motion scratch steps)).
Proof.
  intros Hmin Hsteps.
  induction Hsteps as [| dt rest Hdt Hrest IH]; intros motion scratch Hc Hn.
  - cbn in Hn. pose proof (Rabs_pos (angleTarget motion - angle motion)).
    lra.
  - cbn [adjustBasePitchFrames].
    pose proof (adjustBasePitch_coherent motion dt scratch Hc) as Hc'.
    pose proof (adjustBasePitch_cases motion dt scratch) as Hcases.
    destruct (adjustBasePitch motion dt scratch) as [motion' scratch'].
    cbn [fst] in *.
    assert (Hstep : angleStep motion <> 0).
    { intros H0. rewrite H0, Rabs_R0, Rmult_0_r in Hn.
      pose proof (Rabs_pos (angleTarget motion - angle motion)). lra. }
    destruct Hcases
      as [Ht [[Hz _] | [(_ & Ha & Hs) | (_ & Hd & Ha & Hs)]]].
    + apply Rmult_integral in Hz. destruct Hz; [contradiction | lra].
    + rewrite adjustBasePitchFrames_idle by exact Hs.
      cbn [fst]. split; [exact Hs | now rewrite Ha, Ht].
    + apply IH; [exact Hc' |].
      rewrite Ht, Ha, Hs.
      change (length (dt :: rest)) with (S (length rest)) in Hn.
      rewrite S_INR in Hn.
      set (t := angleTarget motion) in *. set (a := angle motion) in *.
      set (s := angleStep motion) in *.
      unfold pitch_coherent in Hc. fold t a s in Hc.
      assert (Hn' : Rabs (t - a)
                    < INR (length rest) * dtMin * Rabs s + dtMin * Rabs s)
        by lra.
      destruct (Rtotal_order s 0) as [Hneg | [Hzero | Hpos]];
        [| contradiction |].
      * assert (t <= a) by nra. assert (t <= a + s * dt) by nra.
        rewrite (Rabs_left s) in * by lra.
        rewrite (Rabs_left1 (t - a)) in Hn' by lra.
        rewrite Rabs_left1 by lra. nra.
      * assert (a <= t) by nra. assert (a + s * dt <= t) by nra.
        rewrite (Rabs_right s) in * by lra.
        rewrite (Rabs_right (t - a)) in Hn' by lra.
        rewrite Rabs_right by lra. nra.
Qed.

(** [targetNextPoint] starts every blend with the step pointing towards the
    target, and so does the constructor. *)
Lemma targetNextPoint_pitch_coherent (motion : MotionState) (yOffset : R) :
  adjustPitch motion = true ->
  0 <= speed motion ->
  0 < distToTarget_of motion yOffset ->
  pitch_coherent (targetNextPoint motion yOffset).
Proof.
  intros Hp Hs Hd. unfold pitch_coherent.
  destruct (targetNextPoint_angleStep motion yOffset Hp) as [Hstep Hangle].
  cbv zeta in Hstep, Hangle. rewrite Hstep, Hangle.
  assert (Hframes : 0 < framesUntilPitch (distToTarget_of motion yOffset)
                          (speed motion)).
  { unfold framesUntilPitch. rcases; [lra |].
    apply Rdiv_lt_0_compat; lra. }
  revert Hframes.
  generalize (framesUntilPitch (distToTarget_of motion yOffset)
                (speed motion)) as frames.
  generalize (angleTarget (targetNextPoint motion yOffset)) as t.
  intros t frames Hframes.
  assert (Hinv : 0 < / frames) by now apply Rinv_0_lt_compat.
  pose proof (Rle_0_sqr t) as Hsq. unfold Rsqr in Hsq.
  unfold Rdiv. nra.
Qed.

Lemma newMotionState_pitch_coherent (objectSpawn : Spawn.t) (def : Def.t)
    (motion : Params.t) :
  pitch_coherent (newMotionState objectSpawn def motion).
Proof. unfold pitch_coherent. cbn [angle angleStep angleTarget newMotionState]. lra. Qed.

Lemma adjustBasePitch_advance (motion : MotionState) (dt : R)
    (scratch : mat4) :
  angleStep motion * dt <> 0 ->
  0 <= (angleTarget motion - (angle motion + angleStep motion * dt))
       * angleStep motion ->
  let angle' := angle motion + angleStep motion * dt in
  let rotation := mat4_fromRotation scratch angle' (axis motion) in
  adjustBasePitch motion dt scratch
  = (set_base (mat4_mul (reference motion) rotation)
       (set_angle angle' motion),
     rotation).
Proof.
  intros Hnz Hd. unfold adjustBasePitch.
  rewrite (proj2 (Reqb_false _ _) Hnz). cbn.
  rewrite (proj2 (Rltb_false _ _) Hd). reflexivity.
Qed.

Lemma adjustBasePitch_snap (motion : MotionState) (dt : R) (scratch : mat4) :
  angleStep motion * dt <> 0 ->
  (angleTarget motion - (angle motion + angleStep motion * dt))
  * angleStep motion < 0 ->
  let pitch :=
    - Math_atan2 (e1 (velocity motion))
        (Math_hypot (e0 (velocity motion)) (e2 (velocity motion))) in
  adjustBasePitch motion dt scratch
  = (set_base (mat4_fromRotation (base motion) pitch (axis motion))
       (set_angle (angleTarget motion) (set_angleStep 0 motion)),
     scratch).
Proof.
  intros Hnz Hd. unfold adjustBasePitch.
  rewrite (proj2 (Reqb_false _ _) Hnz). cbn.
  rewrite (proj2 (Rltb_true _ _) Hd). reflexivity.
Qed.

(** C3, as the code has it.  From a state whose step points towards the
    target (as [targetNextPoint] leaves it), every call with a time step
    that is not negative keeps the angle on its side of the target and no
    farther from it; a call that would carry the angle past the target sets
    it to the target exactly and the step to 0; with time steps bounded away
    from 0 the blend is over, with the angle on the target and the step 0,
    once the calls made would cover the remaining angle; and once the step
    is 0 further calls change neither [base] nor anything else. *)
Theorem pitch_blend_no_overshoot_and_ends :
  forall (motion : MotionState) (scratch : mat4),
    pitch_coherent motion ->
    (forall dt : R,
        0 <= dt ->
        let motion' := fst (adjustBasePitch motion dt scratch) in
        pitch_coherent motion'
        /\ angleTarget motion' = angleTarget motion
        /\ 0 <= (angleTarget motion - angle motion')
                * (angleTarget motion - angle motion)
        /\ Rabs (angleTarget motion - angle motion')
           <= Rabs (angleTarget motion - angle motion)
        /\ ((angleTarget motion - (angle motion + angleStep motion * dt))
            * angleStep motion < 0 ->
            angle motion' = angleTarget motion /\ angleStep motion' = 0))
    /\ (forall (dtMin : R) (steps : list R),
          0 < dtMin ->
          Forall (fun dt => dtMin <= dt) steps ->
          Rabs (angleTarget motion - angle motion)
            < INR (length steps) * dtMin * Rabs (angleStep motion) ->
          pitch_done (fst (adjustBasePitchFrames motion scratch steps)))
    /\ (angleStep motion = 0 ->
        forall steps : list R,
          adjustBasePitchFrames motion scratch steps = (motion, scratch)).
Proof.
  intros motion scratch Hc. split; [| split].
  - intros dt Hdt motion'.
    split; [now apply adjustBasePitch_coherent |].
    split; [apply adjustBasePitch_cases |].
    destruct (adjustBasePitch_no_overshoot motion dt scratch Hc Hdt)
      as [Hside Hnear].
    split; [exact Hside |]. split; [exact Hnear |].
    intros Hpast.
    destruct (adjustBasePitch_cases motion dt scratch)
      as [_ [[Hz _] | [(_ & Ha & Hs) | (_ & Hd & _)]]].
    + unfold pitch_coherent in Hc. rewrite Hz, Rplus_0_r in Hpast. lra.
    + split; [exact Ha | exact Hs].
    + lra.
  - intros dtMin steps Hmin Hsteps Hcover.
    now apply (adjustBasePitchFrames_done dtMin steps).
  - intros Hidle steps. now apply adjustBasePitchFrames_idle.
Qed.

(** *** A car in the middle of a pitch blend *)

Lemma pitchingCar_coherent : pitch_coherent pitchingCar.
Proof. unfold pitch_coherent. cbn. lra. Qed.

(** The claim's theorem on [pitchingCar]: three frames end the blend. *)
Lemma pitch_blend_no_overshoot_and_ends_witness :
  pitch_coherent pitchingCar
  /\ pitch_done
       (fst (adjustBasePitchFrames pitchingCar mat4_identity [1; 1; 1])).
Proof.
  split; [exact pitchingCar_coherent |].
  pose proof (pitch_blend_no_overshoot_and_ends pitchingCar mat4_identity
                pitchingCar_coherent) as (_ & Hdone & _).
  apply (Hdone 1).
  - lra.
  - repeat constructor; lra.
  - cbn. rewrite (Rabs_right (1 - 0)) by lra.
    rewrite (Rabs_right (1 / 2)) by lra. lra.
Defined.

Lemma hypot3_unit_x : Math_hypot3 1 0 0 = 1.
Proof.
  unfold Math_hypot3.
  replace (1 * 1 + 0 * 0 + 0 * 0) with 1 by lra. apply sqrt_1.
Qed.

Lemma cos_1_lt_1 : cos 1 < 1.
Proof.
  pose proof PI2_1 as Hhalf. pose proof PI_RGT_0 as Hpi.
  assert (H : cos 1 < cos 0) by (apply cos_decreasing_1; lra).
  now rewrite cos_0 in H.
Qed.

(** C3, as the claim has it, fails when a frame lands the angle exactly on
    the target.  After two frames [pitchingCar] has [angle = angleTarget]
    and still the step 1/2; the third call then changes [base]. *)
Lemma pitch_blend_exact_landing :
  let landed := fst (adjustBasePitchFrames pitchingCar mat4_identity [1; 1]) in
  let scratch := snd (adjustBasePitchFrames pitchingCar mat4_identity [1; 1]) in
  angle landed = angleTarget landed
  /\ angleStep landed <> 0
  /\ base (fst (adjustBasePitch landed 1 scratch)) <> base landed.
Proof.
  cbn [adjustBasePitchFrames].
  rewrite (adjustBasePitch_advance pitchingCar 1 mat4_identity)
    by (cbn; lra).
  cbn zeta.
  match goal with
  | |- context [adjustBasePitch ?m 1 ?s] =>
      rewrite (adjustBasePitch_advance m 1 s) by (cbn; lra)
  end.
  cbn [fst snd]. cbn zeta.
  split; [cbn; lra |]. split; [cbn; lra |].
  match goal with
  | |- context [adjustBasePitch ?m 1 ?s] =>
      rewrite (adjustBasePitch_snap m 1 s) by (cbn; lra)
  end.
  cbn [fst]. intros Heq.
  apply (f_equal m5) in Heq. revert Heq.
  cbn. unfold mat4_fromRotation. cbn. rewrite hypot3_unit_x.
  unfold glMatrix_EPSILON.
  rewrite !(proj2 (Rltb_false _ _)) by lra. cbn.
  unfold Math_hypot.
  replace (0 * 0 + 1 * 1) with 1 by lra. rewrite sqrt_1.
  unfold Math_atan2. rewrite (proj2 (Rltb_true 0 1)) by lra.
  replace (0 / 1) with 0 by lra. rewrite atan_0, Ropp_0, cos_0.
  pose proof cos_1_lt_1.
  replace (0 + 1 / 2 * 1 + 1 / 2 * 1) with 1 by lra.
  lra.
Qed.

(** ** The start index *)

(** The list of indices is the loop's: the [i] from 1 on with
    [4 * i < path.length], in increasing order. *)
Lemma findPathStartIndex_indices_spec (path : list R) (i : Z) :
  In i (findPathStartIndex_indices path)
  <-> (1 <= i)%Z /\ (4 * i < Float32Array_length path)%Z.
Proof.
  unfold findPathStartIndex_indices, Float32Array_length.
  rewrite in_map_iff.
  pose proof (Nat.div_mod_eq (length path + 3) 4) as Hdiv.
  pose proof (Nat.mod_upper_bound (length path + 3) 4) as Hmod.
  split.
  - intros (k & <- & Hin). apply in_seq in Hin. lia.
  - intros [H1 H4]. exists (Z.to_nat i). split; [lia |].
    apply in_seq. lia.
Qed.

Section StartIndex.
Variable pos : vec3.
Variable path : list R.

Lemma search_inv_init :
  search_inv pos path 1 (mkStartSearch 0 (-1) 0 (waypointDist pos path 0)).
Proof.
  split; [| split]; cbn.
  - split; [lia |]. intros j Hj. replace j with 0%Z by lia. lra.
  - reflexivity.
  - left. split; reflexivity.
Qed.

Lemma search_inv_body (k : Z) (s : StartSearch) :
  (1 <= k)%Z ->
  search_inv pos path k s ->
  search_inv pos path (k + 1) (findPathStartIndex_body pos path s k).
Proof.
  intros Hk ([Hm Hmin] & Hmd & Hsec).
  unfold findPathStartIndex_body. fold (waypointDist pos path k).
  set (d := waypointDist pos path k) in *.
  destruct (Rltb d (minDist s)) eqn:E1.
  - (* the new waypoint is the nearest; the old nearest is second *)
    apply Rltb_true in E1. rewrite Hmd in E1.
    split; [| split]; cbn [minPoint secPoint secDist minDist].
    + split; [lia |]. intros j Hj.
      destruct (Z.eq_dec j k) as [-> | Hne]; [fold d; lra |].
      assert (waypointDist pos path (minPoint s) <= waypointDist pos path j)
        by (apply Hmin; lia).
      fold d. lra.
    + reflexivity.
    + right. split; [lia |]. split; [| exact Hmd].
      split; [lia |]. split; [lia |].
      intros j Hj Hne. apply Hmin. lia.
  - apply Rltb_false in E1. rewrite Hmd in E1.
    assert (Hnear : nearestAmong pos path (k + 1) (minPoint s)).
    { split; [lia |]. intros j Hj.
      destruct (Z.eq_dec j k) as [-> | Hne]; [exact E1 |].
      apply Hmin. lia. }
    destruct ((secPoint s <? 0)%Z || Rltb d (secDist s)) eqn:E2.
    + (* the new waypoint is second nearest *)
      split; [exact Hnear |]. split; [exact Hmd |].
      cbn [minPoint secPoint secDist minDist].
      right. split; [lia |]. split; [| reflexivity].
      split; [lia |]. split; [lia |].
      intros j Hj Hne. fold d.
      destruct (Z.eq_dec j k) as [-> | Hnk]; [fold d; lra |].
      destruct Hsec as [[Hone _] | (_ & (Hrange & _ & Hothers) & Hsd)];
        [lia |].
      apply orb_true_iff in E2. destruct E2 as [E2 | E2].
      * apply Z.ltb_lt in E2. lia.
      * apply Rltb_true in E2. rewrite Hsd in E2.
        assert (waypointDist pos path (secPoint s) <= waypointDist pos path j)
          by (apply Hothers; [lia | exact Hne]).
        lra.
    + (* nothing changes *)
      apply orb_false_iff in E2. destruct E2 as [E2 E3].
      apply Z.ltb_ge in E2. apply Rltb_false in E3.
      split; [exact Hnear |]. split; [exact Hmd |].
      destruct Hsec as [[_ Hs] | (_ & (Hrange & Hne & Hothers) & Hsd)];
        [lia |].
      right. split; [lia |]. split; [| exact Hsd].
      split; [lia |]. split; [exact Hne |].
      intros j Hj Hnm.
      destruct (Z.eq_dec j k) as [-> | Hnk].
      * fold d. rewrite <- Hsd. exact E3.
      * apply Hothers; [lia | exact Hnm].
Qed.

Lemma search_inv_fold (len : nat) :
  forall (k : nat) (s : StartSearch),
    (1 <= k)%nat ->
    search_inv pos path (Z.of_nat k) s ->
    search_inv pos path (Z.of_nat (k + len))
      (fold_left (findPathStartIndex_body pos path)
         (map Z.of_nat (seq k len)) s).
Proof.
  induction len as [| len IH]; intros k s Hk Hinv.
  - cbn. now rewrite Nat.add_0_r.
  - cbn [seq map fold_left].
    replace (k + S len)%nat with (S k + len)%nat by lia.
    apply IH; [lia |].
    replace (Z.of_nat (S k)) with (Z.of_nat k + 1)%Z by lia.
    apply search_inv_body; [lia | exact Hinv].
Qed.

(** On a path of [n] whole waypoints the loop ends with a nearest and a
    second-nearest waypoint of the whole path. *)
Lemma search_inv_loop (n : nat) :
  (1 <= n)%nat ->
  length path = (4 * n)%nat ->
  search_inv pos path (Z.of_nat n) (findPathStartIndex_loop pos path).
Proof.
  intros Hn Hlen. unfold findPathStartIndex_loop, findPathStartIndex_indices.
  rewrite Hlen.
  replace ((4 * n + 3) / 4)%nat with n.
  2: { apply Nat.div_unique with (r := 3%nat); lia. }
  replace (Z.of_nat n) with (Z.of_nat (1 + (n - 1))) by lia.
  apply search_inv_fold; [lia |]. apply search_inv_init.
Qed.
End StartIndex.

Lemma findPathStartIndex_startIndexOf (pos : vec3) (path : list R) :
  findPathStartIndex pos path
  = startIndexOf (minPoint (findPathStartIndex_loop pos path))
      (secPoint (findPathStartIndex_loop pos path)).
Proof. reflexivity. Qed.

(** When the nearest and the second-nearest waypoint are unique, they are
    the ones the loop finds. *)
Lemma findPathStartIndex_unique (pos : vec3) (path : list R) (n : nat)
    (m s : Z) :
  (2 <= n)%nat ->
  length path = (4 * n)%nat ->
  (0 <= m < Z.of_nat n)%Z ->
  (0 <= s < Z.of_nat n)%Z ->
  s <> m ->
  (forall j : Z,
      (0 <= j < Z.of_nat n)%Z -> j <> m ->
      waypointDist pos path m < waypointDist pos path j) ->
  (forall j : Z,
      (0 <= j < Z.of_nat n)%Z -> j <> m -> j <> s ->
      waypointDist pos path s < waypointDist pos path j) ->
  minPoint (findPathStartIndex_loop pos path) = m
  /\ secPoint (findPathStartIndex_loop pos path) = s.
Proof.
  intros Hn Hlen Hm Hs Hsm Hnear Hsecond.
  destruct (search_inv_loop pos path n) as ([Hm' Hmin] & _ & Hsec);
    [lia | exact Hlen |].
  set (loop := findPathStartIndex_loop pos path) in *.
  assert (Heqm : minPoint loop = m).
  { destruct (Z.eq_dec (minPoint loop) m) as [E | E]; [exact E |].
    pose proof (Hnear _ Hm' E). pose proof (Hmin _ Hm). lra. }
  split; [exact Heqm |].
  destruct Hsec as [[Hone _] | (_ & (Hs' & Hne & Hothers) & _)]; [lia |].
  destruct (Z.eq_dec (secPoint loop) s) as [E | E]; [exact E |].
  rewrite Heqm in *.
  pose proof (Hsecond _ Hs' Hne E). pose proof (Hothers _ Hs Hsm). lra.
Qed.

(** C5. On a path of [n >= 1] waypoints, [findPathStartIndex] finds a
    nearest waypoint and, when the path has more than one waypoint, a
    second-nearest one, and returns 0 if the nearest is 0 and the
    second-nearest is not 1, 0 if the second-nearest is 0 and the nearest is
    not 1, and otherwise the larger of the two indices.  When the nearest
    and the second-nearest waypoint are unique, the result is that function
    of them. *)
Theorem findPathStartIndex_spec :
  forall (pos : vec3) (path : list R) (n : nat),
    (1 <= n)%nat ->
    length path = (4 * n)%nat ->
    (exists m s : Z,
        nearestAmong pos path (Z.of_nat n) m
        /\ ((n = 1%nat /\ s = (-1)%Z)
            \/ ((2 <= n)%nat
                /\ secondNearestAmong pos path (Z.of_nat n) m s))
        /\ findPathStartIndex pos path = startIndexOf m s)
    /\ (forall m s : Z,
          (0 <= m < Z.of_nat n)%Z ->
          (0 <= s < Z.of_nat n)%Z ->
          s <> m ->
          (forall j : Z,
              (0 <= j < Z.of_nat n)%Z -> j <> m ->
              waypointDist pos path m < waypointDist pos path j) ->
          (forall j : Z,
              (0 <= j < Z.of_nat n)%Z -> j <> m -> j <> s ->
              waypointDist pos path s < waypointDist pos path j) ->
          findPathStartIndex pos path = startIndexOf m s).
Proof.
  intros pos path n Hn Hlen. split.
  - destruct (search_inv_loop pos path n Hn Hlen) as (Hnear & _ & Hsec).
    exists (minPoint (findPathStartIndex_loop pos path)),
           (secPoint (findPathStartIndex_loop pos path)).
    split; [exact Hnear |]. split; [| apply findPathStartIndex_startIndexOf].
    destruct Hsec as [[Hone Hs] | (Htwo & Hsecond & _)].
    + left. split; [lia | exact Hs].
    + right. split; [lia | exact Hsecond].
  - intros m s Hm Hs Hsm Hnear Hsecond.
    destruct (findPathStartIndex_unique pos path n m s) as [Em Es];
      try assumption; [lia |].
    now rewrite findPathStartIndex_startIndexOf, Em, Es.
Qed.

(** The start index is a waypoint of the path (0 on a path of no whole
    waypoint). *)
Lemma findPathStartIndex_range (pos : vec3) (path : list R) (n : nat) :
  (1 <= n)%nat ->
  length path = (4 * n)%nat ->
  (0 <= findPathStartIndex pos path < Z.of_nat n)%Z.
Proof.
  intros Hn Hlen.
  destruct (search_inv_loop pos path n Hn Hlen) as ([Hm _] & _ & Hsec).
  rewrite findPathStartIndex_startIndexOf. unfold startIndexOf.
  destruct Hsec as [[_ Hs] | (_ & (Hs & _) & _)];
    repeat match goal with
           | |- context [if ?c then _ else _] => destruct c
           end; lia.
Qed.

(** ** Angles *)

Lemma Int_part_small (x : R) : 0 <= x < 1 -> Int_part x = 0%Z.
Proof. intros Hx. symmetry. apply Int_part_spec. cbn. lra. Qed.

Lemma Rtrunc_small (x : R) : -1 < x < 1 -> Rtrunc x = 0%Z.
Proof.
  intros Hx. unfold Rtrunc. rcases.
  - apply Int_part_small. lra.
  - rewrite Int_part_small by lra. reflexivity.
Qed.

(** [x % m] is [x] when [x] is less than [m] in absolute value. *)
Lemma fmod_small (x m : R) : 0 < m -> - m < x < m -> fmod x m = x.
Proof.
  intros Hm Hx. unfold fmod. rewrite Rtrunc_small.
  - cbn. lra.
  - assert (Hi : 0 < / m) by now apply Rinv_0_lt_compat.
    unfold Rdiv. split.
    + replace (-1) with (- m * / m) by (field; lra). nra.
    + replace 1 with (m * / m) by (field; lra). nra.
Qed.

Lemma fmod_0 (m : R) : 0 < m -> fmod 0 m = 0.
Proof. intros Hm. apply fmod_small; lra. Qed.

Lemma TAU_pos : 0 < TAU.
Proof. unfold TAU. pose proof PI_RGT_0. lra. Qed.

(** The angular distance from an angle to itself is 0. *)
Lemma angleDist_refl (a : R) : angleDist a a = 0.
Proof.
  unfold angleDist. replace (a - a) with 0 by lra.
  rewrite (fmod_0 TAU TAU_pos). replace (2 * 0) with 0 by lra.
  rewrite (fmod_0 TAU TAU_pos). lra.
Qed.

(** Less than a quarter turn away, the angular distance is the
    difference. *)
Lemma angleDist_small (a b : R) :
  - (PI / 2) <= b - a <= PI / 2 -> angleDist a b = b - a.
Proof.
  intros H. pose proof PI_RGT_0. unfold angleDist.
  rewrite (fmod_small (b - a)) by (unfold TAU; lra).
  rewrite fmod_small by (unfold TAU; lra). lra.
Qed.

(** ** The yaw lines *)

Lemma followPath_yaw_cases (motion : MotionState) (dt : R) :
  let motion' := followPath_yaw motion dt in
  let advanced := e1 (euler motion) + e1 (eulerStep motion) * dt in
  e1 (eulerTarget motion') = e1 (eulerTarget motion)
  /\ ((Math_sign (e1 (eulerStep motion))
       <> Math_sign (angleDist advanced (e1 (eulerTarget motion)))
       /\ yaw_snapped motion')
      \/ (Math_sign (e1 (eulerStep motion))
          = Math_sign (angleDist advanced (e1 (eulerTarget motion)))
          /\ e1 (euler motion') = advanced
          /\ e1 (eulerStep motion') = e1 (eulerStep motion))).
Proof.
  unfold followPath_yaw. cbn.
  match goal with
  | |- context [Reqb ?a ?b] => destruct (Reqb a b) eqn:E
  end; cbn.
  - apply Reqb_true in E. split; [reflexivity |].
    right. repeat split. exact E.
  - apply Reqb_false in E. split; [reflexivity |].
    left. split; [exact E |]. split; reflexivity.
Qed.

Lemma followPath_yaw_coherent (motion : MotionState) (dt : R) :
  yaw_coherent (followPath_yaw motion dt).
Proof.
  unfold yaw_coherent.
  destruct (followPath_yaw_cases motion dt)
    as [Ht [[_ [He Hs]] | (Hsign & He & Hs)]].
  - rewrite Hs, He, angleDist_refl. reflexivity.
  - rewrite Hs, He, Ht. exact Hsign.
Qed.

Lemma followPath_yaw_untouched (motion : MotionState) (dt : R) :
  let motion' := followPath_yaw motion dt in
  pathIndex motion' = pathIndex motion
  /\ pos motion' = pos motion
  /\ target motion' = target motion
  /\ velocity motion' = velocity motion
  /\ speed motion' = speed motion
  /\ parameters motion' = parameters motion.
Proof.
  unfold followPath_yaw. cbn.
  match goal with
  | |- context [Reqb ?a ?b] => destruct (Reqb a b)
  end; cbn; repeat split; reflexivity.
Qed.

Lemma adjustBasePitch_untouched (motion : MotionState) (dt : R)
    (scratch : mat4) :
  let motion' := fst (adjustBasePitch motion dt scratch) in
  pathIndex motion' = pathIndex motion
  /\ pos motion' = pos motion
  /\ target motion' = target motion
  /\ velocity motion' = velocity motion
  /\ speed motion' = speed motion
  /\ parameters motion' = parameters motion
  /\ euler motion' = euler motion
  /\ eulerStep motion' = eulerStep motion
  /\ eulerTarget motion' = eulerTarget motion
  /\ final motion' = final motion.
Proof.
  unfold adjustBasePitch.
  destruct (Reqb (angleStep motion * dt) 0); cbn;
    [| match goal with
       | |- context [Rltb ?a ?b] => destruct (Rltb a b)
       end; cbn];
    repeat split; reflexivity.
Qed.

(** ** The path follower, a frame at a time *)

Lemma followPath_unfold (object : ObjectRenderer) (dt : R)
    (motion : MotionState) (scratch : mat4) :
  followPath object dt motion scratch
  = let before := followPath_before_yaw object dt motion scratch in
    let turned := followPath_yaw (fst before) dt in
    (true,
     set_pos (vec3_scaleAndAdd (pos turned) (velocity turned) dt) turned,
     snd before).
Proof.
  unfold followPath, followPath_before_yaw.
  destruct (if adjustPitch _ then _ else _) as [m s]. reflexivity.
Qed.

(** A frame that neither starts the path nor reaches the target leaves the
    yaw fields, the position, the target and the index to the yaw lines. *)
Lemma followPath_before_yaw_keeps (object : ObjectRenderer) (dt : R)
    (motion : MotionState) (scratch : mat4) :
  (0 <= pathIndex motion)%Z ->
  speed motion * dt < vec3_dist (target motion) (pos motion) ->
  let before := fst (followPath_before_yaw object dt motion scratch) in
  pathIndex before = pathIndex motion
  /\ pos before = pos motion
  /\ target before = target motion
  /\ euler before = euler motion
  /\ eulerStep before = eulerStep motion
  /\ eulerTarget before = eulerTarget motion.
Proof.
  intros Hidx Hfar. unfold followPath_before_yaw.
  rewrite (proj2 (Z.ltb_ge _ _) Hidx).
  pose proof (adjustBasePitch_untouched motion dt scratch) as Hpitch.
  destruct (adjustPitch motion).
  - destruct (adjustBasePitch motion dt scratch) as [m s]. cbn [fst] in *.
    destruct Hpitch as (Hi & Hp & Ht & _ & Hs & _ & He & Hes & Het & _).
    rewrite Ht, Hp, Hs, (proj2 (Rleb_false _ _) Hfar). cbn.
    repeat split; assumption.
  - rewrite (proj2 (Rleb_false _ _) Hfar). cbn. repeat split; reflexivity.
Qed.

(** C4, as the code has it.  After every update the yaw is either on its
    target with the step 0, or it is the yaw the update started its yaw
    lines with (that of the state, or the one a new target gave it) advanced
    by the step times the time step, and the step and the remaining angular
    distance have the same sign.  In an update that keeps the target (the
    path was started and the target is farther than this frame's travel),
    from a state where step and distance agree in sign, the signed angular
    distance to the target changes sign only if the yaw is set on the target
    and the step to 0. *)
Theorem followPath_yaw_no_overshoot :
  forall (object : ObjectRenderer) (dt : R) (motion : MotionState)
         (scratch : mat4),
    let before := fst (followPath_before_yaw object dt motion scratch) in
    let motion' := snd (fst (followPath object dt motion scratch)) in
    let advanced := e1 (euler before) + e1 (eulerStep before) * dt in
    yaw_coherent motion'
    /\ e1 (eulerTarget motion') = e1 (eulerTarget before)
    /\ (yaw_snapped motion'
        \/ (e1 (euler motion') = advanced
            /\ e1 (eulerStep motion') = e1 (eulerStep before)))
    /\ ((0 <= pathIndex motion)%Z ->
        speed motion * dt < vec3_dist (target motion) (pos motion) ->
        euler before = euler motion
        /\ eulerStep before = eulerStep motion
        /\ eulerTarget before = eulerTarget motion
        /\ (yaw_coherent motion ->
            Math_sign (angleDist (e1 (euler motion'))
                         (e1 (eulerTarget motion')))
            <> Math_sign (angleDist (e1 (euler motion))
                            (e1 (eulerTarget motion))) ->
            yaw_snapped motion')).
Proof.
  intros object dt motion scratch before motion' advanced.
  unfold motion'. rewrite followPath_unfold. cbn [fst snd]. fold before.
  pose proof (followPath_yaw_coherent before dt) as Hcoh.
  destruct (followPath_yaw_cases before dt) as [Ht Hcases].
  fold advanced in Hcases.
  set (turned := followPath_yaw before dt) in *.
  assert (Hyaw : yaw_snapped turned
                 \/ (e1 (euler turned) = advanced
                     /\ e1 (eulerStep turned) = e1 (eulerStep before))).
  { destruct Hcases as [[_ Hsn] | (_ & He & Hs)];
      [left; exact Hsn | right; split; assumption]. }
  split; [exact Hcoh |]. split; [exact Ht |]. split; [exact Hyaw |].
  intros Hidx Hfar.
  destruct (followPath_before_yaw_keeps object dt motion scratch Hidx Hfar)
    as (_ & _ & _ & He & Hes & Het).
  fold before in He, Hes, Het.
  split; [exact He |]. split; [exact Hes |]. split; [exact Het |].
  intros Hpre Hflip.
  destruct Hcases as [[_ Hsn] | (Hsign & Hadv & Hstep)]; [exact Hsn |].
  exfalso. apply Hflip.
  change (e1 (euler (set_pos _ turned))) with (e1 (euler turned)).
  change (e1 (eulerTarget (set_pos _ turned)))
    with (e1 (eulerTarget turned)).
  rewrite Hadv, Ht, <- Hsign.
  unfold yaw_coherent in Hpre. rewrite <- Hpre, Hes. reflexivity.
Qed.

(** With a time step of 0, an update of a started path that is not on its
    target, with step and angular distance agreeing in sign, changes
    nothing. *)
Lemma followPath_zero_delta_fixed (object : ObjectRenderer)
    (motion : MotionState) (scratch : mat4) :
  (0 <= pathIndex motion)%Z ->
  0 < vec3_dist (target motion) (pos motion) ->
  yaw_coherent motion ->
  followPath object 0 motion scratch = (true, motion, scratch).
Proof.
  intros Hidx Hfar Hcoh. unfold followPath.
  rewrite (proj2 (Z.ltb_ge _ _) Hidx).
  assert (Hpitch : (if adjustPitch motion
                    then adjustBasePitch motion 0 scratch
                    else (motion, scratch)) = (motion, scratch)).
  { destruct (adjustPitch motion); [| reflexivity].
    unfold adjustBasePitch. now rewrite Rmult_0_r, Reqb_refl. }
  rewrite Hpitch.
  rewrite Rmult_0_r, (proj2 (Rleb_false _ _) Hfar).
  unfold followPath_yaw. cbn.
  rewrite Rmult_0_r, Rplus_0_r.
  unfold yaw_coherent in Hcoh. rewrite Hcoh, Reqb_refl. cbn.
  destruct motion as [pa [p0 p1 p2] ta [ve0 ve1 ve2] ap pidx sp [eu0 eu1 eu2]
                        es et an ans ant ba re fi ax ti st].
  cbn. unfold vec3_scaleAndAdd, vec3_set_e1. cbn.
  rewrite !Rmult_0_r, !Rplus_0_r. reflexivity.
Qed.

(** *** The index never goes below 0 again *)

Lemma findPathStartIndex_body_nonneg (pos : vec3) (path : list R)
    (s : StartSearch) (i : Z) :
  (0 <= i)%Z ->
  search_nonneg s ->
  search_nonneg (findPathStartIndex_body pos path s i).
Proof.
  intros Hi [Hm Hs]. unfold findPathStartIndex_body, search_nonneg.
  destruct (Rltb _ _); [cbn; lia |].
  destruct (_ || _); cbn; lia.
Qed.

Lemma findPathStartIndex_fold_nonneg (pos : vec3) (path : list R)
    (l : list nat) :
  forall s : StartSearch,
    search_nonneg s ->
    search_nonneg
      (fold_left (findPathStartIndex_body pos path) (map Z.of_nat l) s).
Proof.
  induction l as [| i l IH]; intros s Hs; [exact Hs |].
  cbn [map fold_left]. apply IH.
  apply findPathStartIndex_body_nonneg; [lia | exact Hs].
Qed.

Lemma findPathStartIndex_nonneg (pos : vec3) (path : list R) :
  (0 <= findPathStartIndex pos path)%Z.
Proof.
  assert (Hloop : search_nonneg (findPathStartIndex_loop pos path)).
  { apply findPathStartIndex_fold_nonneg. split; cbn; lia. }
  destruct Hloop as [Hm Hs].
  rewrite findPathStartIndex_startIndexOf. unfold startIndexOf.
  repeat match goal with
         | |- context [if ?c then _ else _] => destruct c
         end; lia.
Qed.

(** What the start block writes. *)
Lemma followPath_init_fields (object : ObjectRenderer)
    (motion : MotionState) :
  let started := followPath_init object motion in
  let path := Params.pathPoints (parameters motion) in
  let start := findPathStartIndex (pos motion) path in
  pathIndex started = (start + 1)%Z
  /\ pos started
     = vec3_set_e1 (e1 (pathPoint path start) - maxY (bbox object))
         (pathPoint path start)
  /\ target started
     = vec3_set_e1 (e1 (pathPoint path (start + 1)) - maxY (bbox object))
         (pathPoint path (start + 1))
  /\ speed started = speed motion
  /\ parameters started = parameters motion
  /\ adjustPitch started = adjustPitch motion
  /\ eulerStep started = eulerStep motion
  /\ eulerTarget started = eulerTarget motion
  /\ final started = final motion.
Proof. cbn. repeat split; reflexivity. Qed.

Lemma nextIndex_nonneg (motion : MotionState) :
  (0 <= pathIndex motion)%Z -> (0 <= nextIndex motion)%Z.
Proof. intros H. unfold nextIndex. destruct (_ =? _)%Z; lia. Qed.

Lemma followPath_pathIndex_nonneg (object : ObjectRenderer) (dt : R)
    (motion : MotionState) (scratch : mat4) :
  (0 <= pathIndex (snd (fst (followPath object dt motion scratch))))%Z.
Proof.
  rewrite followPath_unfold. cbn [fst snd].
  change (pathIndex (set_pos ?v ?m)) with (pathIndex m).
  destruct (followPath_yaw_untouched
              (fst (followPath_before_yaw object dt motion scratch)) dt)
    as [-> _].
  unfold followPath_before_yaw.
  set (started := if (pathIndex motion <? 0)%Z
                  then followPath_init object motion else motion).
  assert (Hstarted : (0 <= pathIndex started)%Z).
  { unfold started. destruct (pathIndex motion <? 0)%Z eqn:E.
    - destruct (followPath_init_fields object motion) as [-> _].
      pose proof (findPathStartIndex_nonneg (pos motion)
                    (Params.pathPoints (parameters motion))). lia.
    - now apply Z.ltb_ge in E. }
  assert (Hpitched :
            (0 <= pathIndex
                    (fst (if adjustPitch started
                          then adjustBasePitch started dt scratch
                          else (started, scratch))))%Z).
  { destruct (adjustPitch started); [| exact Hstarted].
    destruct (adjustBasePitch_untouched started dt scratch) as [-> _].
    exact Hstarted. }
  destruct (if adjustPitch started then _ else _) as [pitched s].
  cbn [fst] in *.
  destruct (Rleb _ _); [| exact Hpitched].
  rewrite targetNextPoint_pathIndex. now apply nextIndex_nonneg.
Qed.

Lemma followPath_yaw_coherent_after (object : ObjectRenderer) (dt : R)
    (motion : MotionState) (scratch : mat4) :
  yaw_coherent (snd (fst (followPath object dt motion scratch))).
Proof.
  rewrite followPath_unfold. cbn [fst snd].
  apply (followPath_yaw_coherent
           (fst (followPath_before_yaw object dt motion scratch)) dt).
Qed.

(** C2, as the code has it.  With a time step of 0, [followPath] leaves
    [pos], [euler] and [pathIndex], and the rest of the state, as they are
    in every state that an earlier update produced and in which the object
    is not exactly on its target; and in every state with [pathIndex >= 0],
    the object off its target and the yaw step agreeing in sign with the
    remaining angular distance. *)
Theorem followPath_zero_delta :
  forall (object : ObjectRenderer),
    (forall (dt0 : R) (motion0 : MotionState) (scratch0 : mat4),
        let motion := snd (fst (followPath object dt0 motion0 scratch0)) in
        let scratch := snd (followPath object dt0 motion0 scratch0) in
        0 < vec3_dist (target motion) (pos motion) ->
        let motion' := snd (fst (followPath object 0 motion scratch)) in
        pos motion' = pos motion
        /\ euler motion' = euler motion
        /\ pathIndex motion' = pathIndex motion
        /\ motion' = motion)
    /\ (forall (motion : MotionState) (scratch : mat4),
          (0 <= pathIndex motion)%Z ->
          0 < vec3_dist (target motion) (pos motion) ->
          yaw_coherent motion ->
          followPath object 0 motion scratch = (true, motion, scratch)).
Proof.
  intros object. split.
  - intros dt0 motion0 scratch0 motion scratch Hfar motion'.
    assert (Hfix : followPath object 0 motion scratch
                   = (true, motion, scratch)).
    { apply followPath_zero_delta_fixed.
      - apply followPath_pathIndex_nonneg.
      - exact Hfar.
      - apply followPath_yaw_coherent_after. }
    unfold motion'. rewrite Hfix. cbn. repeat split; reflexivity.
  - intros motion scratch. apply followPath_zero_delta_fixed.
Qed.

(** *** A car on a square path *)

Ltac waypoint_cases j :=
  let Hj := fresh "Hj" in
  assert (Hj : j = 0%Z \/ j = 1%Z \/ j = 2%Z \/ j = 3%Z) by lia;
  destruct Hj as [-> | [-> | [-> | ->]]].

Ltac waypoint_dist :=
  unfold waypointDist;
  change (pathPoint squarePath 0) with (Vec3 0 0 0);
  change (pathPoint squarePath 1) with (Vec3 10 0 0);
  change (pathPoint squarePath 2) with (Vec3 10 0 10);
  change (pathPoint squarePath 3) with (Vec3 0 0 10);
  unfold vec3_dist; cbn [e0 e1 e2];
  apply Math_hypot3_lt; lra.

Lemma squarePath_first_nearest (j : Z) :
  (0 <= j < Z.of_nat 4)%Z -> j <> 0%Z ->
  waypointDist (Vec3 1 0 0) squarePath 0
  < waypointDist (Vec3 1 0 0) squarePath j.
Proof. intros Hj Hne. waypoint_cases j; try lia; waypoint_dist. Qed.

Lemma squarePath_first_second (j : Z) :
  (0 <= j < Z.of_nat 4)%Z -> j <> 0%Z -> j <> 1%Z ->
  waypointDist (Vec3 1 0 0) squarePath 1
  < waypointDist (Vec3 1 0 0) squarePath j.
Proof. intros Hj Hne Hne'. waypoint_cases j; try lia; waypoint_dist. Qed.

(** Spawned next to the first waypoint, the car starts at the second. *)
Lemma squarePath_start_first :
  findPathStartIndex (Vec3 1 0 0) squarePath = 1%Z.
Proof.
  rewrite findPathStartIndex_startIndexOf.
  destruct (findPathStartIndex_unique (Vec3 1 0 0) squarePath 4 0 1)
    as [-> ->]; try reflexivity; try lia.
  - apply squarePath_first_nearest.
  - apply squarePath_first_second.
Qed.

(** The claim's theorem on the square path, from next to its first
    waypoint: the nearest waypoint is 0, the second-nearest 1, the start
    the larger of them. *)
Lemma findPathStartIndex_spec_witness :
  (1 <= 4)%nat
  /\ length squarePath = (4 * 4)%nat
  /\ findPathStartIndex (Vec3 1 0 0) squarePath = 1%Z.
Proof.
  assert (Hn : (1 <= 4)%nat) by lia.
  assert (Hlen : length squarePath = (4 * 4)%nat) by reflexivity.
  pose proof (findPathStartIndex_spec (Vec3 1 0 0) squarePath 4 Hn Hlen)
    as [_ Hunique].
  split; [exact Hn |]. split; [exact Hlen |].
  change 1%Z with (startIndexOf 0 1) at 2.
  apply Hunique.
  - cbn; lia.
  - cbn; lia.
  - discriminate.
  - apply squarePath_first_nearest.
  - apply squarePath_first_second.
Defined.

(** Spawned next to the last waypoint, with the one before it second
    nearest, the car starts at the last. *)
Lemma squarePath_start_last :
  findPathStartIndex (Vec3 1 0 10) squarePath = 3%Z.
Proof.
  rewrite findPathStartIndex_startIndexOf.
  destruct (findPathStartIndex_unique (Vec3 1 0 10) squarePath 4 3 2)
    as [-> ->]; try reflexivity; try lia.
  - intros j Hj Hne. waypoint_cases j; try lia; waypoint_dist.
  - intros j Hj Hne Hne'. waypoint_cases j; try lia; waypoint_dist.
Qed.

Lemma followPath_pathIndex_before_yaw (object : ObjectRenderer) (dt : R)
    (motion : MotionState) (scratch : mat4) :
  pathIndex (snd (fst (followPath object dt motion scratch)))
  = pathIndex (fst (followPath_before_yaw object dt motion scratch)).
Proof.
  rewrite followPath_unfold. cbn [fst snd].
  change (pathIndex (set_pos ?v ?m)) with (pathIndex m).
  apply followPath_yaw_untouched.
Qed.

(** [followPath] up to the yaw lines, for an object that stays level. *)
Lemma followPath_before_yaw_level (object : ObjectRenderer) (dt : R)
    (motion : MotionState) (scratch : mat4) :
  adjustPitch motion = false ->
  fst (followPath_before_yaw object dt motion scratch)
  = let started :=
      if (pathIndex motion <? 0)%Z then followPath_init object motion
      else motion in
    if Rleb (vec3_dist (target started) (pos started)) (speed started * dt)
    then targetNextPoint started (maxY (bbox object))
    else started.
Proof.
  intros Hlevel. unfold followPath_before_yaw.
  assert (Hstarted : adjustPitch
                       (if (pathIndex motion <? 0)%Z
                        then followPath_init object motion else motion)
                     = false).
  { destruct (pathIndex motion <? 0)%Z; [| exact Hlevel].
    destruct (followPath_init_fields object motion)
      as (_ & _ & _ & _ & _ & -> & _). exact Hlevel. }
  rewrite Hstarted. cbn zeta.
  destruct (Rleb _ _); reflexivity.
Qed.

Lemma squareCarMotion_speed (x z speed0 : R) :
  0 <= speed0 -> speed (squareCarMotion x z speed0) = speed0.
Proof.
  intros Hs. unfold squareCarMotion, newMotionState, carParams.
  cbn [speed Params.speed].
  now rewrite (proj2 (Rltb_false speed0 0) Hs).
Qed.

Lemma squareCar_init_speed (x z speed0 : R) :
  0 <= speed0 ->
  speed (followPath_init (squareCar x z speed0) (squareCarMotion x z speed0))
  = speed0.
Proof.
  intros Hs.
  destruct (followPath_init_fields (squareCar x z speed0)
              (squareCarMotion x z speed0)) as (_ & _ & _ & -> & _).
  now apply squareCarMotion_speed.
Qed.

(** The start block for the car spawned next to the last waypoint. *)
Lemma squareCar_start_last (speed : R) :
  let started :=
    followPath_init (squareCar 1 10 speed) (squareCarMotion 1 10 speed) in
  pathIndex started = 4%Z
  /\ pos started = Vec3 0 (0 - 1) 10
  /\ target started = Vec3 0 (0 - 1) 0.
Proof.
  destruct (followPath_init_fields (squareCar 1 10 speed)
              (squareCarMotion 1 10 speed)) as (Hi & Hp & Ht & _).
  cbn zeta in *. rewrite Hi, Hp, Ht.
  change (pos (squareCarMotion 1 10 speed)) with (Vec3 1 0 10).
  change (Params.pathPoints (parameters (squareCarMotion 1 10 speed)))
    with squarePath.
  rewrite squarePath_start_last. repeat split.
Qed.

(** C1 at its failing input.  The car spawned at (1, 0, 10) on the square
    path is nearest to the last waypoint, index 3, and second nearest to
    index 2; the start block takes 3 as the start and adds 1 without
    wrapping, so that after the first update [pathIndex] is 4, the number of
    waypoints, and the target was read past the end of the path. *)
Theorem followPath_start_at_last_waypoint :
  let object := squareCar 1 10 1 in
  let motion := squareCarMotion 1 10 1 in
  let motion' := snd (fst (followPath object 1 motion mat4_identity)) in
  findPathStartIndex (pos motion) squarePath = 3%Z
  /\ waypointCount squarePath = 4%Z
  /\ pathIndex motion' = 4%Z
  /\ ~ (0 <= pathIndex motion' < waypointCount squarePath)%Z.
Proof.
  intros object motion motion'.
  assert (Hidx : pathIndex motion' = 4%Z).
  { unfold motion'. rewrite followPath_pathIndex_before_yaw.
    rewrite followPath_before_yaw_level by reflexivity.
    change (pathIndex motion <? 0)%Z with true. cbn iota zeta.
    destruct (squareCar_start_last 1) as (Hi & Hp & Ht).
    fold object motion in Hi, Hp, Ht. rewrite Hp, Ht.
    assert (Hfar : Rleb (vec3_dist (Vec3 0 (0 - 1) 0) (Vec3 0 (0 - 1) 10))
                     (speed (followPath_init object motion) * 1) = false).
    { apply Rleb_false. unfold object, motion.
      rewrite squareCar_init_speed by lra.
      unfold vec3_dist. cbn [e0 e1 e2].
      rewrite (Math_hypot3_eq _ _ _ 10) by lra. lra. }
    rewrite Hfar. exact Hi. }
  split; [apply squarePath_start_last |].
  split; [reflexivity |].
  split; [exact Hidx |].
  rewrite Hidx. change (waypointCount squarePath) with 4%Z. lia.
Qed.

Lemma followPath_pos (object : ObjectRenderer) (dt : R)
    (motion : MotionState) (scratch : mat4) :
  let before := fst (followPath_before_yaw object dt motion scratch) in
  pos (snd (fst (followPath object dt motion scratch)))
  = vec3_scaleAndAdd (pos before) (velocity before) dt
  /\ target (snd (fst (followPath object dt motion scratch)))
     = target before.
Proof.
  rewrite followPath_unfold. cbn [fst snd].
  destruct (followPath_yaw_untouched
              (fst (followPath_before_yaw object dt motion scratch)) dt)
    as (_ & Hp & Ht & Hv & _).
  cbn zeta in *. cbn [pos target set_pos]. rewrite Hp, Hv, Ht. now split.
Qed.

(** The start block for the car spawned next to the first waypoint. *)
Lemma squareCar_start_first (speed : R) :
  let started :=
    followPath_init (squareCar 1 0 speed) (squareCarMotion 1 0 speed) in
  pathIndex started = 2%Z
  /\ pos started = Vec3 10 (0 - 1) 0
  /\ target started = Vec3 10 (0 - 1) 10.
Proof.
  destruct (followPath_init_fields (squareCar 1 0 speed)
              (squareCarMotion 1 0 speed)) as (Hi & Hp & Ht & _).
  cbn zeta in *. rewrite Hi, Hp, Ht.
  change (pos (squareCarMotion 1 0 speed)) with (Vec3 1 0 0).
  change (Params.pathPoints (parameters (squareCarMotion 1 0 speed)))
    with squarePath.
  rewrite squarePath_start_first. repeat split.
Qed.

Lemma fastCar_before_yaw :
  fst (followPath_before_yaw (squareCar 1 0 10) 1 (squareCarMotion 1 0 10)
         mat4_identity)
  = targetNextPoint
      (followPath_init (squareCar 1 0 10) (squareCarMotion 1 0 10)) 1.
Proof.
  rewrite followPath_before_yaw_level by reflexivity.
  change (pathIndex (squareCarMotion 1 0 10) <? 0)%Z with true.
  cbn iota zeta.
  destruct (squareCar_start_first 10) as (_ & Hp & Ht).
  rewrite Hp, Ht.
  assert (Hnear : Rleb (vec3_dist (Vec3 10 (0 - 1) 10) (Vec3 10 (0 - 1) 0))
                    (speed (followPath_init (squareCar 1 0 10)
                              (squareCarMotion 1 0 10)) * 1) = true).
  { apply Rleb_true. unfold vec3_dist. cbn.
    rewrite (Math_hypot3_eq _ _ _ 10) by lra.
    unfold Rltb. destruct (Rlt_dec 10 0); lra. }
  rewrite Hnear. reflexivity.
Qed.

Lemma fastCarAfterOneFrame_fields :
  pathIndex fastCarAfterOneFrame = 3%Z
  /\ pos fastCarAfterOneFrame = Vec3 0 (-1) 10
  /\ target fastCarAfterOneFrame = Vec3 0 (-1) 10
  /\ parameters fastCarAfterOneFrame = carParams 10.
Proof.
  set (started := followPath_init (squareCar 1 0 10)
                    (squareCarMotion 1 0 10)).
  destruct (squareCar_start_first 10) as (Hi & Hp & Ht).
  fold started in Hi, Hp, Ht.
  assert (Hparams : parameters started = carParams 10) by reflexivity.
  assert (Hspeed : speed started = 10).
  { cbn. unfold Rltb. destruct (Rlt_dec 10 0); [lra | reflexivity]. }
  assert (Hnext : nextIndex started = 3%Z).
  { unfold nextIndex, pathLength. rewrite Hi, Hparams. reflexivity. }
  assert (Htarget : target (targetNextPoint started 1) = Vec3 0 (0 - 1) 10).
  { rewrite targetNextPoint_target, Hnext, Hparams. reflexivity. }
  assert (Hpos : pos (targetNextPoint started 1) = Vec3 10 (0 - 1) 10).
  { rewrite targetNextPoint_pos. exact Ht. }
  assert (Hvel : velocity (targetNextPoint started 1) = Vec3 (-10) 0 0).
  { rewrite targetNextPoint_velocity_level by reflexivity.
    cbn zeta. rewrite Htarget, Hpos, Hspeed.
    unfold normToLength, vec3_length, vec3_sub. cbn.
    rewrite (Math_hypot3_eq _ _ _ 10) by lra.
    rewrite (proj2 (Rltb_true 0 10)) by lra.
    unfold vec3_scale. cbn. f_equal; field. }
  unfold fastCarAfterOneFrame.
  split; [| split; [| split]].
  - rewrite followPath_pathIndex_before_yaw, fastCar_before_yaw.
    rewrite targetNextPoint_pathIndex. exact Hnext.
  - destruct (followPath_pos (squareCar 1 0 10) 1 (squareCarMotion 1 0 10)
                mat4_identity) as [-> _].
    rewrite fastCar_before_yaw. fold started. rewrite Hpos, Hvel.
    unfold vec3_scaleAndAdd. cbn. f_equal; lra.
  - destruct (followPath_pos (squareCar 1 0 10) 1 (squareCarMotion 1 0 10)
                mat4_identity) as [_ ->].
    rewrite fastCar_before_yaw. fold started. rewrite Htarget.
    f_equal; lra.
  - rewrite followPath_unfold. cbn [fst snd].
    change (parameters (set_pos ?v ?m)) with (parameters m).
    destruct (followPath_yaw_untouched
                (fst (followPath_before_yaw (squareCar 1 0 10) 1
                        (squareCarMotion 1 0 10) mat4_identity)) 1)
      as (_ & _ & _ & _ & _ & ->).
    rewrite fastCar_before_yaw, targetNextPoint_parameters. exact Hparams.
Qed.

Lemma followPath_yaw_adjustPitch (motion : MotionState) (dt : R) :
  adjustPitch (followPath_yaw motion dt) = adjustPitch motion.
Proof.
  unfold followPath_yaw. cbn.
  match goal with
  | |- context [Reqb ?a ?b] => destruct (Reqb a b)
  end; reflexivity.
Qed.

Lemma fastCarAfterOneFrame_level : adjustPitch fastCarAfterOneFrame = false.
Proof.
  unfold fastCarAfterOneFrame. rewrite followPath_unfold. cbn [fst snd].
  change (adjustPitch (set_pos ?v ?m)) with (adjustPitch m).
  rewrite followPath_yaw_adjustPitch, fastCar_before_yaw.
  rewrite targetNextPoint_adjustPitch. reflexivity.
Qed.

(** C2, as the claim has it, fails in two ways.  On the state of a new
    object ([pathIndex = -1]) an update with time step 0 runs the start
    block: [pathIndex] becomes 2 and the car is moved from (1, 0, 0) onto
    the second waypoint.  And on a state an update produced in which the car
    stands exactly on its target, an update with time step 0 moves on to the
    next waypoint: [pathIndex] goes from 3 to 0. *)
Lemma followPath_zero_delta_changes :
  let object := squareCar 1 0 10 in
  let fresh := squareCarMotion 1 0 10 in
  let started := snd (fst (followPath object 0 fresh mat4_identity)) in
  (pathIndex fresh = (-1)%Z
   /\ pathIndex started = 2%Z
   /\ pos fresh = Vec3 1 0 0
   /\ pos started <> pos fresh)
  /\ (pos fastCarAfterOneFrame = target fastCarAfterOneFrame
      /\ pathIndex fastCarAfterOneFrame = 3%Z
      /\ pathIndex
           (snd (fst (followPath object 0 fastCarAfterOneFrame
                        mat4_identity)))
         = 0%Z).
Proof.
  intros object fresh started.
  destruct (squareCar_start_first 10) as (Hi & Hp & Ht).
  fold object fresh in Hi, Hp, Ht.
  assert (Hbefore : fst (followPath_before_yaw object 0 fresh mat4_identity)
                    = followPath_init object fresh).
  { rewrite followPath_before_yaw_level by reflexivity.
    change (pathIndex fresh <? 0)%Z with true. cbv iota zeta.
    rewrite Hp, Ht, Rmult_0_r.
    assert (Hfar : Rleb (vec3_dist (Vec3 10 (0 - 1) 10) (Vec3 10 (0 - 1) 0)) 0
                   = false).
    { apply Rleb_false. unfold vec3_dist. cbn [e0 e1 e2].
      rewrite (Math_hypot3_eq _ _ _ 10) by lra. lra. }
    now rewrite Hfar. }
  destruct fastCarAfterOneFrame_fields as (Hidx & Hpos & Htarget & Hparams).
  split; [split; [| split; [| split]] | split; [| split]].
  - reflexivity.
  - unfold started. rewrite followPath_pathIndex_before_yaw, Hbefore.
    exact Hi.
  - reflexivity.
  - unfold started.
    destruct (followPath_pos object 0 fresh mat4_identity) as [-> _].
    rewrite Hbefore, Hp. intros Heq. apply (f_equal e0) in Heq.
    cbn [e0 vec3_scaleAndAdd] in Heq. rewrite Rmult_0_r in Heq.
    change (e0 (pos fresh)) with 1 in Heq. lra.
  - now rewrite Hpos, Htarget.
  - exact Hidx.
  - rewrite followPath_pathIndex_before_yaw.
    rewrite followPath_before_yaw_level by apply fastCarAfterOneFrame_level.
    rewrite Hidx. change (3 <? 0)%Z with false. cbv iota zeta.
    rewrite Hpos, Htarget, Rmult_0_r.
    assert (Hon : Rleb (vec3_dist (Vec3 0 (-1) 10) (Vec3 0 (-1) 10)) 0 = true).
    { apply Rleb_true. unfold vec3_dist. cbn [e0 e1 e2].
      rewrite (Math_hypot3_eq _ _ _ 0) by lra. lra. }
    rewrite Hon, targetNextPoint_pathIndex.
    unfold nextIndex, pathLength. rewrite Hidx, Hparams. reflexivity.
Qed.

(** *** A car that reaches a waypoint while it is still turning *)

Lemma Math_atan2_0_pos (x : R) : 0 < x -> Math_atan2 0 x = 0.
Proof.
  intros Hx. unfold Math_atan2. rewrite (proj2 (Rltb_true 0 x) Hx).
  replace (0 / x) with 0 by (field; lra). apply atan_0.
Qed.

Lemma Math_atan2_neg_0 (y : R) : y < 0 -> Math_atan2 y 0 = - (PI / 2).
Proof.
  intros Hy. unfold Math_atan2.
  rewrite (proj2 (Rltb_false 0 0)) by lra.
  rewrite (proj2 (Rltb_false 0 y)) by lra.
  now rewrite (proj2 (Rltb_true y 0) Hy).
Qed.

(** Half a turn away the angular distance is minus half a turn. *)
Lemma angleDist_half_turn : angleDist 0 PI = - PI.
Proof.
  pose proof PI_RGT_0 as Hpi. unfold angleDist.
  replace (PI - 0) with PI by lra.
  rewrite (fmod_small PI TAU) by (unfold TAU; lra).
  unfold fmod, TAU. replace (2 * PI / (2 * PI)) with 1 by (field; lra).
  assert (Hone : Rtrunc 1 = 1%Z).
  { unfold Rtrunc. rewrite (proj2 (Rleb_true 0 1)) by lra.
    symmetry. apply Int_part_spec. cbn. lra. }
  rewrite Hone. cbn. lra.
Qed.

Lemma turningCar_coherent : yaw_coherent turningCar.
Proof.
  pose proof PI_RGT_0. unfold yaw_coherent. cbn.
  rewrite angleDist_half_turn, !Math_sign_neg by lra. reflexivity.
Qed.

Lemma turningCar_next :
  let next := targetNextPoint turningCar 1 in
  fst (followPath_before_yaw (squareCar 1 0 1) 1 turningCar mat4_identity)
  = next
  /\ e1 (euler next) = 0
  /\ e1 (eulerTarget next) = PI / 2
  /\ e1 (eulerStep next) = PI / 20.
Proof.
  cbn zeta.
  assert (Hnext : nextIndex turningCar = 3%Z) by reflexivity.
  assert (Hpos : pos (targetNextPoint turningCar 1) = Vec3 10 (-1) 10)
    by now rewrite targetNextPoint_pos.
  assert (Htarget : target (targetNextPoint turningCar 1)
                    = Vec3 0 (0 - 1) 10).
  { rewrite targetNextPoint_target, Hnext. reflexivity. }
  assert (Heuler : e1 (euler (targetNextPoint turningCar 1)) = 0).
  { rewrite targetNextPoint_euler. cbn. apply Math_atan2_0_pos. lra. }
  assert (Htarget1 : e1 (eulerTarget (targetNextPoint turningCar 1))
                     = PI / 2).
  { rewrite (targetNextPoint_eulerTarget turningCar 1), Hpos, Htarget. cbn.
    replace (10 - 10) with 0 by lra.
    rewrite Math_atan2_neg_0 by lra. lra. }
  assert (Hspeed : speed turningCar = 1).
  { cbn. unfold Rltb. destruct (Rlt_dec 1 0); [lra | reflexivity]. }
  assert (Hdist : distToTarget_of turningCar 1 = 10).
  { rewrite distToTarget_of_eq. cbv zeta. rewrite Hpos, Htarget.
    unfold vec3_length, vec3_sub. cbn. apply Math_hypot3_eq; lra. }
  pose proof PI_RGT_0 as Hpi.
  split; [| split; [exact Heuler | split; [exact Htarget1 |]]].
  - rewrite followPath_before_yaw_level by reflexivity.
    change (pathIndex turningCar <? 0)%Z with false. cbn iota zeta.
    assert (Hon : Rleb (vec3_dist (target turningCar) (pos turningCar))
                    (speed turningCar * 1) = true).
    { apply Rleb_true. rewrite Hspeed. unfold vec3_dist. cbn.
      rewrite (Math_hypot3_eq _ _ _ 0) by lra. lra. }
    now rewrite Hon.
  - rewrite (targetNextPoint_eulerStep turningCar 1).
    rewrite Heuler, Htarget1, Hdist, Hspeed.
    rewrite angleDist_small by lra.
    unfold framesUntilYaw. rewrite (proj2 (Reqb_false 1 0)) by lra.
    field.
Qed.

(** C4, as the claim has it, fails in an update that takes a new target.
    [turningCar] is turning towards a yaw target on its negative side when
    it reaches its waypoint; the update gives it a target on its positive
    side and a positive step, and neither sets the yaw on the target nor the
    step to 0. *)
Lemma followPath_new_target_flips_sign :
  let motion := turningCar in
  let motion' :=
    snd (fst (followPath (squareCar 1 0 1) 1 turningCar mat4_identity)) in
  Math_sign (angleDist (e1 (euler motion)) (e1 (eulerTarget motion))) = -1
  /\ Math_sign (angleDist (e1 (euler motion')) (e1 (eulerTarget motion')))
     = 1
  /\ e1 (euler motion') <> e1 (eulerTarget motion')
  /\ e1 (eulerStep motion') <> 0.
Proof.
  intros motion motion'. pose proof PI_RGT_0 as Hpi.
  destruct turningCar_next as (Hbefore & He & Ht & Hs).
  set (next := targetNextPoint turningCar 1) in *.
  assert (Hadvanced : angleDist (e1 (euler next) + e1 (eulerStep next) * 1)
                        (e1 (eulerTarget next)) = 9 * PI / 20).
  { rewrite He, Ht, Hs. rewrite angleDist_small by lra. lra. }
  assert (Hfields : e1 (euler motion') = PI / 20
                    /\ e1 (eulerTarget motion') = PI / 2
                    /\ e1 (eulerStep motion') = PI / 20).
  { unfold motion'. rewrite followPath_unfold. cbn [fst snd].
    rewrite Hbefore.
    change (e1 (euler (set_pos ?v ?m))) with (e1 (euler m)).
    change (e1 (eulerTarget (set_pos ?v ?m))) with (e1 (eulerTarget m)).
    change (e1 (eulerStep (set_pos ?v ?m))) with (e1 (eulerStep m)).
    destruct (followPath_yaw_cases next 1)
      as [Htar [[Hne _] | (_ & Heu & Hst)]].
    - exfalso. apply Hne. rewrite Hadvanced, Hs.
      rewrite !Math_sign_pos by lra. reflexivity.
    - rewrite Heu, Htar, Hst, He, Ht, Hs. repeat split; lra. }
  destruct Hfields as (He' & Ht' & Hs').
  split; [| split; [| split]].
  - unfold motion. cbn. rewrite angleDist_half_turn.
    apply Math_sign_neg. lra.
  - rewrite He', Ht'. rewrite angleDist_small by lra.
    apply Math_sign_pos. lra.
  - rewrite He', Ht'. lra.
  - rewrite Hs'. lra.
Qed.

Lemma cruisingCar_far (dt : R) :
  dt <= 2 ->
  speed cruisingCar * dt < vec3_dist (target cruisingCar) (pos cruisingCar).
Proof.
  intros Hdt.
  assert (Hspeed : speed cruisingCar = 1).
  { cbn. unfold Rltb. destruct (Rlt_dec 1 0); [lra | reflexivity]. }
  rewrite Hspeed. unfold vec3_dist. cbn.
  rewrite (Math_hypot3_eq _ _ _ 5) by lra. lra.
Qed.

Lemma cruisingCar_coherent : yaw_coherent cruisingCar.
Proof. unfold yaw_coherent. cbn. now rewrite angleDist_refl. Qed.

Lemma steeringCar_far :
  speed steeringCar * 1 < vec3_dist (target steeringCar) (pos steeringCar).
Proof. apply (cruisingCar_far 1). lra. Qed.

Lemma steeringCar_coherent : yaw_coherent steeringCar.
Proof.
  pose proof PI2_1. unfold yaw_coherent. cbn.
  rewrite angleDist_small by lra.
  rewrite !Math_sign_pos by lra. reflexivity.
Qed.

(** The claim's theorem on [steeringCar]: the update keeps the target, the
    frame would carry the yaw past it, and the yaw is set on the target and
    the step to 0. *)
Lemma followPath_yaw_no_overshoot_witness :
  (0 <= pathIndex steeringCar)%Z
  /\ speed steeringCar * 1
     < vec3_dist (target steeringCar) (pos steeringCar)
  /\ yaw_coherent steeringCar
  /\ yaw_snapped
       (snd (fst (followPath (squareCar 1 0 1) 1 steeringCar mat4_identity))).
Proof.
  pose proof PI2_1 as Hpi.
  assert (Hidx : (0 <= pathIndex steeringCar)%Z) by (cbn; lia).
  pose proof steeringCar_far as Hfar.
  pose proof steeringCar_coherent as Hcoh.
  pose proof (followPath_yaw_no_overshoot (squareCar 1 0 1) 1 steeringCar
                mat4_identity) as H.
  cbv zeta in H. destruct H as (_ & Ht & Hyaw & Hkeep).
  destruct (Hkeep Hidx Hfar) as (He & Hes & Het & Hsnap).
  split; [exact Hidx |]. split; [exact Hfar |]. split; [exact Hcoh |].
  apply Hsnap; [exact Hcoh |].
  assert (Hbefore : Math_sign (angleDist (e1 (euler steeringCar))
                                 (e1 (eulerTarget steeringCar))) = 1).
  { cbn. rewrite angleDist_small by lra. apply Math_sign_pos. lra. }
  rewrite Hbefore.
  destruct Hyaw as [[Hon _] | [Hadv _]].
  - rewrite Hon, angleDist_refl, Math_sign_0. lra.
  - rewrite Hadv, Ht, He, Hes, Het. cbn.
    rewrite angleDist_small by lra.
    rewrite Math_sign_neg by lra. lra.
Defined.

(** The claim's theorem on [cruisingCar]: with a time step of 0 the update
    changes nothing. *)
Lemma followPath_zero_delta_witness :
  (0 <= pathIndex cruisingCar)%Z
  /\ 0 < vec3_dist (target cruisingCar) (pos cruisingCar)
  /\ yaw_coherent cruisingCar
  /\ followPath (squareCar 1 0 1) 0 cruisingCar mat4_identity
     = (true, cruisingCar, mat4_identity).
Proof.
  assert (Hidx : (0 <= pathIndex cruisingCar)%Z) by (cbn; lia).
  assert (Hfar : 0 < vec3_dist (target cruisingCar) (pos cruisingCar)).
  { pose proof (cruisingCar_far 0). lra. }
  pose proof (followPath_zero_delta (squareCar 1 0 1)) as [_ Hfix].
  split; [exact Hidx |]. split; [exact Hfar |].
  split; [exact cruisingCar_coherent |].
  apply Hfix; [exact Hidx | exact Hfar | exact cruisingCar_coherent].
Defined.

(** *** Where the index does stay within the path *)

Lemma nextIndex_in_range (motion : MotionState) (n : Z) :
  pathLength motion = (4 * n)%Z ->
  (0 <= pathIndex motion < n)%Z ->
  (0 <= nextIndex motion < n)%Z.
Proof.
  intros Hlen Hidx. unfold nextIndex. rewrite Hlen.
  destruct (Z.eqb_spec ((pathIndex motion + 1) * 4) (4 * n)); lia.
Qed.

(** Once within the path, the index stays within it. *)
Lemma followPath_pathIndex_in_range (object : ObjectRenderer) (dt : R)
    (motion : MotionState) (scratch : mat4) (n : Z) :
  pathLength motion = (4 * n)%Z ->
  (0 <= pathIndex motion < n)%Z ->
  (0 <= pathIndex (snd (fst (followPath object dt motion scratch))) < n)%Z.
Proof.
  intros Hlen Hidx. rewrite followPath_pathIndex_before_yaw.
  unfold followPath_before_yaw.
  rewrite (proj2 (Z.ltb_ge _ _) (proj1 Hidx)).
  pose proof (adjustBasePitch_untouched motion dt scratch) as Hpitch.
  assert (Hpitched :
            let pitched := fst (if adjustPitch motion
                                then adjustBasePitch motion dt scratch
                                else (motion, scratch)) in
            pathIndex pitched = pathIndex motion
            /\ parameters pitched = parameters motion).
  { destruct (adjustPitch motion); [| now split].
    destruct Hpitch as (Hi & _ & _ & _ & _ & Hp & _). now split. }
  destruct (if adjustPitch motion then _ else _) as [pitched s].
  cbn [fst] in Hpitched. destruct Hpitched as [Hi Hp].
  destruct (Rleb _ _).
  - cbn [fst]. rewrite targetNextPoint_pathIndex.
    apply nextIndex_in_range; [| lia].
    unfold pathLength in *. now rewrite Hp.
  - cbn [fst]. lia.
Qed.

(** The start block leaves the index within the path exactly when the
    start is not the last waypoint. *)
Lemma followPath_init_in_range (object : ObjectRenderer)
    (motion : MotionState) (n : nat) :
  (1 <= n)%nat ->
  length (Params.pathPoints (parameters motion)) = (4 * n)%nat ->
  let start :=
    findPathStartIndex (pos motion) (Params.pathPoints (parameters motion)) in
  (1 <= pathIndex (followPath_init object motion) <= Z.of_nat n)%Z
  /\ ((pathIndex (followPath_init object motion) < Z.of_nat n)%Z
      <-> start <> (Z.of_nat n - 1)%Z).
Proof.
  intros Hn Hlen start.
  destruct (followPath_init_fields object motion) as [Hi _].
  cbn zeta in Hi. fold start in Hi. rewrite Hi.
  pose proof (findPathStartIndex_range (pos motion) _ n Hn Hlen) as Hrange.
  fold start in Hrange. lia.
Qed.

(** *** A car without motion *)

Lemma vehicleAnimFunc_noop_without_motion_witness :
  let wheel := Inst.mk mat4_identity vec3_create vec3_create carBox in
  let parked :=
    set_modelInstance [wheel; wheel; wheel]
      (newObjectRenderer (carSpawnAt 0 0) carBox (Def.mk 1 false) None) in
  animFuncSelect (Spawn.objectId (objectSpawn parked)) = Some Anim_vehicle
  /\ motionState parked = None
  /\ callAnimFunc Anim_vehicle parked 1 = Some parked.
Proof.
  intros wheel parked.
  assert (Hsel : animFuncSelect (Spawn.objectId (objectSpawn parked))
                 = Some Anim_vehicle) by reflexivity.
  assert (Hnone : motionState parked = None) by reflexivity.
  split; [exact Hsel |]. split; [exact Hnone |].
  exact (proj1 (vehicleAnimFunc_noop_without_motion parked 1 Hsel Hnone)).
Defined.

(** * More about the objects *)

(** ** The constructor *)

Lemma speedTable_entries (i : Z) :
  (0 <= i < 12)%Z ->
  nth_error speedTable (Z.to_nat i) = Some (Float32Array_get speedTable i)
  /\ 0 <= Float32Array_get speedTable i <= 200.
Proof.
  intros Hi.
  assert (H : i = 0%Z \/ i = 1%Z \/ i = 2%Z \/ i = 3%Z \/ i = 4%Z \/ i = 5%Z
              \/ i = 6%Z \/ i = 7%Z \/ i = 8%Z \/ i = 9%Z \/ i = 10%Z
              \/ i = 11%Z) by lia.
  repeat (destruct H as [-> | H]); try subst i;
    (split; [reflexivity | unfold Float32Array_get; simpl; lra]).
Qed.

(** X1. The speed of a new motion state is the speed of the path when that
    is not negative; otherwise it is the entry of the speed table the
    definition of the object points to, or 0 when the definition points to
    none.  With an index within the table it is never negative and at most
    200. *)
Theorem newMotionState_speed :
  forall (objectSpawn : Spawn.t) (def : Def.t) (motion : Params.t),
    (Def.speedIndex def < 12)%Z ->
    let created := newMotionState objectSpawn def motion in
    (0 <= Params.speed motion -> speed created = Params.speed motion)
    /\ (Params.speed motion < 0 ->
        (Def.speedIndex def < 0)%Z -> speed created = 0)
    /\ (Params.speed motion < 0 ->
        (0 <= Def.speedIndex def)%Z ->
        nth_error speedTable (Z.to_nat (Def.speedIndex def))
        = Some (speed created)
        /\ speed created <= 200)
    /\ 0 <= speed created.
Proof.
  intros objectSpawn def motion Hidx created.
  assert (Hspeed :
            speed created
            = if Rltb (Params.speed motion) 0 then
                if (0 <=? Def.speedIndex def)%Z
                then Float32Array_get speedTable (Def.speedIndex def)
                else 0
              else Params.speed motion) by reflexivity.
  rewrite Hspeed. clear Hspeed created.
  destruct (Rltb (Params.speed motion) 0) eqn:Hneg;
    [apply Rltb_true in Hneg | apply Rltb_false in Hneg].
  - destruct (Z.leb_spec 0 (Def.speedIndex def)) as [Hge | Hlt].
    + destruct (speedTable_entries (Def.speedIndex def)) as [Hnth Hrange];
        [lia |].
      repeat split; try lra; try lia. exact Hnth.
    + repeat split; try lra; try lia.
  - repeat split; try lra.
Qed.

Lemma newMotionState_speed_witness :
  (Def.speedIndex (Def.mk 10 false) < 12)%Z
  /\ speed (newMotionState carSpawn (Def.mk 10 false)
              (Params.mk MotionID.SIMPLE_PATH 0 (-1) twoPointPath)) = 200.
Proof.
  split; [cbn; lia |].
  pose proof (newMotionState_speed carSpawn (Def.mk 10 false)
                (Params.mk MotionID.SIMPLE_PATH 0 (-1) twoPointPath)) as H.
  cbv zeta in H.
  destruct H as (_ & _ & Htable & _); [cbn; lia |].
  destruct Htable as [Hnth _]; [cbn; lra | cbn; lia |].
  change (nth_error speedTable (Z.to_nat (Def.speedIndex (Def.mk 10 false))))
    with (Some 200) in Hnth.
  congruence.
Defined.

(** ** Animation *)

Lemma list_set_length {A : Type} (l : list A) (i : nat) (a : A) :
  length (list_set l i a) = length l.
Proof.
  revert i. induction l as [| h t IH]; intros [| j]; cbn; auto.
Qed.

Lemma nth_error_list_set {A : Type} (l : list A) (i j : nat) (a : A) :
  nth_error (list_set l i a) j
  = if (i =? j)%nat && (i <? length l)%nat then Some a else nth_error l j.
Proof.
  revert i j. induction l as [| h t IH]; intros [| i] [| j]; cbn; auto.
  all: try rewrite andb_false_r; auto.
Qed.

Lemma rotateObject_keeps (inst : Inst.t) (dt : R) (axis : Axis) (value : R) :
  mat4_getTranslation (Inst.modelMatrix (rotateObject inst dt axis value))
  = mat4_getTranslation (Inst.modelMatrix inst)
  /\ Inst.translation (rotateObject inst dt axis value) = Inst.translation inst
  /\ Inst.bbox (rotateObject inst dt axis value) = Inst.bbox inst.
Proof. destruct axis; repeat split. Qed.

Lemma turned_only_refl (indices : list nat) (object : ObjectRenderer) :
  turned_only indices object object.
Proof.
  repeat split; try reflexivity.
  intros i inst H. exists inst. repeat split; auto.
Qed.

Lemma turned_only_trans (l1 l2 l : list nat) (o1 o2 o3 : ObjectRenderer) :
  incl l1 l -> incl l2 l ->
  turned_only l1 o1 o2 -> turned_only l2 o2 o3 -> turned_only l o1 o3.
Proof.
  intros H1 H2 (A1 & A2 & A3 & A4 & A5 & A6 & A7 & A8)
    (B1 & B2 & B3 & B4 & B5 & B6 & B7 & B8).
  repeat split; try congruence.
  intros i inst Hi.
  destruct (A8 i inst Hi) as (inst' & Hi' & T1 & T2 & T3 & T4).
  destruct (B8 i inst' Hi') as (inst'' & Hi'' & U1 & U2 & U3 & U4).
  exists inst''. repeat split; try congruence.
  intros Hnot. rewrite U4, T4; auto.
Qed.

Lemma rotateInstance_None (object : ObjectRenderer) (i : nat) (dt : R)
    (axis : Axis) (value : R) :
  rotateInstance object i dt axis value = None
  <-> (length (modelInstance object) <= i)%nat.
Proof.
  unfold rotateInstance.
  destruct (nth_error (modelInstance object) i) eqn:H.
  - split; [discriminate |]. intros Hlen.
    apply nth_error_None in Hlen. congruence.
  - split; [| reflexivity]. intros _. now apply nth_error_None.
Qed.

Lemma rotateInstance_Some (object object' : ObjectRenderer) (i : nat)
    (dt : R) (axis : Axis) (value : R) :
  rotateInstance object i dt axis value = Some object' ->
  turned_only [i] object object'.
Proof.
  unfold rotateInstance.
  destruct (nth_error (modelInstance object) i) as [inst0 |] eqn:H0;
    [| discriminate].
  intros [= <-]. repeat split; try reflexivity.
  - cbn. apply list_set_length.
  - intros j inst Hj. cbn [modelInstance set_modelInstance].
    rewrite nth_error_list_set.
    destruct (Nat.eqb_spec i j) as [-> | Hne].
    + assert (Hlt : (j <? length (modelInstance object))%nat = true).
      { apply Nat.ltb_lt. apply nth_error_Some. congruence. }
      rewrite Hlt. cbn [andb].
      assert (inst0 = inst) by congruence. subst inst0.
      exists (rotateObject inst dt axis value).
      destruct (rotateObject_keeps inst dt axis value) as (K1 & K2 & K3).
      repeat split; auto.
      intros Hnot. exfalso. apply Hnot. now left.
    + cbn [andb]. exists inst. repeat split; auto.
Qed.

(** X3. An animation function throws a TypeError exactly when the object
    lacks one of the sub-models the function turns: the sub-model 1 for the
    lucky-draw wheel, the compass and the windmill, the sub-models 1 and 2
    for the first plane and for a vehicle that has a motion state, the
    sub-models 0 and 2 for the second plane, and none for a vehicle without
    a motion state. *)
Theorem callAnimFunc_TypeError :
  forall (f : AnimFunc) (object : ObjectRenderer) (deltaTimeInFrames : R),
    callAnimFunc f object deltaTimeInFrames = None
    <-> exists i : nat,
          In i (rotatedInstances f object)
          /\ (length (modelInstance object) <= i)%nat.
Proof.
  assert (Hone :
            forall object i dt axis value,
              rotateInstance object i dt axis value = None
              <-> exists j : nat,
                    In j [i] /\ (length (modelInstance object) <= j)%nat).
  { intros object i dt axis value. rewrite rotateInstance_None. split.
    - intros H. exists i. split; [now left | exact H].
    - intros (j & [<- | []] & H). exact H. }
  assert (Htwo :
            forall object i j dt axis1 value1 axis2 value2,
              match rotateInstance object i dt axis1 value1 with
              | Some object' => rotateInstance object' j dt axis2 value2
              | None => None
              end = None
              <-> exists k : nat,
                    In k [i; j] /\ (length (modelInstance object) <= k)%nat).
  { intros object i j dt axis1 value1 axis2 value2.
    destruct (rotateInstance object i dt axis1 value1) as [object' |] eqn:H1.
    - pose proof (rotateInstance_Some _ _ _ _ _ _ H1)
        as (_ & _ & _ & _ & _ & _ & Hlen & _).
      rewrite rotateInstance_None, Hlen. split.
      + intros H. exists j. split; [right; now left | exact H].
      + intros (k & [<- | [<- | []]] & H); [| exact H].
        assert (Hnone : rotateInstance object i dt axis1 value1 = None)
          by now apply rotateInstance_None.
        congruence.
    - split; [| reflexivity]. intros _.
      apply rotateInstance_None in H1. exists i. split; [now left | exact H1]. }
  intros f object dt. destruct f; cbn [callAnimFunc rotatedInstances].
  - apply Hone.
  - apply Hone.
  - apply Hone.
  - unfold vehicleAnimFunc. destruct (motionState object).
    + apply Htwo.
    + split; [discriminate | intros (i & [] & _)].
  - apply Htwo.
  - apply Htwo.
Qed.

Lemma callAnimFunc_turned_only :
  forall (f : AnimFunc) (object object' : ObjectRenderer) (dt : R),
    callAnimFunc f object dt = Some object' ->
    turned_only (rotatedInstances f object) object object'.
Proof.
  assert (Htwo :
            forall object object' i j dt axis1 value1 axis2 value2,
              match rotateInstance object i dt axis1 value1 with
              | Some object1 => rotateInstance object1 j dt axis2 value2
              | None => None
              end = Some object' ->
              turned_only [i; j] object object').
  { intros object object' i j dt axis1 value1 axis2 value2 H.
    destruct (rotateInstance object i dt axis1 value1) as [object1 |] eqn:H1;
      [| discriminate].
    apply (turned_only_trans [i] [j] [i; j] object object1 object').
    - intros k [<- | []]. now left.
    - intros k [<- | []]. right. now left.
    - eapply rotateInstance_Some; eassumption.
    - eapply rotateInstance_Some; eassumption. }
  intros f object object' dt H.
  destruct f; cbn [callAnimFunc rotatedInstances] in *.
  - eapply rotateInstance_Some; eassumption.
  - eapply rotateInstance_Some; eassumption.
  - eapply rotateInstance_Some; eassumption.
  - unfold vehicleAnimFunc in H. destruct (motionState object).
    + eapply Htwo; eassumption.
    + injection H as <-. apply turned_only_refl.
  - eapply Htwo; eassumption.
  - eapply Htwo; eassumption.
Qed.

(** X4. An animation function that returns has changed nothing but the
    world matrix and the Euler angles of the sub-models it turns: the object
    has the same sub-models in the same number, each where it was (the
    translation column of its matrix, its rest-pose translation and its
    bounding box are as before), the sub-models the function does not turn
    are untouched, and so are the motion state and every other field of the
    object. *)
Theorem callAnimFunc_turns_only :
  forall (f : AnimFunc) (object object' : ObjectRenderer)
         (deltaTimeInFrames : R),
    callAnimFunc f object deltaTimeInFrames = Some object' ->
    objectSpawn object' = objectSpawn object
    /\ bbox object' = bbox object
    /\ visible object' = visible object
    /\ animFunc object' = animFunc object
    /\ motionFunc object' = motionFunc object
    /\ motionState object' = motionState object
    /\ length (modelInstance object') = length (modelInstance object)
    /\ forall (i : nat) (inst : Inst.t),
         nth_error (modelInstance object) i = Some inst ->
         exists inst' : Inst.t,
           nth_error (modelInstance object') i = Some inst'
           /\ mat4_getTranslation (Inst.modelMatrix inst')
              = mat4_getTranslation (Inst.modelMatrix inst)
           /\ Inst.translation inst' = Inst.translation inst
           /\ Inst.bbox inst' = Inst.bbox inst
           /\ (~ In i (rotatedInstances f object) -> inst' = inst).
Proof.
  intros f object object' dt H.
  exact (callAnimFunc_turned_only f object object' dt H).
Qed.

Lemma callAnimFunc_turns_only_witness :
  exists object' : ObjectRenderer,
    callAnimFunc Anim_WINDMILL01_G windmill 1 = Some object'
    /\ motionState object' = motionState windmill
    /\ length (modelInstance object') = 2%nat.
Proof.
  eexists. split; [reflexivity |].
  pose proof (callAnimFunc_turns_only Anim_WINDMILL01_G windmill _ 1 eq_refl)
    as (_ & _ & _ & _ & _ & Hstate & Hlen & _).
  split; [exact Hstate | exact Hlen].
Defined.

(** ** The start of a path *)

(** X5. On a path of [n] waypoints, [n] at least 1, the start index is the
    index of a waypoint: it is at least 0 and less than [n], wherever the
    object is. *)
Theorem findPathStartIndex_in_path :
  forall (pos : vec3) (path : list R) (n : nat),
    (1 <= n)%nat ->
    length path = (4 * n)%nat ->
    (0 <= findPathStartIndex pos path < waypointCount path)%Z
    /\ waypointCount path = Z.of_nat n.
Proof.
  intros pos path n Hn Hlen.
  assert (Hcount : waypointCount path = Z.of_nat n).
  { unfold waypointCount, Float32Array_length. rewrite Hlen.
    rewrite Nat2Z.inj_mul. change (Z.of_nat 4) with 4%Z.
    rewrite Z.mul_comm. apply Z.div_mul. lia. }
  split; [| exact Hcount]. rewrite Hcount.
  apply findPathStartIndex_range; assumption.
Qed.

Lemma findPathStartIndex_in_path_witness :
  (1 <= 4)%nat
  /\ length squarePath = (4 * 4)%nat
  /\ (0 <= findPathStartIndex (Vec3 1 0 10) squarePath
      < waypointCount squarePath)%Z.
Proof.
  assert (Hn : (1 <= 4)%nat) by lia.
  assert (Hlen : length squarePath = (4 * 4)%nat) by reflexivity.
  split; [exact Hn |]. split; [exact Hlen |].
  exact (proj1 (findPathStartIndex_in_path (Vec3 1 0 10) squarePath 4 Hn Hlen)).
Defined.

Lemma findPathStartIndex_no_loop (pos : vec3) (path : list R) :
  (length path <= 4)%nat -> findPathStartIndex pos path = 0%Z.
Proof.
  intros Hlen. unfold findPathStartIndex, findPathStartIndex_loop,
    findPathStartIndex_indices.
  assert (H : ((length path + 3) / 4 - 1 = 0)%nat).
  { assert ((length path + 3) / 4 < 2)%nat; [| lia].
    apply Nat.Div0.div_lt_upper_bound. lia. }
  rewrite H. reflexivity.
Qed.

Lemma findPathStartIndex_two (pos : vec3) (path : list R) :
  length path = 8%nat -> findPathStartIndex pos path = 1%Z.
Proof.
  intros Hlen. unfold findPathStartIndex, findPathStartIndex_loop,
    findPathStartIndex_indices.
  rewrite Hlen. change ((8 + 3) / 4 - 1)%nat with 1%nat.
  cbn [seq map fold_left]. unfold findPathStartIndex_body.
  cbn [minDist secPoint minPoint secDist].
  destruct (Rltb _ _); reflexivity.
Qed.

(** X6. The short paths.  On a path of at most one waypoint (an empty path
    too) the loop of [findPathStartIndex] is not entered and the start index
    is 0.  On a path of two waypoints the start index is 1, the last
    waypoint, wherever the object is; the start block of [followPath], which
    moves on to the waypoint after the start, then leaves [pathIndex] at 2,
    the number of waypoints. *)
Theorem findPathStartIndex_short_paths :
  forall (object : ObjectRenderer) (motion : MotionState),
    let path := Params.pathPoints (parameters motion) in
    ((length path <= 4)%nat -> findPathStartIndex (pos motion) path = 0%Z)
    /\ (length path = 8%nat ->
        findPathStartIndex (pos motion) path = 1%Z
        /\ pathIndex (followPath_init object motion) = 2%Z
        /\ waypointCount path = 2%Z).
Proof.
  intros object motion path. split.
  - apply findPathStartIndex_no_loop.
  - intros Hlen.
    pose proof (findPathStartIndex_two (pos motion) path Hlen) as Hstart.
    split; [exact Hstart |]. split.
    + destruct (followPath_init_fields object motion) as [Hi _].
      cbv zeta in Hi. fold path in Hi. rewrite Hi, Hstart. reflexivity.
    + unfold waypointCount, Float32Array_length. rewrite Hlen. reflexivity.
Qed.

Lemma findPathStartIndex_short_paths_witness :
  length (Params.pathPoints (parameters (newCar 1 twoPointPath))) = 8%nat
  /\ pathIndex (followPath_init (squareCar 1 0 1) (newCar 1 twoPointPath)) = 2%Z.
Proof.
  assert (Hlen : length (Params.pathPoints (parameters (newCar 1 twoPointPath)))
                 = 8%nat) by reflexivity.
  split; [exact Hlen |].
  pose proof (findPathStartIndex_short_paths (squareCar 1 0 1)
                (newCar 1 twoPointPath))
    as [_ H].
  exact (proj1 (proj2 (H Hlen))).
Defined.

(** ** Along the path *)

Lemma targetNextPointTimes_parameters (k : nat) (motion : MotionState)
    (yOffset : R) :
  parameters (targetNextPointTimes k motion yOffset) = parameters motion.
Proof.
  induction k as [| k IH]; [reflexivity |].
  cbn [targetNextPointTimes]. now rewrite targetNextPoint_parameters.
Qed.

Lemma nextIndex_mod (motion : MotionState) (n : Z) :
  pathLength motion = (4 * n)%Z ->
  (0 <= pathIndex motion < n)%Z ->
  nextIndex motion = ((pathIndex motion + 1) mod n)%Z.
Proof.
  intros Hlen Hidx. unfold nextIndex. rewrite Hlen.
  destruct (Z.eqb_spec ((pathIndex motion + 1) * 4) (4 * n)) as [Heq | Hne].
  - assert (pathIndex motion + 1 = n)%Z as -> by lia.
    symmetry. apply Z_mod_same_full.
  - symmetry. apply Z.mod_small. lia.
Qed.

(** X7. The path is a cycle.  From a motion state on a path of [n]
    waypoints, [k] calls of [targetNextPoint] leave [pathIndex] at
    [(pathIndex + k) mod n]: the waypoints are taken in their order, the
    first one after the last one, and [n] calls bring the index back to
    where it was.  After each call the object stands where its target was,
    and its new target is the waypoint of the new index, lowered by
    [yOffset]. *)
Theorem targetNextPoint_cycle :
  forall (motion : MotionState) (yOffset : R) (n : Z) (k : nat),
    pathLength motion = (4 * n)%Z ->
    (0 <= pathIndex motion < n)%Z ->
    let reached := targetNextPointTimes k motion yOffset in
    let next := targetNextPoint reached yOffset in
    pathIndex reached = ((pathIndex motion + Z.of_nat k) mod n)%Z
    /\ pathIndex (targetNextPointTimes (Z.to_nat n) motion yOffset)
       = pathIndex motion
    /\ pos next = target reached
    /\ target next
       = (let p := pathPoint (Params.pathPoints (parameters motion))
                     (pathIndex next) in
          Vec3 (e0 p) (e1 p - yOffset) (e2 p)).
Proof.
  intros motion yOffset n k Hlen Hidx.
  assert (Hsteps :
            forall j : nat,
              pathIndex (targetNextPointTimes j motion yOffset)
              = ((pathIndex motion + Z.of_nat j) mod n)%Z).
  { induction j as [| j IH].
    - cbn [targetNextPointTimes]. rewrite Z.add_0_r.
      symmetry. apply Z.mod_small. exact Hidx.
    - cbn [targetNextPointTimes]. rewrite targetNextPoint_pathIndex.
      rewrite (nextIndex_mod _ n).
      + rewrite IH. rewrite Zplus_mod_idemp_l. f_equal. lia.
      + unfold pathLength. rewrite targetNextPointTimes_parameters.
        exact Hlen.
      + rewrite IH. apply Z.mod_pos_bound. lia. }
  intros reached next. split; [apply Hsteps |]. split.
  - rewrite Hsteps. rewrite Z2Nat.id by lia.
    rewrite <- (Z.mul_1_l n) at 1. rewrite Z.mod_add by lia.
    apply Z.mod_small. exact Hidx.
  - split.
    + apply targetNextPoint_pos.
    + unfold next. rewrite targetNextPoint_target, targetNextPoint_pathIndex.
      unfold reached. rewrite targetNextPointTimes_parameters.
      reflexivity.
Qed.

Lemma targetNextPoint_cycle_witness :
  pathLength standingCar = (4 * 2)%Z
  /\ (0 <= pathIndex standingCar < 2)%Z
  /\ pathIndex (targetNextPointTimes 3 standingCar 0) = 1%Z
  /\ pathIndex (targetNextPointTimes 2 standingCar 0) = 0%Z.
Proof.
  assert (Hlen : pathLength standingCar = (4 * 2)%Z) by reflexivity.
  assert (Hidx : (0 <= pathIndex standingCar < 2)%Z) by (cbn; lia).
  split; [exact Hlen |]. split; [exact Hidx |]. split.
  - exact (proj1 (targetNextPoint_cycle standingCar 0 2 3 Hlen Hidx)).
  - exact (proj1 (proj2 (targetNextPoint_cycle standingCar 0 2 0 Hlen Hidx))).
Defined.

(** [followPath] up to the yaw lines, from a state that has a waypoint. *)
Lemma followPath_before_yaw_started (object : ObjectRenderer) (dt : R)
    (motion : MotionState) (scratch : mat4) :
  (0 <= pathIndex motion)%Z ->
  exists pitched : MotionState,
    pathIndex pitched = pathIndex motion
    /\ pos pitched = pos motion
    /\ target pitched = target motion
    /\ velocity pitched = velocity motion
    /\ speed pitched = speed motion
    /\ parameters pitched = parameters motion
    /\ fst (followPath_before_yaw object dt motion scratch)
       = if Rleb (vec3_dist (target motion) (pos motion)) (speed motion * dt)
         then targetNextPoint pitched (maxY (bbox object))
         else pitched.
Proof.
  intros Hidx. unfold followPath_before_yaw.
  rewrite (proj2 (Z.ltb_ge _ _) Hidx).
  pose proof (adjustBasePitch_untouched motion dt scratch) as Hpitch.
  cbv zeta in Hpitch.
  destruct (adjustPitch motion).
  - destruct (adjustBasePitch motion dt scratch) as [pitched s].
    cbn [fst] in Hpitch.
    destruct Hpitch as (H1 & H2 & H3 & H4 & H5 & H6 & _).
    exists pitched. rewrite H2, H3, H5.
    repeat split; assumption.
  - exists motion. repeat split.
Qed.

Lemma followPath_parameters (object : ObjectRenderer) (dt : R)
    (motion : MotionState) (scratch : mat4) :
  let motion' := snd (fst (followPath object dt motion scratch)) in
  parameters motion' = parameters motion /\ speed motion' = speed motion.
Proof.
  cbv zeta. rewrite followPath_unfold. cbv zeta. cbn [fst snd].
  change (parameters (set_pos ?v ?m)) with (parameters m).
  change (speed (set_pos ?v ?m)) with (speed m).
  destruct (followPath_yaw_untouched
              (fst (followPath_before_yaw object dt motion scratch)) dt)
    as (_ & _ & _ & _ & Hs & Hp).
  rewrite Hs, Hp. clear Hs Hp.
  unfold followPath_before_yaw.
  set (started := if (pathIndex motion <? 0)%Z
                  then followPath_init object motion else motion).
  assert (Hstarted : parameters started = parameters motion
                     /\ speed started = speed motion).
  { unfold started. destruct (pathIndex motion <? 0)%Z; [| now split].
    destruct (followPath_init_fields object motion)
      as (_ & _ & _ & Hs & Hp & _). now split. }
  destruct Hstarted as [Hp0 Hs0]. rewrite <- Hp0, <- Hs0.
  clearbody started.
  pose proof (adjustBasePitch_untouched started dt scratch) as Hpitch.
  cbv zeta in Hpitch.
  assert (Hpitched :
            let pitched := fst (if adjustPitch started
                                then adjustBasePitch started dt scratch
                                else (started, scratch)) in
            parameters pitched = parameters started
            /\ speed pitched = speed started).
  { destruct (adjustPitch started); [| now split].
    destruct Hpitch as (_ & _ & _ & _ & Hs & Hp & _). now split. }
  destruct (if adjustPitch started then _ else _) as [pitched s].
  cbn [fst] in Hpitched. destruct Hpitched as [Hp Hs].
  rewrite <- Hp, <- Hs.
  destruct (Rleb _ _); cbn [fst].
  - now rewrite targetNextPoint_parameters, targetNextPoint_speed.
  - now split.
Qed.

Lemma followPathFrames_in_range (object : ObjectRenderer) (n : Z)
    (steps : list R) :
  forall (motion : MotionState) (scratch : mat4),
    pathLength motion = (4 * n)%Z ->
    (0 <= pathIndex motion < n)%Z ->
    let motion' := fst (followPathFrames object motion scratch steps) in
    (0 <= pathIndex motion' < n)%Z
    /\ parameters motion' = parameters motion
    /\ speed motion' = speed motion.
Proof.
  induction steps as [| dt rest IH]; intros motion scratch Hlen Hidx.
  - cbn. repeat split; lia.
  - cbn [followPathFrames]. cbv zeta.
    destruct (followPath_parameters object dt motion scratch) as [Hp Hs].
    pose proof (followPath_pathIndex_in_range object dt motion scratch n
                  Hlen Hidx) as Hnext.
    destruct (IH (snd (fst (followPath object dt motion scratch)))
                (snd (followPath object dt motion scratch))) as (A & B & C).
    + unfold pathLength in *. now rewrite Hp.
    + exact Hnext.
    + cbv zeta in A, B, C. repeat split; try apply A; congruence.
Qed.

(** X8. Once [pathIndex] is the index of a waypoint it stays one: from a
    motion state with [0 <= pathIndex < n] on a path of [n] waypoints, any
    number of [followPath] updates with any time steps leave [pathIndex] at
    least 0 and less than [n], and change neither the path nor the speed.
    From a new motion state ([pathIndex] negative) the same holds after the
    first update when the start index is not the last waypoint. *)
Theorem followPath_stays_on_path :
  forall (object : ObjectRenderer) (motion : MotionState) (scratch : mat4)
         (n : nat) (dt : R) (steps : list R),
    (1 <= n)%nat ->
    length (Params.pathPoints (parameters motion)) = (4 * n)%nat ->
    (0 <= pathIndex motion < Z.of_nat n)%Z
    \/ ((pathIndex motion < 0)%Z
        /\ findPathStartIndex (pos motion)
             (Params.pathPoints (parameters motion))
           <> (Z.of_nat n - 1)%Z) ->
    let motion' := fst (followPathFrames object motion scratch (dt :: steps)) in
    (0 <= pathIndex motion' < Z.of_nat n)%Z
    /\ parameters motion' = parameters motion
    /\ speed motion' = speed motion.
Proof.
  intros object motion scratch n dt steps Hn Hlen Hstart.
  assert (Hlen' : pathLength motion = (4 * Z.of_nat n)%Z).
  { unfold pathLength, Float32Array_length. rewrite Hlen. lia. }
  destruct Hstart as [Hidx | [Hneg Hnotlast]].
  - apply followPathFrames_in_range; assumption.
  - cbn [followPathFrames]. cbv zeta.
    destruct (followPath_parameters object dt motion scratch) as [Hp Hs].
    assert (Hfirst :
              (0 <= pathIndex (snd (fst (followPath object dt motion scratch)))
               < Z.of_nat n)%Z).
    { rewrite followPath_pathIndex_before_yaw.
      unfold followPath_before_yaw.
      rewrite (proj2 (Z.ltb_lt _ _) Hneg).
      set (started := followPath_init object motion).
      assert (Hstarted : (0 <= pathIndex started < Z.of_nat n)%Z
                         /\ parameters started = parameters motion).
      { destruct (followPath_init_in_range object motion n Hn Hlen)
          as [Hrange Hiff].
        cbv zeta in Hiff. fold started in Hrange, Hiff.
        split; [split; [lia | now apply Hiff] |].
        apply (followPath_init_fields object motion). }
      destruct Hstarted as [Hidx Hpar]. clearbody started.
      pose proof (adjustBasePitch_untouched started dt scratch) as Hpitch.
      cbv zeta in Hpitch.
      assert (Hpitched :
                let pitched := fst (if adjustPitch started
                                    then adjustBasePitch started dt scratch
                                    else (started, scratch)) in
                pathIndex pitched = pathIndex started
                /\ parameters pitched = parameters started).
      { destruct (adjustPitch started); [| now split].
        destruct Hpitch as (Hi & _ & _ & _ & _ & Hq & _). now split. }
      destruct (if adjustPitch started then _ else _) as [pitched s].
      cbn [fst] in Hpitched. destruct Hpitched as [Hi Hq].
      destruct (Rleb _ _); cbn [fst].
      - rewrite targetNextPoint_pathIndex.
        apply nextIndex_in_range; [| lia].
        unfold pathLength in *. now rewrite Hq, Hpar.
      - lia. }
    destruct (followPathFrames_in_range object (Z.of_nat n) steps
                (snd (fst (followPath object dt motion scratch)))
                (snd (followPath object dt motion scratch))) as (A & B & C).
    + unfold pathLength in *. now rewrite Hp.
    + exact Hfirst.
    + cbv zeta in A, B, C. repeat split; try apply A; congruence.
Qed.

Lemma followPath_stays_on_path_witness :
  (0 <= pathIndex cruisingCar < Z.of_nat 4)%Z
  /\ (0 <= pathIndex
             (fst (followPathFrames (squareCar 1 0 1) cruisingCar
                     mat4_identity [1; 2; 1 / 2]%R))
      < Z.of_nat 4)%Z.
Proof.
  assert (Hn : (1 <= 4)%nat) by lia.
  assert (Hlen : length (Params.pathPoints (parameters cruisingCar))
                 = (4 * 4)%nat) by reflexivity.
  assert (Hidx : (0 <= pathIndex cruisingCar < Z.of_nat 4)%Z) by (cbn; lia).
  split; [exact Hidx |].
  exact (proj1 (followPath_stays_on_path (squareCar 1 0 1) cruisingCar
                  mat4_identity 4 1 [2; 1 / 2] Hn Hlen (or_introl Hidx))).
Defined.

(** X9. An update takes at most one waypoint.  From a state that has a
    waypoint, an update whose target is within reach (no farther than
    [speed * deltaTimeInFrames]) puts the object on that target, moves
    [pathIndex] on by one waypoint (to 0 after the last) and then moves the
    object a whole time step along the new velocity; an update whose target
    is out of reach keeps index, target and velocity and moves the object a
    time step along its velocity. *)
Theorem followPath_one_waypoint_a_frame :
  forall (object : ObjectRenderer) (deltaTimeInFrames : R)
         (motion : MotionState) (scratch : mat4),
    (0 <= pathIndex motion)%Z ->
    let motion' :=
      snd (fst (followPath object deltaTimeInFrames motion scratch)) in
    (vec3_dist (target motion) (pos motion) <= speed motion * deltaTimeInFrames
     -> pathIndex motion' = nextIndex motion
        /\ pos motion'
           = vec3_scaleAndAdd (target motion) (velocity motion')
               deltaTimeInFrames
        /\ target motion'
           = (let p := pathPoint (Params.pathPoints (parameters motion))
                         (nextIndex motion) in
              Vec3 (e0 p) (e1 p - maxY (bbox object)) (e2 p)))
    /\ (speed motion * deltaTimeInFrames
        < vec3_dist (target motion) (pos motion)
        -> pathIndex motion' = pathIndex motion
           /\ pos motion'
              = vec3_scaleAndAdd (pos motion) (velocity motion)
                  deltaTimeInFrames
           /\ target motion' = target motion
           /\ velocity motion' = velocity motion).
Proof.
  intros object dt motion scratch Hidx motion'.
  destruct (followPath_before_yaw_started object dt motion scratch Hidx)
    as (pitched & Hi & Hpos & Htarget & Hvel & Hspeed & Hpar & Hbefore).
  destruct (followPath_pos object dt motion scratch) as [Hpos' Htarget'].
  cbv zeta in Hpos', Htarget'. fold motion' in Hpos', Htarget'.
  assert (Hindex : pathIndex motion'
                   = pathIndex (fst (followPath_before_yaw object dt motion
                                       scratch)))
    by apply followPath_pathIndex_before_yaw.
  assert (Hvel' : velocity motion'
                  = velocity (fst (followPath_before_yaw object dt motion
                                     scratch))).
  { unfold motion'. rewrite followPath_unfold. cbv zeta. cbn [fst snd].
    change (velocity (set_pos ?v ?m)) with (velocity m).
    apply (followPath_yaw_untouched
             (fst (followPath_before_yaw object dt motion scratch)) dt). }
  split; intros Hreach.
  - apply Rleb_true in Hreach. rewrite Hreach in Hbefore.
    rewrite Hbefore in Hindex, Hpos', Htarget', Hvel'.
    rewrite targetNextPoint_pathIndex in Hindex.
    rewrite targetNextPoint_pos in Hpos'.
    rewrite targetNextPoint_target in Htarget'.
    split; [rewrite Hindex; unfold nextIndex, pathLength; now rewrite Hi, Hpar |].
    split.
    + rewrite Hpos', Hvel', Htarget. reflexivity.
    + rewrite Htarget'. cbv zeta. rewrite Hpar.
      replace (nextIndex pitched) with (nextIndex motion)
        by (unfold nextIndex, pathLength; now rewrite Hi, Hpar).
      reflexivity.
  - apply Rleb_false in Hreach. rewrite Hreach in Hbefore.
    rewrite Hbefore in Hindex, Hpos', Htarget', Hvel'.
    repeat split; congruence.
Qed.

Lemma followPath_one_waypoint_a_frame_witness :
  (0 <= pathIndex cruisingCar)%Z
  /\ pathIndex (snd (fst (followPath (squareCar 1 0 1) 1 cruisingCar
                            mat4_identity)))
     = pathIndex cruisingCar.
Proof.
  assert (Hidx : (0 <= pathIndex cruisingCar)%Z) by (cbn; lia).
  split; [exact Hidx |].
  assert (Hfar : speed cruisingCar * 1
                 < vec3_dist (target cruisingCar) (pos cruisingCar)).
  { apply cruisingCar_far. lra. }
  exact (proj1 (proj2 (followPath_one_waypoint_a_frame (squareCar 1 0 1) 1
                         cruisingCar mat4_identity Hidx) Hfar)).
Defined.

(** ** The other motion functions *)

Lemma Vec3_eta (v : vec3) : Vec3 (e0 v) (e1 v) (e2 v) = v.
Proof. now destruct v. Qed.

(** X12. Sway.  The update advances the phase by [PI / 45] a frame and
    sets the third Euler angle to [sin phase * TAU / 36]: the object never
    leans more than a thirty-sixth of a turn (ten degrees) to either side.
    For the balance doll the function reads no sub-model: it returns for
    every object and leaves the position alone.  For any other object it
    throws a TypeError exactly when the object has no sub-model. *)
Theorem miscSwayMotionFunc_lean :
  forall (object : ObjectRenderer) (deltaTimeInFrames : R)
         (motion : MotionState),
    let doll :=
      (Spawn.objectId (objectSpawn object) =? ObjectId.BALANCEDOLL01_C)%Z in
    match miscSwayMotionFunc object deltaTimeInFrames motion with
    | Some (_, motion') =>
        angle motion' = angle motion + deltaTimeInFrames * PI / 45
        /\ e2 (euler motion') = sin (angle motion') * TAU / 36
        /\ Rabs (e2 (euler motion')) <= PI / 18
        /\ e0 (euler motion') = e0 (euler motion)
        /\ e1 (euler motion') = e1 (euler motion)
        /\ (doll = true \/ modelInstance object <> [])
        /\ (doll = true -> pos motion' = pos motion)
    | None => doll = false /\ modelInstance object = []
    end.
Proof.
  intros object dt motion doll. unfold miscSwayMotionFunc. fold doll.
  assert (Hlean : forall a : R, Rabs (sin a * TAU / 36) <= PI / 18).
  { intros a. pose proof (SIN_bound a) as Hs. pose proof PI_RGT_0 as Hpi.
    unfold TAU. apply Rabs_le. nra. }
  destruct doll; cbn [negb].
  - cbn [angle euler pos set_angle set_euler vec3_set_e2 e0 e1 e2].
    repeat split; auto.
  - destruct (nth_error (modelInstance object) 0) as [inst0 |] eqn:H0.
    + cbn [angle euler pos set_angle set_euler set_pos vec3_set_e2 e0 e1 e2].
      repeat split; auto; try (intros; discriminate).
      right. intros Hnil. rewrite Hnil in H0. discriminate.
    + split; [reflexivity |].
      destruct (modelInstance object); [reflexivity | discriminate].
Qed.

Lemma miscSwayMotionFunc_lean_witness :
  match miscSwayMotionFunc balanceDoll 1 balanceDollMotion with
  | Some (_, motion') =>
      pos motion' = pos balanceDollMotion
      /\ Rabs (e2 (euler motion')) <= PI / 18
  | None => False
  end.
Proof.
  pose proof (miscSwayMotionFunc_lean balanceDoll 1 balanceDollMotion) as H.
  cbv zeta in H.
  destruct (miscSwayMotionFunc balanceDoll 1 balanceDollMotion)
    as [[b motion'] |].
  - destruct H as (_ & _ & Hlean & _ & _ & _ & Hdoll).
    split; [apply Hdoll; reflexivity | exact Hlean].
  - destruct H as [H _]. discriminate H.
Defined.

(** The timer of bob after a call. *)
Lemma miscBobMotionFunc_timer (object : ObjectRenderer) (dt random : R)
    (motion : MotionState) :
  0 <= random ->
  timer motion = -1 \/ 0 <= timer motion ->
  0 <= timer (snd (miscBobMotionFunc object dt motion random)).
Proof.
  intros Hr Ht. unfold miscBobMotionFunc. cbn [snd].
  destruct (Reqb (timer motion) (-1)) eqn:Hm;
    [apply Reqb_true in Hm | apply Reqb_false in Hm].
  - cbn [timer set_timer].
    destruct (Rltb (random * 60) dt) eqn:Hlt;
      [| apply Rltb_false in Hlt];
      cbn [timer set_timer set_pos set_angle]; lra.
  - destruct (Rltb (timer motion) dt) eqn:Hlt;
      [| apply Rltb_false in Hlt];
      cbn [timer set_timer set_pos set_angle]; lra.
Qed.

Lemma miscBobMotionFunc_no_random (object : ObjectRenderer) (dt r1 r2 : R)
    (motion : MotionState) :
  0 <= timer motion ->
  miscBobMotionFunc object dt motion r1 = miscBobMotionFunc object dt motion r2.
Proof.
  intros Ht. unfold miscBobMotionFunc.
  destruct (Reqb (timer motion) (-1)) eqn:Hm; [| reflexivity].
  apply Reqb_true in Hm. lra.
Qed.

Lemma bobFrames_no_random (object : ObjectRenderer)
    (frames1 : list Frame) :
  forall (frames2 : list Frame) (motion : MotionState),
    0 <= timer motion ->
    map fst frames1 = map fst frames2 ->
    bobFrames object motion frames1 = bobFrames object motion frames2
    /\ 0 <= timer (bobFrames object motion frames1).
Proof.
  induction frames1 as [| [t1 r1] rest1 IH];
    intros [| [t2 r2] rest2] motion Ht Hmap; try discriminate.
  - split; [reflexivity | exact Ht].
  - cbn [map fst] in Hmap. injection Hmap as -> Hrest.
    cbn [bobFrames].
    rewrite (miscBobMotionFunc_no_random object _ r1 r2 motion Ht).
    apply IH; [| exact Hrest].
    rewrite <- (miscBobMotionFunc_no_random object _ (Rabs r2) r2 motion Ht).
    apply miscBobMotionFunc_timer; [apply Rabs_pos | now right].
Qed.

Lemma bobFrames_horizontal (object : ObjectRenderer) (frames : list Frame) :
  forall motion : MotionState,
    let motion' := bobFrames object motion frames in
    e0 (pos motion') = e0 (pos motion)
    /\ e2 (pos motion') = e2 (pos motion)
    /\ euler motion' = euler motion
    /\ base motion' = base motion.
Proof.
  induction frames as [| [t r] rest IH]; intros motion; [now cbn |].
  cbn [bobFrames]. cbv zeta.
  destruct (IH (snd (miscBobMotionFunc object (deltaTimeInFrames_of t) motion
                       r))) as (A & B & C & D).
  rewrite A, B, C, D. clear.
  unfold miscBobMotionFunc. cbn [snd].
  destruct (Reqb _ _); destruct (Rltb _ _); repeat split.
Qed.

(** X13. Bob draws its start delay once.  From a motion state whose timer
    is -1 (a new one), the first update sets the timer to the random number
    times 60; from then on the timer is never negative, so it is never -1
    again and [Math.random ()] is not asked again: the states after the
    first frame do not depend on the random numbers of the later frames.
    Bob moves the object up and down only: the first and the third
    coordinate of its position, its Euler angles and its base matrix stay
    as they were. *)
Theorem miscBobMotionFunc_random_once :
  forall (object : ObjectRenderer) (motion : MotionState)
         (deltaTime random : R) (frames1 frames2 : list Frame),
    timer motion = -1 ->
    0 <= random ->
    map fst frames1 = map fst frames2 ->
    let motion1 := bobFrames object motion ((deltaTime, random) :: frames1) in
    let motion2 := bobFrames object motion ((deltaTime, random) :: frames2) in
    motion1 = motion2
    /\ 0 <= timer motion1
    /\ e0 (pos motion1) = e0 (pos motion)
    /\ e2 (pos motion1) = e2 (pos motion)
    /\ euler motion1 = euler motion
    /\ base motion1 = base motion.
Proof.
  intros object motion deltaTime random frames1 frames2 Htimer Hrandom Hmap
    motion1 motion2.
  assert (Hfirst :
            0 <= timer (snd (miscBobMotionFunc object
                               (deltaTimeInFrames_of deltaTime) motion
                               random))).
  { apply miscBobMotionFunc_timer; [exact Hrandom | now left]. }
  destruct (bobFrames_no_random object frames1 frames2 _ Hfirst Hmap)
    as [Hsame Hnonneg].
  split; [exact Hsame |]. split; [exact Hnonneg |].
  apply (bobFrames_horizontal object ((deltaTime, random) :: frames1) motion).
Qed.

Lemma miscBobMotionFunc_random_once_witness :
  timer (newMotionState (objectSpawn mole) (Def.mk 0 false)
           (Params.mk MotionID.MISC 0x16 1 [])) = -1
  /\ bobFrames mole
       (newMotionState (objectSpawn mole) (Def.mk 0 false)
          (Params.mk MotionID.MISC 0x16 1 []))
       [(33, 0); (33, 1 / 2); (33, 1 / 3)]
     = bobFrames mole
         (newMotionState (objectSpawn mole) (Def.mk 0 false)
            (Params.mk MotionID.MISC 0x16 1 []))
         [(33, 0); (33, 1 / 7); (33, 0)].
Proof.
  split; [reflexivity |].
  refine (proj1 (miscBobMotionFunc_random_once mole
                   (newMotionState (objectSpawn mole) (Def.mk 0 false)
                      (Params.mk MotionID.MISC 0x16 1 []))
                   33 0 [(33, 1 / 2); (33, 1 / 3)] [(33, 1 / 7); (33, 0)]
                   eq_refl _ eq_refl)).
  lra.
Defined.



(** ** The frame *)

Lemma miscSwayMotionFunc_flag (object : ObjectRenderer) (dt : R)
    (motion motion' : MotionState) (b : bool) :
  miscSwayMotionFunc object dt motion = Some (b, motion') -> b = true.
Proof.
  unfold miscSwayMotionFunc. destruct (negb _).
  - destruct (nth_error _ _); [| discriminate]. now intros [= <- _].
  - now intros [= <- _].
Qed.

Lemma miscWhackAMoleMotionFunc_flag (object : ObjectRenderer) (dt random : R)
    (motion motion' : MotionState) (b : bool) :
  miscWhackAMoleMotionFunc object dt motion random = Some (b, motion') ->
  b = false /\ final motion' = final motion.
Proof.
  unfold miscWhackAMoleMotionFunc, miscWhackAMole_restart.
  destruct (Reqb _ _); destruct (Rltb _ _);
    try (destruct (nth_error _ _); [| discriminate]);
    intros [= <- <-]; split; try reflexivity;
    cbn [angle set_angle]; try destruct (Rltb _ _); reflexivity.
Qed.

Lemma callMotionFunc_rebuilds (f : MotionFunc) (object : ObjectRenderer)
    (dt random : R) (motion motion' : MotionState) (scratch scratch' : mat4)
    (b : bool) :
  callMotionFunc f object dt motion random scratch = Some (b, motion', scratch')
  -> b = rebuilds f.
Proof.
  destruct f; cbn [callMotionFunc rebuilds].
  - rewrite followPath_unfold. cbv zeta. now intros [= <- _ _].
  - unfold miscSpinMotionFunc. now intros [= <- _ _].
  - unfold miscBobMotionFunc. cbv beta iota zeta. now intros [= <- _ _].
  - unfold miscFlipMotionFunc. now intros [= <- _ _].
  - destruct (miscSwayMotionFunc object dt motion) as [[b0 m0] |] eqn:E;
      [| discriminate].
    intros [= <- _ _]. eapply miscSwayMotionFunc_flag; eassumption.
  - destruct (miscWhackAMoleMotionFunc object dt motion random)
      as [[b0 m0] |] eqn:E; [| discriminate].
    intros [= <- _ _]. eapply miscWhackAMoleMotionFunc_flag; eassumption.
Qed.

Lemma map_pointwise {A B : Type} (g g' : A -> B) (l : list A) :
  forall l' : list A,
    length l' = length l ->
    (forall (i : nat) (a : A),
        nth_error l i = Some a ->
        exists a' : A, nth_error l' i = Some a' /\ g' a' = g a) ->
    map g' l' = map g l.
Proof.
  induction l as [| h t IH]; intros [| h' t'] Hlen H; try discriminate.
  - reflexivity.
  - cbn [map]. f_equal.
    + destruct (H 0%nat h eq_refl) as (a' & Ha & Hg).
      cbn in Ha. now injection Ha as <-.
    + apply IH; [cbn in Hlen; lia |].
      intros i a Hi. exact (H (S i) a Hi).
Qed.

Section PrepareToRenderProofs.

Variable srt : mat4 -> R -> R -> R -> R -> R -> R -> R -> R -> R -> mat4.

(** The two ways through the motion block. *)
Lemma prepareToRender_motion_cases (object object1 : ObjectRenderer)
    (dt random : R) (scratch scratch1 : mat4) :
  prepareToRender_motion srt object dt random scratch
  = Some (object1, scratch1) ->
  ((motionFunc object = None \/ motionState object = None)
   /\ object1 = object /\ scratch1 = scratch)
  \/ exists (f : MotionFunc) (motion moved : MotionState),
       motionFunc object = Some f
       /\ motionState object = Some motion
       /\ callMotionFunc f object dt motion random scratch
          = Some (rebuilds f, moved, scratch1)
       /\ let motion' := if rebuilds f then rebuildFinal srt moved else moved in
          object1
          = set_modelInstance
              (map (prepareToRender_instance srt (rebuilds f) motion'
                      (pos motion)) (modelInstance object))
              (set_motionState (Some motion') object).
Proof.
  unfold prepareToRender_motion.
  destruct (motionFunc object) as [f |] eqn:Hf.
  - destruct (motionState object) as [motion |] eqn:Hm.
    + destruct (callMotionFunc f object dt motion random scratch)
        as [[[b moved] s] |] eqn:Hcall; [| discriminate].
      pose proof (callMotionFunc_rebuilds _ _ _ _ _ _ _ _ _ Hcall) as ->.
      intros [= <- <-]. right. exists f, motion, moved.
      repeat split; assumption.
    + intros [= <- <-]. left. repeat split. now right.
  - intros [= <- <-]. left. repeat split. now left.
Qed.

(** The two ways through the animation. *)
Lemma prepareToRender_cases (object object' : ObjectRenderer)
    (deltaTime random : R) (scratch scratch' : mat4) :
  prepareToRender srt object deltaTime random scratch
  = Some (object', scratch') ->
  (visible object = false /\ object' = object /\ scratch' = scratch)
  \/ (visible object = true
      /\ exists object1 : ObjectRenderer,
           prepareToRender_motion srt object (deltaTimeInFrames_of deltaTime)
             random scratch = Some (object1, scratch')
           /\ turned_only (animatedInstances object1) object1 object').
Proof.
  unfold prepareToRender. destruct (visible object); cbn [negb].
  - change (clamp (deltaTime / 33) 0 2) with (deltaTimeInFrames_of deltaTime).
    destruct (prepareToRender_motion srt object
                (deltaTimeInFrames_of deltaTime) random scratch)
      as [[object1 scratch1] |] eqn:Hmotion; [| discriminate].
    intros H. right. split; [reflexivity |]. exists object1.
    unfold animatedInstances.
    destruct (animFunc object1) as [f |].
    + destruct (callAnimFunc f object1 (deltaTimeInFrames_of deltaTime))
        as [object2 |] eqn:Hanim; [| discriminate].
      injection H as <- <-. split; [reflexivity |].
      eapply callAnimFunc_turned_only; eassumption.
    + injection H as <- <-. split; [reflexivity |]. apply turned_only_refl.
  - intros [= <- <-]. left. repeat split.
Qed.

Lemma animatedInstances_same (object object1 : ObjectRenderer) :
  animFunc object1 = animFunc object ->
  (motionState object1 = None <-> motionState object = None) ->
  animatedInstances object1 = animatedInstances object.
Proof.
  intros Ha Hm. unfold animatedInstances. rewrite Ha.
  destruct (animFunc object) as [f |]; [| reflexivity].
  destruct f; try reflexivity. cbn [rotatedInstances].
  destruct (motionState object1), (motionState object); try reflexivity.
  - destruct Hm as [_ Hm]. discriminate (Hm eq_refl).
  - destruct Hm as [Hm _]. discriminate (Hm eq_refl).
Qed.

Lemma frame_kept_refl (object : ObjectRenderer) : frame_kept object object.
Proof. repeat split; auto. Qed.

Lemma frame_kept_trans (o1 o2 o3 : ObjectRenderer) :
  frame_kept o1 o2 -> frame_kept o2 o3 -> frame_kept o1 o3.
Proof.
  intros (A1 & A2 & A3 & A4 & A5 & A6 & A7 & A8 & A9)
    (B1 & B2 & B3 & B4 & B5 & B6 & B7 & B8 & B9).
  repeat split; try congruence; try tauto.
Qed.

Lemma turned_only_kept (indices : list nat) (object object' : ObjectRenderer) :
  turned_only indices object object' -> frame_kept object object'.
Proof.
  intros (A1 & A2 & A3 & A4 & A5 & A6 & A7 & A8).
  repeat split; try assumption; try (rewrite A6; tauto).
  - apply map_pointwise; [exact A7 |].
    intros i a Hi. destruct (A8 i a Hi) as (a' & Ha & _ & Ht & _).
    now exists a'.
  - apply map_pointwise; [exact A7 |].
    intros i a Hi. destruct (A8 i a Hi) as (a' & Ha & _ & _ & Hb & _).
    now exists a'.
Qed.

Lemma prepareToRender_motion_kept (object object1 : ObjectRenderer)
    (dt random : R) (scratch scratch1 : mat4) :
  prepareToRender_motion srt object dt random scratch
  = Some (object1, scratch1) ->
  frame_kept object object1.
Proof.
  intros H. apply prepareToRender_motion_cases in H.
  destruct H as [(_ & -> & _) | (f & motion & moved & Hf & Hm & _ & ->)].
  - apply frame_kept_refl.
  - cbv zeta.
    repeat split; cbn [objectSpawn bbox visible animFunc motionFunc
                         motionState modelInstance set_modelInstance
                         set_motionState];
      try reflexivity; try (intros; congruence).
    + apply length_map.
    + rewrite map_map. reflexivity.
    + rewrite map_map. reflexivity.
Qed.

Lemma prepareToRender_kept (object object' : ObjectRenderer)
    (deltaTime random : R) (scratch scratch' : mat4) :
  prepareToRender srt object deltaTime random scratch
  = Some (object', scratch') ->
  frame_kept object object'.
Proof.
  intros H. apply prepareToRender_cases in H.
  destruct H as [(_ & -> & _) | (_ & object1 & Hmotion & Hanim)].
  - apply frame_kept_refl.
  - eapply frame_kept_trans.
    + eapply prepareToRender_motion_kept; eassumption.
    + eapply turned_only_kept; eassumption.
Qed.

(** A frame of an object that is not moved. *)
Lemma prepareToRender_still (object object' : ObjectRenderer)
    (deltaTime random : R) (scratch scratch' : mat4) :
  prepareToRender srt object deltaTime random scratch
  = Some (object', scratch') ->
  (visible object = false -> object' = object /\ scratch' = scratch)
  /\ (motionFunc object = None \/ motionState object = None ->
      motionState object' = motionState object /\ scratch' = scratch).
Proof.
  intros H. apply prepareToRender_cases in H.
  destruct H as [(Hv & -> & ->) | (Hv & object1 & Hmotion & Hanim)].
  - split; intros; now split.
  - split; [intros; congruence |]. intros Hno.
    apply prepareToRender_motion_cases in Hmotion.
    destruct Hmotion as [(_ & -> & ->) | (f & motion & moved & Hf & Hm & _)].
    + split; [| reflexivity]. apply Hanim.
    + destruct Hno; congruence.
Qed.

(** X15. What the frames keep.  Whatever the frames, [prepareToRender]
    changes neither what the object was made from (spawn, bounding box),
    nor its visibility flag, nor its animation and motion functions, nor
    the number of its sub-models, nor the rest pose and the bounding box of
    a sub-model; an object has a motion state after the frames exactly when
    it had one before.  An object that is not visible is not updated at
    all, and an object without a motion function or without a motion state
    keeps its motion state and the scratch matrix as they are. *)
Theorem prepareToRender_keeps :
  forall (object object' : ObjectRenderer) (scratch scratch' : mat4)
         (frames : list Frame),
    prepareToRenderFrames srt object scratch frames
    = Some (object', scratch') ->
    objectSpawn object' = objectSpawn object
    /\ bbox object' = bbox object
    /\ visible object' = visible object
    /\ animFunc object' = animFunc object
    /\ motionFunc object' = motionFunc object
    /\ (motionState object' = None <-> motionState object = None)
    /\ length (modelInstance object') = length (modelInstance object)
    /\ map Inst.translation (modelInstance object')
       = map Inst.translation (modelInstance object)
    /\ map Inst.bbox (modelInstance object')
       = map Inst.bbox (modelInstance object)
    /\ (visible object = false -> object' = object /\ scratch' = scratch)
    /\ (motionFunc object = None \/ motionState object = None ->
        motionState object' = motionState object /\ scratch' = scratch).
Proof.
  intros object object' scratch scratch' frames. revert object scratch.
  induction frames as [| [deltaTime random] rest IH]; intros object scratch H.
  - cbn in H. injection H as <- <-. repeat split; auto.
  - cbn [prepareToRenderFrames] in H.
    destruct (prepareToRender srt object deltaTime random scratch)
      as [[object1 scratch1] |] eqn:Hstep; [| discriminate].
    pose proof (prepareToRender_kept _ _ _ _ _ _ Hstep) as Hkept.
    pose proof (prepareToRender_still _ _ _ _ _ _ Hstep) as [Hinv Hstill].
    specialize (IH object1 scratch1 H).
    destruct IH as (B1 & B2 & B3 & B4 & B5 & B6 & B7 & B8 & B9 & Binv & Bstill).
    destruct Hkept as (A1 & A2 & A3 & A4 & A5 & A6 & A7 & A8 & A9).
    repeat match goal with |- _ /\ _ => split end;
      try congruence; try tauto.
    + intros Hv. destruct (Hinv Hv) as [-> ->]. now apply Binv.
    + intros Hno. destruct (Hstill Hno) as [Hm ->].
      rewrite <- Hm. apply Bstill. rewrite A5, Hm. exact Hno.
Qed.

(** A frame of a visible object that has a motion function and a motion
    state. *)
Lemma prepareToRender_moved (object object' : ObjectRenderer)
    (deltaTime random : R) (scratch scratch' : mat4) (f : MotionFunc)
    (motion : MotionState) :
  prepareToRender srt object deltaTime random scratch
  = Some (object', scratch') ->
  visible object = true ->
  motionFunc object = Some f ->
  motionState object = Some motion ->
  exists (moved : MotionState) (object1 : ObjectRenderer),
    callMotionFunc f object (deltaTimeInFrames_of deltaTime) motion random
      scratch
    = Some (rebuilds f, moved, scratch')
    /\ let motion' := if rebuilds f then rebuildFinal srt moved else moved in
       motionState object' = Some motion'
       /\ modelInstance object1
          = map (prepareToRender_instance srt (rebuilds f) motion'
                   (pos motion)) (modelInstance object)
       /\ turned_only (animatedInstances object) object1 object'.
Proof.
  intros H Hv Hf Hm. apply prepareToRender_cases in H.
  destruct H as [(Hv' & _) | (_ & object1 & Hmotion & Hanim)]; [congruence |].
  pose proof (prepareToRender_motion_kept _ _ _ _ _ _ Hmotion)
    as (_ & _ & _ & Ha & _ & Hs & _).
  rewrite (animatedInstances_same object object1 Ha Hs) in Hanim.
  apply prepareToRender_motion_cases in Hmotion.
  destruct Hmotion
    as [([Hno | Hno] & _) | (f' & motion0 & moved & Hf' & Hm' & Hcall & Heq)];
    try congruence.
  assert (f' = f) by congruence. assert (motion0 = motion) by congruence.
  subst f' motion0. exists moved, object1.
  split; [exact Hcall |]. cbv zeta in *.
  split; [| split; [| exact Hanim]].
  - destruct Hanim as (_ & _ & _ & _ & _ & Hstate & _).
    rewrite Hstate, Heq. reflexivity.
  - rewrite Heq. reflexivity.
Qed.

Lemma rebuildFinal_eq (moved : MotionState) :
  rebuildFinal srt moved
  = set_final
      (setMatrixTranslation
         (mat4_mul (base moved)
            (srt (final moved) 1 1 1
               (e0 (euler moved)) (e1 (euler moved)) (e2 (euler moved))
               0 0 0))
         (pos moved)) moved.
Proof. reflexivity. Qed.

(** X17. A frame of a motion function that asks for a rebuild (the path
    follower, spin, flip, sway) composes [final] anew: it is [base] times
    the transform of the Euler angles, with the position of the object as
    its translation column.  Every sub-model the animation function does
    not turn gets the matrix [final] times the transform of its rest pose;
    its Euler angles, its rest pose and its bounding box stay. *)
Theorem prepareToRender_rebuild :
  forall (object object' : ObjectRenderer) (deltaTime random : R)
         (scratch scratch' : mat4) (f : MotionFunc) (motion : MotionState),
    visible object = true ->
    motionFunc object = Some f ->
    rebuilds f = true ->
    motionState object = Some motion ->
    prepareToRender srt object deltaTime random scratch
    = Some (object', scratch') ->
    exists moved motion' : MotionState,
      callMotionFunc f object (deltaTimeInFrames_of deltaTime) motion random
        scratch
      = Some (true, moved, scratch')
      /\ motionState object' = Some motion'
      /\ motion'
         = set_final
             (setMatrixTranslation
                (mat4_mul (base moved)
                   (srt (final moved) 1 1 1
                      (e0 (euler moved)) (e1 (euler moved)) (e2 (euler moved))
                      0 0 0))
                (pos moved)) moved
      /\ mat4_getTranslation (final motion') = pos motion'
      /\ forall (i : nat) (inst : Inst.t),
           nth_error (modelInstance object) i = Some inst ->
           ~ In i (animatedInstances object) ->
           nth_error (modelInstance object') i
           = Some (Inst.mk
                     (mat4_mul (final motion')
                        (srt (Inst.modelMatrix inst) 1 1 1
                           (e0 (Inst.euler inst)) (e1 (Inst.euler inst))
                           (e2 (Inst.euler inst))
                           (e0 (Inst.translation inst))
                           (e1 (Inst.translation inst))
                           (e2 (Inst.translation inst))))
                     (Inst.euler inst) (Inst.translation inst)
                     (Inst.bbox inst)).
Proof.
  intros object object' deltaTime random scratch scratch' f motion Hv Hf Hr Hm
    H.
  destruct (prepareToRender_moved _ _ _ _ _ _ f motion H Hv Hf Hm)
    as (moved & object1 & Hcall & Hrest).
  rewrite Hr in Hcall, Hrest. cbv zeta in Hrest.
  destruct Hrest as (Hstate & Hinst & Hanim).
  exists moved, (rebuildFinal srt moved).
  split; [exact Hcall |]. split; [exact Hstate |].
  split; [apply rebuildFinal_eq |]. split.
  { rewrite rebuildFinal_eq.
    cbn [final set_final pos mat4_getTranslation setMatrixTranslation
         m12 m13 m14].
    apply Vec3_eta. }
  intros i inst Hi Hnot.
  destruct Hanim as (_ & _ & _ & _ & _ & _ & _ & Hsub).
  assert (Hi1 : nth_error (modelInstance object1) i
                = Some (prepareToRender_instance srt true
                          (rebuildFinal srt moved) (pos motion) inst)).
  { rewrite Hinst. now apply map_nth_error. }
  destruct (Hsub i _ Hi1) as (inst' & Hi' & _ & _ & _ & Hsame).
  rewrite Hi', (Hsame Hnot). reflexivity.
Qed.

End PrepareToRenderProofs.

Lemma prepareToRender_keeps_witness :
  exists (object' : ObjectRenderer) (scratch' : mat4),
    prepareToRenderFrames translationOnly windmill mat4_identity
      [(33, 0); (66, 0)]
    = Some (object', scratch')
    /\ length (modelInstance object') = 2%nat.
Proof.
  eexists. eexists. split; [reflexivity |].
  refine (proj1 (proj2 (proj2 (proj2 (proj2 (proj2 (proj2
            (prepareToRender_keeps translationOnly windmill _ mat4_identity _
               [(33, 0); (66, 0)] eq_refl)))))))).
Defined.

Lemma prepareToRender_rebuild_witness :
  exists (object' : ObjectRenderer) (scratch' : mat4) (motion' : MotionState),
    prepareToRender translationOnly top 33 0 mat4_identity
    = Some (object', scratch')
    /\ motionState object' = Some motion'
    /\ mat4_getTranslation (final motion') = pos motion'.
Proof.
  eexists. eexists.
  destruct (prepareToRender_rebuild translationOnly top _ 33 0 mat4_identity _
              Motion_miscSpin _ eq_refl eq_refl eq_refl eq_refl eq_refl)
    as (moved & motion' & _ & Hstate & _ & Htrans & _).
  exists motion'. split; [reflexivity |]. split; [exact Hstate | exact Htrans].
Defined.

(** ** Display *)

(** X18. [setActiveAreaNo] passes one flag to every sub-model, once each.
    The flag is [true] exactly in the areas from [dispOnAreaNo] up to, but
    not including, [dispOffAreaNo], and in every area from [dispOnAreaNo] on
    when [dispOffAreaNo] is -1: the areas in which an object is shown form
    an interval, and an object whose [dispOffAreaNo] is neither -1 nor
    above its [dispOnAreaNo] is shown in no area. *)
Theorem setActiveAreaNo_interval :
  forall (object : ObjectRenderer) (areaNo : Z),
    let on := Spawn.dispOnAreaNo (objectSpawn object) in
    let off := Spawn.dispOffAreaNo (objectSpawn object) in
    setActiveAreaNo object areaNo
    = repeat (shownInArea object areaNo) (length (modelInstance object))
    /\ (shownInArea object areaNo = true
        <-> (on <= areaNo)%Z /\ ((areaNo < off)%Z \/ off = (-1)%Z))
    /\ (forall a b : Z,
          shownInArea object a = true -> shownInArea object b = true ->
          (a <= areaNo <= b)%Z -> shownInArea object areaNo = true)
    /\ (off = (-1)%Z -> (shownInArea object areaNo = true <-> (on <= areaNo)%Z))
    /\ (off <> (-1)%Z -> (off <= on)%Z -> shownInArea object areaNo = false).
Proof.
  intros object areaNo on off.
  assert (Hshown :
            forall n : Z,
              shownInArea object n = true
              <-> (on <= n)%Z /\ ((n < off)%Z \/ off = (-1)%Z)).
  { intros n. unfold shownInArea. fold on off.
    rewrite andb_true_iff, orb_true_iff, Z.geb_le, Z.ltb_lt, Z.eqb_eq.
    tauto. }
  split.
  { unfold setActiveAreaNo, setVisible. fold (shownInArea object areaNo).
    induction (modelInstance object) as [| h t IH]; [reflexivity |].
    cbn [map length repeat]. now rewrite IH. }
  split; [apply Hshown |]. split.
  { intros a b Ha Hb Hab. apply Hshown in Ha, Hb. apply Hshown. lia. }
  split.
  { intros Hoff. rewrite Hshown. intuition lia. }
  intros Hne Hle.
  destruct (shownInArea object areaNo) eqn:E; [| reflexivity].
  apply Hshown in E. lia.
Qed.

Lemma setActiveAreaNo_interval_witness :
  Spawn.dispOffAreaNo (objectSpawn windmill) = (-1)%Z
  /\ setActiveAreaNo windmill 7 = [true; true].
Proof.
  destruct (setActiveAreaNo_interval windmill 7)
    as (Hcalls & _ & _ & Hopen & _).
  cbv zeta in Hopen.
  split; [reflexivity |].
  rewrite Hcalls, (proj2 (Hopen eq_refl)); [reflexivity | cbn; lia].
Defined.

(** * The data fetcher *)

(** ** The loop of [pump] *)

Lemma request_Sent (r : Fetch.DataFetcherRequest) :
  Fetch.inFlight r = true ->
  Fetch.mkRequest (Fetch.url r) (Some Fetch.Sent) (Fetch.progress r) = r.
Proof. destruct r as [u [[] |] p]; cbn; [reflexivity | discriminate]. Qed.

Lemma pump_loop_nth (k : nat) :
  forall (rs : list Fetch.DataFetcherRequest) (i : nat),
    nth_error (fst (Fetch.pump_loop k rs)) i
    = option_map
        (fun r =>
           if (i <? k)%nat
           then Fetch.mkRequest (Fetch.url r) (Some Fetch.Sent)
                  (Fetch.progress r)
           else r)
        (nth_error rs i).
Proof.
  induction k as [| k IH]; intros rs i.
  - cbn. destruct (nth_error rs i); reflexivity.
  - destruct rs as [| r rest]; [now destruct i |].
    cbn [Fetch.pump_loop]. specialize (IH rest).
    destruct (Fetch.pump_loop k rest) as [rest' es].
    cbn [fst] in IH.
    destruct (Fetch.request r) as [x |] eqn:Hr; cbn [Fetch.start fst].
    + destruct i as [| i]; cbn [nth_error option_map].
      * cbn. f_equal. symmetry. apply request_Sent.
        unfold Fetch.inFlight. now rewrite Hr.
      * rewrite IH. reflexivity.
    + destruct i as [| i]; cbn [nth_error option_map].
      * reflexivity.
      * rewrite IH. reflexivity.
Qed.

Lemma pump_loop_length (k : nat) :
  forall rs : list Fetch.DataFetcherRequest,
    length (fst (Fetch.pump_loop k rs)) = length rs.
Proof.
  induction k as [| k IH]; intros rs; [reflexivity |].
  destruct rs as [| r rest]; [reflexivity |].
  cbn [Fetch.pump_loop]. specialize (IH rest).
  destruct (Fetch.pump_loop k rest) as [rest' es]. cbn [fst] in IH.
  destruct (Fetch.request r); cbn; now rewrite IH.
Qed.

(** The loop sends the requests among the first [k] that are not in flight,
    and does nothing else. *)
Lemma pump_loop_effects (k : nat) :
  forall rs : list Fetch.DataFetcherRequest,
    snd (Fetch.pump_loop k rs)
    = map (fun r => Fetch.Send (Fetch.url r))
        (filter (fun r => negb (Fetch.inFlight r)) (firstn k rs)).
Proof.
  induction k as [| k IH]; intros rs; [reflexivity |].
  destruct rs as [| r rest]; [reflexivity |].
  cbn [Fetch.pump_loop firstn filter]. specialize (IH rest).
  destruct (Fetch.pump_loop k rest) as [rest' es]. cbn [snd] in IH.
  unfold Fetch.inFlight at 1.
  destruct (Fetch.request r); cbn [negb Fetch.start snd map app];
    now rewrite IH.
Qed.

Lemma filter_none {A : Type} (g : A -> bool) (l : list A) :
  (forall x : A, In x l -> g x = false) -> filter g l = [].
Proof.
  induction l as [| h t IH]; intros H; [reflexivity |].
  cbn [filter]. rewrite (H h (or_introl eq_refl)).
  apply IH. intros x Hx. apply H. now right.
Qed.

Lemma set_requests_same (f : Fetch.DataFetcher) :
  Fetch.set_requests (Fetch.requests f) f = f.
Proof. now destruct f. Qed.

(** ** [pump] *)

Lemma pump_fields (f : Fetch.DataFetcher) :
  Fetch.doneRequestCount (fst (Fetch.pump f)) = Fetch.doneRequestCount f
  /\ Fetch.maxParallelRequests (fst (Fetch.pump f))
     = Fetch.maxParallelRequests f
  /\ Fetch.aborted (fst (Fetch.pump f)) = Fetch.aborted f
  /\ length (Fetch.requests (fst (Fetch.pump f))) = length (Fetch.requests f)
  /\ map Fetch.url (Fetch.requests (fst (Fetch.pump f)))
     = map Fetch.url (Fetch.requests f)
  /\ map Fetch.progress (Fetch.requests (fst (Fetch.pump f)))
     = map Fetch.progress (Fetch.requests f).
Proof.
  unfold Fetch.pump.
  set (k := Z.to_nat _).
  pose proof (pump_loop_length k (Fetch.requests f)) as Hlen.
  pose proof (pump_loop_nth k (Fetch.requests f)) as Hnth.
  destruct (Fetch.pump_loop k (Fetch.requests f)) as [rs es].
  cbn [fst snd] in *. cbn [Fetch.set_requests Fetch.requests
                             Fetch.doneRequestCount Fetch.maxParallelRequests
                             Fetch.aborted].
  repeat split; try assumption.
  - apply map_pointwise; [exact Hlen |].
    intros i a Hi. rewrite Hnth, Hi. cbn [option_map].
    eexists. split; [reflexivity |]. now destruct (i <? k)%nat.
  - apply map_pointwise; [exact Hlen |].
    intros i a Hi. rewrite Hnth, Hi. cbn [option_map].
    eexists. split; [reflexivity |]. now destruct (i <? k)%nat.
Qed.

Lemma pump_max (f : Fetch.DataFetcher) :
  Fetch.maxParallelRequests (fst (Fetch.pump f)) = Fetch.maxParallelRequests f.
Proof. apply pump_fields. Qed.

Lemma pump_nth (f : Fetch.DataFetcher) (i : nat) :
  nth_error (Fetch.requests (fst (Fetch.pump f))) i
  = option_map
      (fun r =>
         if (Z.of_nat i <? Fetch.maxParallelRequests f)%Z
         then Fetch.mkRequest (Fetch.url r) (Some Fetch.Sent)
                (Fetch.progress r)
         else r)
      (nth_error (Fetch.requests f) i).
Proof.
  unfold Fetch.pump.
  set (k := Z.to_nat _).
  pose proof (pump_loop_nth k (Fetch.requests f) i) as Hnth.
  destruct (Fetch.pump_loop k (Fetch.requests f)) as [rs es].
  cbn [fst Fetch.set_requests Fetch.requests] in *. rewrite Hnth.
  destruct (nth_error (Fetch.requests f) i) as [r |] eqn:Hi; [| reflexivity].
  cbn [option_map]. f_equal.
  assert (Hlt : (i < length (Fetch.requests f))%nat).
  { apply nth_error_Some. congruence. }
  assert (Hsame : (i <? k)%nat
                  = (Z.of_nat i <? Fetch.maxParallelRequests f)%Z).
  { unfold k.
    destruct (Z.ltb_spec (Z.of_nat i) (Fetch.maxParallelRequests f));
      [apply Nat.ltb_lt | apply Nat.ltb_ge]; lia. }
  now rewrite Hsame.
Qed.

Lemma pump_pumped (f : Fetch.DataFetcher) :
  Fetch.queued f -> Fetch.pumped (fst (Fetch.pump f)).
Proof.
  intros Hq i r' Hi.
  destruct (pump_fields f) as (_ & Hmax & _).
  rewrite Hmax.
  rewrite pump_nth in Hi.
  destruct (nth_error (Fetch.requests f) i) as [r |] eqn:Hr; [| discriminate].
  cbn [option_map] in Hi. injection Hi as <-.
  destruct (Z.ltb_spec (Z.of_nat i) (Fetch.maxParallelRequests f)) as [Hlt | Hge].
  - split; [intros _; exact Hlt | reflexivity].
  - rewrite (Hq i r Hr Hge). split; [discriminate | lia].
Qed.

Lemma pumped_queued (f : Fetch.DataFetcher) : Fetch.pumped f -> Fetch.queued f.
Proof.
  intros Hp i r Hi Hge. destruct (Fetch.inFlight r) eqn:E; [| reflexivity].
  apply (Hp i r Hi) in E. lia.
Qed.

(** On a fetcher whose first requests are in flight [pump] does nothing. *)
Lemma pump_idle (f : Fetch.DataFetcher) :
  Fetch.pumped f -> Fetch.pump f = (f, []).
Proof.
  intros Hp.
  assert (Hreq : Fetch.requests (fst (Fetch.pump f)) = Fetch.requests f).
  { apply nth_error_ext. intros i. rewrite pump_nth.
    destruct (nth_error (Fetch.requests f) i) as [r |] eqn:Hr; [| reflexivity].
    cbn [option_map]. f_equal.
    destruct (Z.ltb_spec (Z.of_nat i) (Fetch.maxParallelRequests f));
      [| reflexivity].
    apply request_Sent. now apply (Hp i r Hr). }
  assert (Heff : snd (Fetch.pump f) = []).
  { unfold Fetch.pump. set (k := Z.to_nat _).
    pose proof (pump_loop_effects k (Fetch.requests f)) as He.
    destruct (Fetch.pump_loop k (Fetch.requests f)) as [rs es].
    cbn [snd] in *. rewrite He.
    rewrite filter_none; [reflexivity |].
    intros r Hin. apply In_nth_error in Hin. destruct Hin as [i Hi].
    assert (Hik : (i < k)%nat).
    { assert (i < length (firstn k (Fetch.requests f)))%nat
        by (apply nth_error_Some; congruence).
      rewrite length_firstn in H. lia. }
    rewrite nth_error_firstn in Hi.
    destruct (Nat.ltb_spec i k); [| lia].
    assert (Fetch.inFlight r = true) as ->; [| reflexivity].
    apply (Hp i r Hi). unfold k in Hik. lia. }
  unfold Fetch.pump in *. set (k := Z.to_nat _) in *.
  destruct (Fetch.pump_loop k (Fetch.requests f)) as [rs es].
  cbn [fst snd Fetch.set_requests Fetch.requests] in *. subst rs es.
  now rewrite set_requests_same.
Qed.

(** ** The steps *)

Lemma nth_error_splice1 {A : Type} (l : list A) (i j : nat) :
  (i < length l)%nat ->
  nth_error (Fetch.splice1 l i) j
  = if (j <? i)%nat then nth_error l j else nth_error l (S j).
Proof.
  intros Hi. unfold Fetch.splice1.
  destruct (Nat.ltb_spec j i) as [Hlt | Hge].
  - rewrite nth_error_app1 by (rewrite length_firstn; lia).
    rewrite nth_error_firstn.
    destruct (Nat.ltb_spec j i); [reflexivity | lia].
  - rewrite nth_error_app2 by (rewrite length_firstn; lia).
    rewrite length_firstn, nth_error_skipn.
    f_equal. lia.
Qed.

Lemma length_splice1 {A : Type} (l : list A) (i : nat) :
  (i < length l)%nat -> S (length (Fetch.splice1 l i)) = length l.
Proof.
  intros Hi. unfold Fetch.splice1.
  rewrite length_app, length_firstn, length_skipn. lia.
Qed.

Lemma fetchData_inr (dev : bool) (path : String.string)
    (f f' : Fetch.DataFetcher) (es : list Fetch.Effect) :
  Fetch.fetchData dev path f = inr (f', es) ->
  Fetch.aborted f = false
  /\ exists url : String.string,
       Fetch.getDataURLForPath dev path = Some url
       /\ Fetch.pump
            (Fetch.set_requests
               (Fetch.requests f ++ [Fetch.mkRequest url None 0]) f)
          = (f', es).
Proof.
  unfold Fetch.fetchData. destruct (Fetch.aborted f); [discriminate |].
  destruct (Fetch.getDataURLForPath dev path) as [url |]; [| discriminate].
  intros [= H]. split; [reflexivity |]. now exists url.
Qed.

Lemma splice1_list_set {A : Type} (l : list A) (i : nat) (a : A) :
  Fetch.splice1 (list_set l i a) i = Fetch.splice1 l i.
Proof.
  unfold Fetch.splice1. revert i.
  induction l as [| h t IH]; intros [| i]; cbn; try reflexivity.
  now rewrite IH.
Qed.

Lemma ondone_eq (i : nat) (f : Fetch.DataFetcher) :
  Fetch.ondone i f = Fetch.pump (done_state i f).
Proof.
  unfold Fetch.ondone, done_state. cbv zeta.
  cbn [Fetch.requests Fetch.doneRequestCount Fetch.maxParallelRequests
       Fetch.aborted].
  destruct (nth_error (Fetch.requests f) i) as [r |];
    cbn [Fetch.set_requests Fetch.requests Fetch.doneRequestCount
         Fetch.maxParallelRequests Fetch.aborted];
    [rewrite splice1_list_set |]; reflexivity.
Qed.

Lemma onload_Some (i : nat) (f f' : Fetch.DataFetcher)
    (es : list Fetch.Effect) :
  Fetch.onload i f = Some (f', es) ->
  exists r : Fetch.DataFetcherRequest,
    nth_error (Fetch.requests f) i = Some r
    /\ Fetch.inFlight r = true
    /\ let loaded :=
         Fetch.set_requests
           (list_set (Fetch.requests f) i
              (Fetch.mkRequest (Fetch.url r) (Fetch.request r) 1)) f in
       f' = fst (Fetch.pump (done_state i loaded))
       /\ es = Fetch.setProgress loaded
               ++ snd (Fetch.pump (done_state i loaded))
               ++ [Fetch.Resolve (Fetch.url r)].
Proof.
  unfold Fetch.onload.
  destruct (nth_error (Fetch.requests f) i) as [r |] eqn:Hr; [| discriminate].
  destruct (Fetch.request r) as [x |] eqn:Hx; [| discriminate].
  cbv zeta. rewrite ondone_eq.
  destruct (Fetch.pump _) as [f1 e2] eqn:Hpump.
  intros [= <- <-]. exists r. split; [reflexivity |].
  split; [unfold Fetch.inFlight; now rewrite Hx |].
  cbv zeta. rewrite Hx, Hpump. now split.
Qed.

Lemma done_state_queued (i : nat) (f : Fetch.DataFetcher) :
  (i < length (Fetch.requests f))%nat ->
  Fetch.queued f -> Fetch.queued (done_state i f).
Proof.
  intros Hi Hq j r Hj Hge. unfold done_state in *.
  cbn [Fetch.requests Fetch.maxParallelRequests] in *.
  rewrite nth_error_splice1 in Hj by exact Hi.
  destruct (j <? i)%nat.
  - exact (Hq j r Hj Hge).
  - apply (Hq (S j) r Hj). lia.
Qed.

Lemma list_set_queued (i : nat) (r' : Fetch.DataFetcherRequest)
    (f : Fetch.DataFetcher) :
  (forall r, nth_error (Fetch.requests f) i = Some r ->
             Fetch.inFlight r' = Fetch.inFlight r) ->
  (Fetch.queued f ->
   Fetch.queued (Fetch.set_requests (list_set (Fetch.requests f) i r') f))
  /\ (Fetch.pumped f ->
      Fetch.pumped (Fetch.set_requests (list_set (Fetch.requests f) i r') f)).
Proof.
  intros Hsame.
  assert (Hnth :
            forall j r,
              nth_error (list_set (Fetch.requests f) i r') j = Some r ->
              exists r0, nth_error (Fetch.requests f) j = Some r0
                         /\ Fetch.inFlight r = Fetch.inFlight r0).
  { intros j r Hj. rewrite nth_error_list_set in Hj.
    destruct (Nat.eqb_spec i j) as [-> | Hne]; cbn [andb] in Hj.
    - destruct (Nat.ltb_spec j (length (Fetch.requests f))) as [Hlt | Hge].
      + injection Hj as <-.
        destruct (nth_error (Fetch.requests f) j) as [r0 |] eqn:H0.
        * exists r0. split; [reflexivity |]. now apply Hsame.
        * apply nth_error_None in H0. lia.
      + exists r. now split.
    - exists r. now split. }
  split; intros H j r Hj; cbn [Fetch.set_requests Fetch.requests
                                 Fetch.maxParallelRequests] in *;
    destruct (Hnth j r Hj) as (r0 & H0 & ->).
  - exact (H j r0 H0).
  - exact (H j r0 H0).
Qed.

Lemma step_pumped (dev : bool) (f f' : Fetch.DataFetcher) (e : Fetch.Event)
    (es : list Fetch.Effect) :
  Fetch.pumped f ->
  Fetch.step dev f e = Some (f', es) ->
  Fetch.pumped f'
  /\ Fetch.maxParallelRequests f' = Fetch.maxParallelRequests f.
Proof.
  intros Hp Hstep. destruct e as [path | i | i lc loaded total | i |];
    cbn [Fetch.step] in Hstep.
  - destruct (Fetch.fetchData dev path f) as [err | [f1 es1]] eqn:Hfetch;
      [discriminate |].
    injection Hstep as <- <-.
    apply fetchData_inr in Hfetch. destruct Hfetch as (_ & url & _ & Hpump).
    assert (H1 : f1 = fst (Fetch.pump
                             (Fetch.set_requests
                                (Fetch.requests f
                                 ++ [Fetch.mkRequest url None 0]) f)))
      by now rewrite Hpump.
    rewrite H1. split.
    + apply pump_pumped. intros j r Hj Hge.
      cbn [Fetch.set_requests Fetch.requests Fetch.maxParallelRequests] in *.
      destruct (Nat.ltb_spec j (length (Fetch.requests f))) as [Hlt | Hge'].
      * rewrite nth_error_app1 in Hj by exact Hlt.
        exact (pumped_queued f Hp j r Hj Hge).
      * rewrite nth_error_app2 in Hj by exact Hge'.
        destruct (j - length (Fetch.requests f))%nat as [| n];
          cbn in Hj; [now injection Hj as <- | now destruct n].
    + rewrite pump_max. reflexivity.
  - apply onload_Some in Hstep.
    destruct Hstep as (r & Hr & Hfly & Hf' & _). cbv zeta in Hf'.
    rewrite Hf'. split.
    + apply pump_pumped. apply done_state_queued.
      * cbn [Fetch.set_requests Fetch.requests]. rewrite list_set_length.
        apply nth_error_Some. congruence.
      * apply list_set_queued; [| now apply pumped_queued].
        intros r0 H0. assert (r0 = r) by congruence. subst r0.
        reflexivity.
    + rewrite pump_max. reflexivity.
  - unfold Fetch.onprogress in Hstep.
    destruct (nth_error (Fetch.requests f) i) as [r |] eqn:Hr; [| discriminate].
    destruct (Fetch.request r) as [x |] eqn:Hx; [| discriminate].
    cbv zeta in Hstep. injection Hstep as <- _.
    split; [| reflexivity].
    apply list_set_queued; [| exact Hp].
    intros r0 H0. assert (r0 = r) by congruence. subst r0.
    unfold Fetch.inFlight. destruct lc; cbn [Fetch.request]; now rewrite Hx.
  - unfold Fetch.onerror in Hstep.
    destruct (nth_error (Fetch.requests f) i) as [r |]; [| discriminate].
    destruct (Fetch.request r); [| discriminate].
    injection Hstep as <- _. now split.
  - injection Hstep as <- _. split; [| reflexivity].
    intros j r Hj. now destruct j.
Qed.

Lemma run_pumped (dev : bool) (events : list Fetch.Event) :
  forall (f f' : Fetch.DataFetcher) (es : list Fetch.Effect),
    Fetch.pumped f ->
    Fetch.run dev f events = Some (f', es) ->
    Fetch.pumped f'
    /\ Fetch.maxParallelRequests f' = Fetch.maxParallelRequests f.
Proof.
  induction events as [| e rest IH]; intros f f' es Hp Hrun.
  - cbn in Hrun. injection Hrun as <- _. now split.
  - cbn [Fetch.run] in Hrun.
    destruct (Fetch.step dev f e) as [[f1 es1] |] eqn:Hstep; [| discriminate].
    destruct (Fetch.run dev f1 rest) as [[f2 es2] |] eqn:Hrest;
      [| discriminate].
    injection Hrun as <- _.
    destruct (step_pumped dev f f1 e es1 Hp Hstep) as [Hp1 Hm1].
    destruct (IH f1 f2 es2 Hp1 Hrest) as [Hp2 Hm2].
    split; [exact Hp2 | congruence].
Qed.

Lemma filter_firstn {A : Type} (g : A -> bool) (l : list A) :
  forall k : nat,
    (forall (i : nat) (a : A),
        nth_error l i = Some a -> (g a = true <-> (i < k)%nat)) ->
    filter g l = firstn k l.
Proof.
  induction l as [| h t IH]; intros k H; [now destruct k |].
  destruct k as [| k].
  - apply filter_none. intros x Hx. apply In_nth_error in Hx.
    destruct Hx as [i Hi]. destruct (g x) eqn:E; [| reflexivity].
    apply (H i x Hi) in E. lia.
  - cbn [filter firstn].
    rewrite (proj2 (H 0%nat h eq_refl)) by lia. f_equal.
    apply IH. intros i a Hi. rewrite (H (S i) a Hi). lia.
Qed.

(** X20. The requests in flight.  From a fetcher without requests (a new
    one, with two parallel requests, or one whose [maxParallelRequests] was
    set before the first fetch), whatever is fetched and whatever comes
    back, a request is in flight exactly when it is among the first
    [maxParallelRequests] of the list: the requests are sent in the order of
    the calls of [fetchData], never more than [maxParallelRequests] at a
    time, and a request waits until one before it has loaded. *)
Theorem requests_in_flight :
  forall (dev : bool) (f f' : Fetch.DataFetcher) (events : list Fetch.Event)
         (effects : list Fetch.Effect),
    Fetch.requests f = [] ->
    Fetch.run dev f events = Some (f', effects) ->
    Fetch.maxParallelRequests f' = Fetch.maxParallelRequests f
    /\ (forall (i : nat) (r : Fetch.DataFetcherRequest),
          nth_error (Fetch.requests f') i = Some r ->
          (Fetch.inFlight r = true
           <-> (Z.of_nat i < Fetch.maxParallelRequests f)%Z))
    /\ filter Fetch.inFlight (Fetch.requests f')
       = firstn (Z.to_nat (Fetch.maxParallelRequests f)) (Fetch.requests f')
    /\ (Z.of_nat (length (filter Fetch.inFlight (Fetch.requests f')))
        <= Z.max 0 (Fetch.maxParallelRequests f))%Z.
Proof.
  intros dev f f' events effects Hempty Hrun.
  assert (Hp : Fetch.pumped f).
  { intros i r Hi. rewrite Hempty in Hi. now destruct i. }
  destruct (run_pumped dev events f f' effects Hp Hrun) as [Hp' Hmax].
  assert (Hfilter :
            filter Fetch.inFlight (Fetch.requests f')
            = firstn (Z.to_nat (Fetch.maxParallelRequests f))
                (Fetch.requests f')).
  { apply filter_firstn. intros i r Hi.
    rewrite (Hp' i r Hi), Hmax. lia. }
  split; [exact Hmax |]. split.
  - intros i r Hi. rewrite <- Hmax. exact (Hp' i r Hi).
  - split; [exact Hfilter |].
    rewrite Hfilter, length_firstn. lia.
Qed.

Lemma requests_in_flight_witness :
  exists (f' : Fetch.DataFetcher) (effects : list Fetch.Effect),
    Fetch.run true Fetch.newDataFetcher
      [Fetch.FetchData String.EmptyString; Fetch.FetchData String.EmptyString;
       Fetch.FetchData String.EmptyString; Fetch.Load 0]
    = Some (f', effects)
    /\ (Z.of_nat (length (filter Fetch.inFlight (Fetch.requests f'))) <= 2)%Z.
Proof.
  assert (H : exists (f' : Fetch.DataFetcher) (effects : list Fetch.Effect),
             Fetch.run true Fetch.newDataFetcher
               [Fetch.FetchData String.EmptyString;
                Fetch.FetchData String.EmptyString;
                Fetch.FetchData String.EmptyString; Fetch.Load 0]
             = Some (f', effects)).
  { eexists. eexists. reflexivity. }
  destruct H as (f' & effects & H). exists f', effects.
  split; [exact H |].
  exact (proj2 (proj2 (proj2
           (requests_in_flight true Fetch.newDataFetcher f' _ effects eq_refl
              H)))).
Defined.

(** ** Counting *)

Lemma pump_effects_send (f : Fetch.DataFetcher) :
  Forall (fun e => Fetch.isSend e = true) (snd (Fetch.pump f)).
Proof.
  unfold Fetch.pump. set (k := Z.to_nat _).
  pose proof (pump_loop_effects k (Fetch.requests f)) as He.
  destruct (Fetch.pump_loop k (Fetch.requests f)) as [rs es].
  cbn [snd] in *. rewrite He. apply Forall_map. apply Forall_forall.
  reflexivity.
Qed.

Lemma filter_isResolve_send (es : list Fetch.Effect) :
  Forall (fun e => Fetch.isSend e = true) es -> filter Fetch.isResolve es = [].
Proof.
  intros H. apply filter_none. intros e He.
  rewrite Forall_forall in H. specialize (H e He). now destruct e.
Qed.

Lemma step_counts (dev : bool) (f f' : Fetch.DataFetcher) (e : Fetch.Event)
    (es : list Fetch.Effect) :
  Fetch.isAbortSignal e = false ->
  Fetch.step dev f e = Some (f', es) ->
  (Z.of_nat (length (Fetch.requests f')) + Fetch.doneRequestCount f'
   = Z.of_nat (length (Fetch.requests f)) + Fetch.doneRequestCount f
     + (if Fetch.isFetchData e then 1 else 0))%Z
  /\ (Fetch.doneRequestCount f'
      = Fetch.doneRequestCount f + (if Fetch.isLoad e then 1 else 0))%Z
  /\ length (filter Fetch.isResolve es)
     = (if Fetch.isLoad e then 1 else 0)%nat.
Proof.
  intros Hna Hstep. destruct e as [path | i | i lc loaded total | i |];
    cbn [Fetch.step Fetch.isFetchData Fetch.isLoad] in *;
    [| | | | discriminate].
  - destruct (Fetch.fetchData dev path f) as [err | [f1 es1]] eqn:Hfetch;
      [discriminate |].
    injection Hstep as <- <-.
    apply fetchData_inr in Hfetch. destruct Hfetch as (_ & url & _ & Hpump).
    pose proof (pump_fields
                  (Fetch.set_requests
                     (Fetch.requests f ++ [Fetch.mkRequest url None 0]) f))
      as (Hd & _ & _ & Hlen & _).
    pose proof (pump_effects_send
                  (Fetch.set_requests
                     (Fetch.requests f ++ [Fetch.mkRequest url None 0]) f))
      as Hsend.
    rewrite Hpump in Hd, Hlen, Hsend. cbn [fst snd] in Hd, Hlen, Hsend.
    cbn [Fetch.set_requests Fetch.requests Fetch.doneRequestCount] in Hd, Hlen.
    rewrite length_app in Hlen. cbn [length] in Hlen.
    rewrite (filter_isResolve_send _ Hsend).
    repeat split; lia.
  - apply onload_Some in Hstep.
    destruct Hstep as (r & Hr & Hfly & Hf' & Hes). cbv zeta in Hf', Hes.
    set (loaded := Fetch.set_requests
                     (list_set (Fetch.requests f) i
                        (Fetch.mkRequest (Fetch.url r) (Fetch.request r) 1))
                     f) in *.
    pose proof (pump_fields (done_state i loaded)) as (Hd & _ & _ & Hlen & _).
    pose proof (pump_effects_send (done_state i loaded)) as Hsend.
    rewrite <- Hf' in Hd, Hlen.
    assert (Hi : (i < length (Fetch.requests loaded))%nat).
    { unfold loaded. cbn [Fetch.set_requests Fetch.requests].
      rewrite list_set_length. apply nth_error_Some. congruence. }
    pose proof (length_splice1 (Fetch.requests loaded) i Hi) as Hsplice.
    unfold done_state in Hd, Hlen.
    cbn [Fetch.requests Fetch.doneRequestCount] in Hd, Hlen.
    assert (Hl : length (Fetch.requests loaded) = length (Fetch.requests f)).
    { unfold loaded. cbn [Fetch.set_requests Fetch.requests].
      apply list_set_length. }
    assert (Hdl : Fetch.doneRequestCount loaded = Fetch.doneRequestCount f)
      by reflexivity.
    split; [lia |]. split; [lia |].
    rewrite Hes. unfold Fetch.setProgress.
    cbn [app filter Fetch.isResolve].
    rewrite filter_app, (filter_isResolve_send _ Hsend). reflexivity.
  - unfold Fetch.onprogress in Hstep.
    destruct (nth_error (Fetch.requests f) i) as [r |]; [| discriminate].
    destruct (Fetch.request r); [| discriminate].
    cbv zeta in Hstep. injection Hstep as <- <-.
    cbn [Fetch.set_requests Fetch.requests Fetch.doneRequestCount].
    rewrite list_set_length. repeat split; lia.
  - unfold Fetch.onerror in Hstep.
    destruct (nth_error (Fetch.requests f) i) as [r |]; [| discriminate].
    destruct (Fetch.request r); [| discriminate].
    injection Hstep as <- <-. repeat split; lia.
Qed.

(** X21. No request is lost.  As long as the fetcher is not aborted, the
    requests in the list and the requests counted as done are together the
    requests the fetcher had plus one for each call of [fetchData]; the
    count of the requests done goes up by one for each request that loads,
    and each request that loads resolves exactly one promise. *)
Theorem requests_accounted_for :
  forall (dev : bool) (events : list Fetch.Event)
         (f f' : Fetch.DataFetcher) (effects : list Fetch.Effect),
    existsb Fetch.isAbortSignal events = false ->
    Fetch.run dev f events = Some (f', effects) ->
    (Z.of_nat (length (Fetch.requests f')) + Fetch.doneRequestCount f'
     = Z.of_nat (length (Fetch.requests f)) + Fetch.doneRequestCount f
       + Z.of_nat (length (filter Fetch.isFetchData events)))%Z
    /\ (Fetch.doneRequestCount f'
        = Fetch.doneRequestCount f
          + Z.of_nat (length (filter Fetch.isLoad events)))%Z
    /\ length (filter Fetch.isResolve effects)
       = length (filter Fetch.isLoad events).
Proof.
  intros dev events.
  induction events as [| e rest IH]; intros f f' effects Hna Hrun.
  - cbn in Hrun. injection Hrun as <- <-. cbn. repeat split; lia.
  - cbn [existsb] in Hna. apply orb_false_iff in Hna. destruct Hna as [Hna Hrest].
    cbn [Fetch.run] in Hrun.
    destruct (Fetch.step dev f e) as [[f1 es1] |] eqn:Hstep; [| discriminate].
    destruct (Fetch.run dev f1 rest) as [[f2 es2] |] eqn:Hrun1;
      [| discriminate].
    injection Hrun as <- <-.
    destruct (step_counts dev f f1 e es1 Hna Hstep) as (A1 & A2 & A3).
    destruct (IH f1 f2 es2 Hrest Hrun1) as (B1 & B2 & B3).
    rewrite filter_app, length_app, A3, B3.
    cbn [filter]. destruct (Fetch.isFetchData e), (Fetch.isLoad e);
      cbn [length]; repeat split; lia.
Qed.

Lemma requests_accounted_for_witness :
  exists (f' : Fetch.DataFetcher) (effects : list Fetch.Effect),
    Fetch.run true Fetch.newDataFetcher
      [Fetch.FetchData String.EmptyString; Fetch.FetchData String.EmptyString;
       Fetch.FetchData String.EmptyString; Fetch.Load 1]
    = Some (f', effects)
    /\ Fetch.doneRequestCount f' = 1%Z
    /\ length (filter Fetch.isResolve effects) = 1%nat.
Proof.
  assert (H : exists (f' : Fetch.DataFetcher) (effects : list Fetch.Effect),
             Fetch.run true Fetch.newDataFetcher
               [Fetch.FetchData String.EmptyString;
                Fetch.FetchData String.EmptyString;
                Fetch.FetchData String.EmptyString; Fetch.Load 1]
             = Some (f', effects)).
  { eexists. eexists. reflexivity. }
  destruct H as (f' & effects & H). exists f', effects.
  split; [exact H |].
  exact (proj2 (requests_accounted_for true
                  [Fetch.FetchData String.EmptyString;
                   Fetch.FetchData String.EmptyString;
                   Fetch.FetchData String.EmptyString; Fetch.Load 1]
                  Fetch.newDataFetcher f' effects eq_refl H)).
Defined.

(** ** The progress *)

Lemma fold_left_progress (l : list Fetch.DataFetcherRequest) :
  forall a : R,
    Forall (fun p => 0 <= p <= 1) (map Fetch.progress l) ->
    a <= fold_left (fun n r => n + Fetch.progress r) l a
      <= a + IZR (Z.of_nat (length l)).
Proof.
  induction l as [| r rest IH]; intros a H.
  - cbn. lra.
  - cbn [map] in H. inversion H as [| p ps Hp Hps]; subst.
    cbn [fold_left]. specialize (IH (a + Fetch.progress r) Hps).
    cbn [length]. rewrite Nat2Z.inj_succ, succ_IZR. lra.
Qed.

Lemma calcProgress_fraction (f : Fetch.DataFetcher) :
  Fetch.fractions f ->
  Fetch.requests f <> [] ->
  exists v : R, Fetch.calcProgress f = Some v /\ 0 <= v <= 1.
Proof.
  intros [Hp Hd] Hne. unfold Fetch.calcProgress. cbv zeta.
  pose proof (fold_left_progress (Fetch.requests f) 0 Hp) as Hsum.
  assert (Hlen : 1 <= IZR (Z.of_nat (length (Fetch.requests f)))).
  { apply IZR_le. destruct (Fetch.requests f); [congruence | cbn; lia]. }
  assert (Hdone : 0 <= IZR (Fetch.doneRequestCount f)) by now apply IZR_le.
  set (s := fold_left _ _ _) in *.
  set (n := IZR (Z.of_nat _)) in *.
  set (d := IZR (Fetch.doneRequestCount f)) in *.
  destruct (Reqb (n + d) 0) eqn:E;
    [apply Reqb_true in E; lra |].
  eexists. split; [reflexivity |].
  assert (Hpos : 0 < n + d) by lra.
  split.
  - apply Rmult_le_pos; [lra |]. left. now apply Rinv_0_lt_compat.
  - apply (Rmult_le_reg_r (n + d)); [exact Hpos |].
    unfold Rdiv. rewrite Rmult_assoc, Rinv_l by lra. lra.
Qed.

Lemma Forall_list_set {A : Type} (P : A -> Prop) (l : list A) (i : nat)
    (a : A) :
  Forall P l -> P a -> Forall P (list_set l i a).
Proof.
  intros Hl Ha. revert i.
  induction Hl as [| h t Hh Ht IH]; intros [| i]; cbn; constructor; auto.
Qed.

Lemma map_list_set {A B : Type} (g : A -> B) (l : list A) (i : nat) (a : A) :
  map g (list_set l i a) = list_set (map g l) i (g a).
Proof.
  revert i. induction l as [| h t IH]; intros [| i]; cbn; try reflexivity.
  now rewrite IH.
Qed.

Lemma Forall_splice1 {A : Type} (P : A -> Prop) (l : list A) :
  forall i : nat, Forall P l -> Forall P (Fetch.splice1 l i).
Proof.
  unfold Fetch.splice1.
  induction l as [| h t IH]; intros i H.
  - destruct i; constructor.
  - inversion H as [| h' t' Hh Ht]; subst. destruct i as [| i].
    + exact Ht.
    + cbn [firstn skipn app]. constructor; [exact Hh |].
      exact (IH i Ht).
Qed.

Lemma map_splice1 {A B : Type} (g : A -> B) (l : list A) (i : nat) :
  map g (Fetch.splice1 l i) = Fetch.splice1 (map g l) i.
Proof.
  unfold Fetch.splice1. now rewrite map_app, <- firstn_map, <- skipn_map.
Qed.

Lemma step_fractions (dev : bool) (f f' : Fetch.DataFetcher) (e : Fetch.Event)
    (es : list Fetch.Effect) :
  Fetch.fractions f ->
  Fetch.wellFormed e ->
  Fetch.step dev f e = Some (f', es) ->
  Fetch.fractions f'
  /\ forall value : option R,
       In (Fetch.SetProgress value) es ->
       exists v : R, value = Some v /\ 0 <= v <= 1.
Proof.
  intros [Hp Hd] Hwf Hstep.
  destruct e as [path | i | i lc loaded total | i |];
    cbn [Fetch.step] in Hstep.
  - destruct (Fetch.fetchData dev path f) as [err | [f1 es1]] eqn:Hfetch;
      [discriminate |].
    injection Hstep as <- <-.
    apply fetchData_inr in Hfetch. destruct Hfetch as (_ & url & _ & Hpump).
    pose proof (pump_fields
                  (Fetch.set_requests
                     (Fetch.requests f ++ [Fetch.mkRequest url None 0]) f))
      as (Hd1 & _ & _ & _ & _ & Hprog).
    pose proof (pump_effects_send
                  (Fetch.set_requests
                     (Fetch.requests f ++ [Fetch.mkRequest url None 0]) f))
      as Hsend.
    rewrite Hpump in Hd1, Hprog, Hsend. cbn [fst snd] in Hd1, Hprog, Hsend.
    cbn [Fetch.set_requests Fetch.requests Fetch.doneRequestCount]
      in Hd1, Hprog.
    split.
    + split; [| lia]. rewrite Hprog, map_app. apply Forall_app.
      split; [exact Hp |]. constructor; [cbn; lra | constructor].
    + intros value Hin. rewrite Forall_forall in Hsend.
      specialize (Hsend _ Hin). discriminate.
  - apply onload_Some in Hstep.
    destruct Hstep as (r & Hr & Hfly & Hf' & Hes). cbv zeta in Hf', Hes.
    set (loaded := Fetch.set_requests
                     (list_set (Fetch.requests f) i
                        (Fetch.mkRequest (Fetch.url r) (Fetch.request r) 1))
                     f) in *.
    assert (Hloaded : Fetch.fractions loaded).
    { split; [| exact Hd]. unfold loaded.
      cbn [Fetch.set_requests Fetch.requests]. rewrite map_list_set.
      apply Forall_list_set; [exact Hp | cbn; lra]. }
    assert (Hne : Fetch.requests loaded <> []).
    { unfold loaded. cbn [Fetch.set_requests Fetch.requests].
      intros Hnil. apply (f_equal (@length _)) in Hnil.
      rewrite list_set_length in Hnil.
      assert (i < length (Fetch.requests f))%nat
        by (apply nth_error_Some; congruence).
      cbn in Hnil. lia. }
    pose proof (pump_fields (done_state i loaded))
      as (Hd1 & _ & _ & _ & _ & Hprog).
    pose proof (pump_effects_send (done_state i loaded)) as Hsend.
    rewrite <- Hf' in Hd1, Hprog.
    split.
    + split.
      * rewrite Hprog. unfold done_state. cbn [Fetch.requests].
        rewrite map_splice1. apply Forall_splice1. apply Hloaded.
      * rewrite Hd1. unfold done_state. cbn [Fetch.doneRequestCount].
        destruct Hloaded as [_ Hd']. lia.
    + intros value Hin. rewrite Hes in Hin. unfold Fetch.setProgress in Hin.
      cbn [app In] in Hin. destruct Hin as [Hin | Hin].
      * injection Hin as <-. now apply calcProgress_fraction.
      * apply in_app_or in Hin. destruct Hin as [Hin | [Hin | []]];
          [| discriminate].
        rewrite Forall_forall in Hsend. specialize (Hsend _ Hin).
        discriminate.
  - unfold Fetch.onprogress in Hstep.
    destruct (nth_error (Fetch.requests f) i) as [r |] eqn:Hr; [| discriminate].
    destruct (Fetch.request r) as [x |] eqn:Hx; [| discriminate].
    cbv zeta in Hstep. injection Hstep as <- <-.
    set (r' := if lc then Fetch.mkRequest (Fetch.url r) (Some x)
                           (loaded / total) else r).
    assert (Hr' : 0 <= Fetch.progress r' <= 1).
    { unfold r'. destruct lc.
      - cbn [Fetch.progress]. cbn [Fetch.wellFormed] in Hwf.
        destruct Hwf as [[Hlo Hhi] Hpos]. split.
        + apply Rmult_le_pos; [exact Hlo |].
          left. now apply Rinv_0_lt_compat.
        + apply (Rmult_le_reg_r total); [exact Hpos |].
          unfold Rdiv. rewrite Rmult_assoc, Rinv_l by lra. lra.
      - rewrite Forall_forall in Hp. apply Hp.
        apply in_map. eapply nth_error_In. eassumption. }
    assert (Hfr : Fetch.fractions
                    (Fetch.set_requests (list_set (Fetch.requests f) i r') f)).
    { split; [| exact Hd]. cbn [Fetch.set_requests Fetch.requests].
      rewrite map_list_set. now apply Forall_list_set. }
    split; [exact Hfr |].
    intros value [Hin | []]. injection Hin as <-.
    apply calcProgress_fraction; [exact Hfr |].
    cbn [Fetch.set_requests Fetch.requests].
    intros Hnil. apply (f_equal (@length _)) in Hnil.
    rewrite list_set_length in Hnil.
    assert (i < length (Fetch.requests f))%nat
      by (apply nth_error_Some; congruence).
    cbn in Hnil. lia.
  - unfold Fetch.onerror in Hstep.
    destruct (nth_error (Fetch.requests f) i) as [r |]; [| discriminate].
    destruct (Fetch.request r); [| discriminate].
    injection Hstep as <- <-. split; [now split |].
    intros value [Hin | []]. discriminate.
  - injection Hstep as <- <-. split.
    + split; [constructor | exact Hd].
    + intros value Hin. cbn [Fetch.onabort snd] in Hin.
      apply in_flat_map in Hin. destruct Hin as (r & _ & Hin).
      cbn [Fetch.abort snd] in Hin.
      destruct (Fetch.request r); [destruct Hin as [Hin | []] | destruct Hin];
        discriminate.
Qed.

(** X22. The progress shown is a fraction.  From a fetcher whose requests
    have a progress between 0 and 1 and whose count of requests done is not
    negative (a new one), with progress events as the browser gives them
    (when the length is computable, [0 <= loaded <= total] and [total] is
    not 0), every value the fetcher gives to the progress meter is a number
    between 0 and 1: [calcProgress] is called only from a handler of a
    request that is still in the list, so that its division is never the
    0 / 0 of an empty fetcher. *)
Theorem progress_is_a_fraction :
  forall (dev : bool) (events : list Fetch.Event)
         (f f' : Fetch.DataFetcher) (effects : list Fetch.Effect),
    Fetch.fractions f ->
    Forall Fetch.wellFormed events ->
    Fetch.run dev f events = Some (f', effects) ->
    Fetch.fractions f'
    /\ forall value : option R,
         In (Fetch.SetProgress value) effects ->
         exists v : R, value = Some v /\ 0 <= v <= 1.
Proof.
  intros dev events.
  induction events as [| e rest IH]; intros f f' effects Hfr Hwf Hrun.
  - cbn in Hrun. injection Hrun as <- <-. split; [exact Hfr |].
    intros value [].
  - inversion Hwf as [| e' rest' He Hrest]; subst.
    cbn [Fetch.run] in Hrun.
    destruct (Fetch.step dev f e) as [[f1 es1] |] eqn:Hstep; [| discriminate].
    destruct (Fetch.run dev f1 rest) as [[f2 es2] |] eqn:Hrun1;
      [| discriminate].
    injection Hrun as <- <-.
    destruct (step_fractions dev f f1 e es1 Hfr He Hstep) as [Hfr1 Hes1].
    destruct (IH f1 f2 es2 Hfr1 Hrest Hrun1) as [Hfr2 Hes2].
    split; [exact Hfr2 |].
    intros value Hin. apply in_app_or in Hin.
    destruct Hin as [Hin | Hin]; [now apply Hes1 | now apply Hes2].
Qed.

Lemma newDataFetcher_fractions : Fetch.fractions Fetch.newDataFetcher.
Proof. split; [constructor | cbn; lia]. Qed.

Lemma progress_is_a_fraction_witness :
  exists (f' : Fetch.DataFetcher) (effects : list Fetch.Effect),
    Fetch.run true Fetch.newDataFetcher
      [Fetch.FetchData String.EmptyString;
       Fetch.Progress 0 true 1 2; Fetch.Load 0]
    = Some (f', effects)
    /\ Fetch.fractions f'.
Proof.
  assert (H : exists (f' : Fetch.DataFetcher) (effects : list Fetch.Effect),
             Fetch.run true Fetch.newDataFetcher
               [Fetch.FetchData String.EmptyString;
                Fetch.Progress 0 true 1 2; Fetch.Load 0]
             = Some (f', effects)).
  { eexists. eexists. reflexivity. }
  destruct H as (f' & effects & H). exists f', effects.
  split; [exact H |].
  refine (proj1 (progress_is_a_fraction true
                   [Fetch.FetchData String.EmptyString;
                    Fetch.Progress 0 true 1 2; Fetch.Load 0]
                   Fetch.newDataFetcher f' effects
                   newDataFetcher_fractions _ H)).
  repeat constructor; cbn; lra.
Defined.

(** ** Abort *)

Lemma flat_map_abort (l : list Fetch.DataFetcherRequest) :
  flat_map (fun r => snd (Fetch.abort r)) l
  = map (fun r => Fetch.AbortRequest (Fetch.url r)) (filter Fetch.inFlight l).
Proof.
  induction l as [| [u [x |] p] rest IH]; [reflexivity | |];
    cbn [flat_map filter]; rewrite IH; reflexivity.
Qed.

(** X23. Abort is final.  The listener of the abort signal aborts the
    requests that are in flight, each once and in their order, and no other;
    it empties the list and sets [aborted].  From then on [fetchData]
    throws, whatever the path, no handler of a request is left to be
    called, and a second abort signal changes nothing and aborts nothing:
    an aborted fetcher sends no request again. *)
Theorem abort_is_final :
  forall (dev : bool) (f : Fetch.DataFetcher),
    let f' := fst (Fetch.onabort f) in
    Fetch.requests f' = []
    /\ Fetch.aborted f' = true
    /\ Fetch.doneRequestCount f' = Fetch.doneRequestCount f
    /\ snd (Fetch.onabort f)
       = map (fun r => Fetch.AbortRequest (Fetch.url r))
           (filter Fetch.inFlight (Fetch.requests f))
    /\ (forall path : String.string,
          Fetch.fetchData dev path f' = inl Fetch.TriedToFetchWhileAborted)
    /\ (forall (e : Fetch.Event) (f'' : Fetch.DataFetcher)
               (es : list Fetch.Effect),
          Fetch.step dev f' e = Some (f'', es) ->
          e = Fetch.AbortSignal /\ f'' = f' /\ es = [])
    /\ (forall (events : list Fetch.Event) (f'' : Fetch.DataFetcher)
               (es : list Fetch.Effect),
          Fetch.run dev f' events = Some (f'', es) -> f'' = f' /\ es = []).
Proof.
  intros dev f f'.
  assert (Hreq : Fetch.requests f' = []) by reflexivity.
  assert (Hab : Fetch.aborted f' = true) by reflexivity.
  assert (Hfetch : forall path : String.string,
             Fetch.fetchData dev path f' = inl Fetch.TriedToFetchWhileAborted).
  { intros path. unfold Fetch.fetchData. now rewrite Hab. }
  assert (Hstep : forall (e : Fetch.Event) (f'' : Fetch.DataFetcher)
                         (es : list Fetch.Effect),
             Fetch.step dev f' e = Some (f'', es) ->
             e = Fetch.AbortSignal /\ f'' = f' /\ es = []).
  { intros e f'' es H. destruct e as [path | i | i lc loaded total | i |];
      cbn [Fetch.step] in H.
    - now rewrite Hfetch in H.
    - unfold Fetch.onload in H. rewrite Hreq in H. now destruct i.
    - unfold Fetch.onprogress in H. rewrite Hreq in H. now destruct i.
    - unfold Fetch.onerror in H. rewrite Hreq in H. now destruct i.
    - injection H as <- <-. repeat split. }
  repeat match goal with |- _ /\ _ => split end; try assumption;
    try reflexivity.
  - apply flat_map_abort.
  - intros events. induction events as [| e rest IH]; intros f'' es Hrun.
    + cbn in Hrun. injection Hrun as <- <-. now split.
    + cbn [Fetch.run] in Hrun.
      destruct (Fetch.step dev f' e) as [[f1 es1] |] eqn:H1; [| discriminate].
      destruct (Hstep e f1 es1 H1) as (_ & -> & ->).
      destruct (Fetch.run dev f' rest) as [[f2 es2] |] eqn:H2;
        [| discriminate].
      injection Hrun as <- <-.
      destruct (IH f2 es2 eq_refl) as [-> ->]. now split.
Qed.

Lemma abort_is_final_witness :
  Fetch.run true (fst (Fetch.onabort Fetch.threeRequests))
    [Fetch.AbortSignal; Fetch.AbortSignal]
  = Some (fst (Fetch.onabort Fetch.threeRequests), []).
Proof.
  destruct (Fetch.run true (fst (Fetch.onabort Fetch.threeRequests))
              [Fetch.AbortSignal; Fetch.AbortSignal])
    as [[f'' es] |] eqn:H.
  - destruct (abort_is_final true Fetch.threeRequests)
      as (_ & _ & _ & _ & _ & _ & Hrun).
    destruct (Hrun _ _ _ H) as [-> ->]. reflexivity.
  - discriminate H.
Defined.

(** ** Errors *)

Lemma step_stalled (dev : bool) (f f' : Fetch.DataFetcher) (e : Fetch.Event)
    (es : list Fetch.Effect) :
  Fetch.pumped f ->
  (Fetch.maxParallelRequests f <= Z.of_nat (length (Fetch.requests f)))%Z ->
  Fetch.isLoad e || Fetch.isAbortSignal e = false ->
  Fetch.step dev f e = Some (f', es) ->
  filter Fetch.isSend es = []
  /\ Fetch.pumped f'
  /\ (Fetch.maxParallelRequests f' <= Z.of_nat (length (Fetch.requests f')))%Z
  /\ map Fetch.url (filter Fetch.inFlight (Fetch.requests f'))
     = map Fetch.url (filter Fetch.inFlight (Fetch.requests f)).
Proof.
  intros Hp Hfull Hkind Hstep.
  destruct (step_pumped dev f f' e es Hp Hstep) as [Hp' Hmax].
  destruct e as [path | i | i lc loaded total | i |];
    cbn [Fetch.step Fetch.isLoad Fetch.isAbortSignal orb] in *;
    try discriminate.
  - destruct (Fetch.fetchData dev path f) as [err | [f1 es1]] eqn:Hfetch;
      [discriminate |].
    injection Hstep as <- <-.
    apply fetchData_inr in Hfetch. destruct Hfetch as (_ & url & _ & Hpump).
    assert (Hidle : Fetch.pumped
                      (Fetch.set_requests
                         (Fetch.requests f ++ [Fetch.mkRequest url None 0]) f)).
    { intros j r Hj.
      cbn [Fetch.set_requests Fetch.requests Fetch.maxParallelRequests] in *.
      destruct (Nat.ltb_spec j (length (Fetch.requests f))) as [Hlt | Hge].
      - rewrite nth_error_app1 in Hj by exact Hlt. exact (Hp j r Hj).
      - rewrite nth_error_app2 in Hj by exact Hge.
        destruct (j - length (Fetch.requests f))%nat as [| n];
          cbn in Hj; [| now destruct n].
        injection Hj as <-. cbn. split; [discriminate | lia]. }
    rewrite (pump_idle _ Hidle) in Hpump. injection Hpump as <- <-.
    cbn [Fetch.set_requests Fetch.requests Fetch.maxParallelRequests].
    rewrite length_app, filter_app. cbn [length filter Fetch.inFlight
                                           Fetch.request].
    rewrite app_nil_r.
    repeat match goal with |- _ /\ _ => split end;
      [reflexivity | exact Hidle | lia | reflexivity].
  - unfold Fetch.onprogress in Hstep.
    destruct (nth_error (Fetch.requests f) i) as [r |] eqn:Hr; [| discriminate].
    destruct (Fetch.request r) as [x |] eqn:Hx; [| discriminate].
    cbv zeta in Hstep. injection Hstep as <- <-.
    cbn [Fetch.set_requests Fetch.requests Fetch.maxParallelRequests] in *.
    rewrite list_set_length.
    repeat match goal with |- _ /\ _ => split end;
      [reflexivity | exact Hp' | exact Hfull |].
    set (r' := if lc then _ else r).
    assert (Hr' : Fetch.inFlight r' = Fetch.inFlight r /\ Fetch.url r' = Fetch.url r).
    { unfold r', Fetch.inFlight. destruct lc; cbn; rewrite ?Hx; now split. }
    clearbody r'. destruct Hr' as [Hfly Hurl]. clear - Hr Hfly Hurl.
    revert i Hr. induction (Fetch.requests f) as [| h t IH]; intros i Hr.
    + now destruct i.
    + destruct i as [| i]; cbn [list_set nth_error] in *.
      * injection Hr as ->. cbn [filter]. rewrite Hfly.
        destruct (Fetch.inFlight r); cbn [map]; now rewrite ?Hurl.
      * cbn [filter]. destruct (Fetch.inFlight h); cbn [map];
          now rewrite (IH i Hr).
  - unfold Fetch.onerror in Hstep.
    destruct (nth_error (Fetch.requests f) i) as [r |]; [| discriminate].
    destruct (Fetch.request r); [| discriminate].
    injection Hstep as <- <-.
    repeat match goal with |- _ /\ _ => split end;
      [reflexivity | exact Hp | exact Hfull | reflexivity].
Qed.

(** X24. A request that fails keeps its place.  The error handler of a
    request only writes to the console: the request stays in the list, in
    flight.  So with [maxParallelRequests] requests in flight, as long as
    none of them loads (and the fetcher is not aborted), whatever else
    happens (errors, progress, calls of [fetchData]) no request is sent and
    the same requests stay in flight: the requests fetched meanwhile wait
    in the list. *)
Theorem failed_requests_keep_their_place :
  forall (dev : bool) (events : list Fetch.Event)
         (f f' : Fetch.DataFetcher) (effects : list Fetch.Effect),
    Fetch.pumped f ->
    (Fetch.maxParallelRequests f <= Z.of_nat (length (Fetch.requests f)))%Z ->
    existsb (fun e => Fetch.isLoad e || Fetch.isAbortSignal e) events = false ->
    Fetch.run dev f events = Some (f', effects) ->
    filter Fetch.isSend effects = []
    /\ map Fetch.url (filter Fetch.inFlight (Fetch.requests f'))
       = map Fetch.url (filter Fetch.inFlight (Fetch.requests f))
    /\ (forall (i : nat) (f1 : Fetch.DataFetcher) (es : list Fetch.Effect),
          Fetch.onerror i f = Some (f1, es) ->
          f1 = f /\ exists url : String.string, es = [Fetch.ConsoleError url]).
Proof.
  intros dev events f f' effects Hp Hfull Hkind Hrun.
  assert (Hrunning :
            filter Fetch.isSend effects = []
            /\ map Fetch.url (filter Fetch.inFlight (Fetch.requests f'))
               = map Fetch.url (filter Fetch.inFlight (Fetch.requests f))).
  { revert f f' effects Hp Hfull Hkind Hrun.
    induction events as [| e rest IH]; intros f f' effects Hp Hfull Hkind Hrun.
    - cbn in Hrun. injection Hrun as <- <-. now split.
    - cbn [existsb] in Hkind. apply orb_false_iff in Hkind.
      destruct Hkind as [Hkind Hrest]. cbn [Fetch.run] in Hrun.
      destruct (Fetch.step dev f e) as [[f1 es1] |] eqn:Hstep; [| discriminate].
      destruct (Fetch.run dev f1 rest) as [[f2 es2] |] eqn:Hrun1;
        [| discriminate].
      injection Hrun as <- <-.
      destruct (step_stalled dev f f1 e es1 Hp Hfull Hkind Hstep)
        as (A1 & A2 & A3 & A4).
      destruct (IH f1 f2 es2 A2 A3 Hrest Hrun1) as [B1 B2].
      split; [| congruence].
      now rewrite filter_app, A1, B1. }
  split; [apply Hrunning |]. split; [apply Hrunning |].
  intros i f1 es H. unfold Fetch.onerror in H.
  destruct (nth_error (Fetch.requests f) i) as [r |]; [| discriminate].
  destruct (Fetch.request r); [| discriminate].
  injection H as <- <-. split; [reflexivity |]. now eexists.
Qed.

Lemma threeRequests_pumped : Fetch.pumped Fetch.threeRequests.
Proof.
  intros i r Hi.
  destruct i as [| [| [| i]]]; cbn in Hi; try (now destruct i);
    injection Hi as <-; cbn; split; intros; try lia; try discriminate;
    reflexivity.
Qed.

Lemma failed_requests_keep_their_place_witness :
  exists (f' : Fetch.DataFetcher) (effects : list Fetch.Effect),
    Fetch.run true Fetch.threeRequests
      [Fetch.Error 0; Fetch.Error 1; Fetch.FetchData String.EmptyString]
    = Some (f', effects)
    /\ filter Fetch.isSend effects = [].
Proof.
  assert (H : exists (f' : Fetch.DataFetcher) (effects : list Fetch.Effect),
             Fetch.run true Fetch.threeRequests
               [Fetch.Error 0; Fetch.Error 1;
                Fetch.FetchData String.EmptyString]
             = Some (f', effects)).
  { eexists. eexists. reflexivity. }
  destruct H as (f' & effects & H). exists f', effects.
  split; [exact H |].
  refine (proj1 (failed_requests_keep_their_place true
                   [Fetch.Error 0; Fetch.Error 1;
                    Fetch.FetchData String.EmptyString]
                   Fetch.threeRequests f' effects threeRequests_pumped _
                   eq_refl H)).
  cbn. lia.
Defined.

(** ** The address of the data *)

Lemma prefix_append (a b : String.string) :
  String.prefix a (String.append a b) = true.
Proof.
  induction a as [| c a IH]; [now destruct b |]. cbn.
  destruct (Ascii.ascii_dec c c); [exact IH | congruence].
Qed.

Lemma append_injective (a b c : String.string) :
  String.append a b = String.append a c -> b = c.
Proof.
  induction a as [| x a IH]; cbn; [auto |].
  intros [= H]. auto.
Qed.

(** X25. The address of the data.  [getDataURLForPath] refuses (its
    assertion fails) exactly the paths that begin with the name of the data
    directory and a slash; for every other path it gives an address that
    begins with the base address of the data storage, and two paths with
    the same address are the same path. *)
Theorem getDataURLForPath_address :
  forall (dev : bool) (path : String.string),
    match Fetch.getDataURLForPath dev path with
    | Some url =>
        String.prefix Fetch.dataDirectory path = false
        /\ String.prefix (Fetch.getDataStorageBaseURL dev) url = true
        /\ forall path' : String.string,
             Fetch.getDataURLForPath dev path' = Some url -> path' = path
    | None => String.prefix Fetch.dataDirectory path = true
    end.
Proof.
  intros dev path. unfold Fetch.getDataURLForPath.
  fold Fetch.dataDirectory.
  destruct (String.prefix Fetch.dataDirectory path) eqn:Hp; [reflexivity |].
  split; [reflexivity |]. split; [apply prefix_append |].
  intros path'.
  destruct (String.prefix Fetch.dataDirectory path'); [discriminate |].
  intros [= H]. apply append_injective in H.
  cbn in H. now injection H.
Qed.

(** ** The order of the requests *)

Lemma pump_loop_waiting (k : nat) :
  forall rs : list Fetch.DataFetcherRequest,
    Fetch.sent (snd (Fetch.pump_loop k rs))
    ++ map Fetch.url
         (filter (fun r => negb (Fetch.inFlight r))
            (fst (Fetch.pump_loop k rs)))
    = map Fetch.url (filter (fun r => negb (Fetch.inFlight r)) rs).
Proof.
  induction k as [| k IH]; intros rs; [reflexivity |].
  destruct rs as [| [u [x |] p] rest]; [reflexivity | |];
    cbn [Fetch.pump_loop Fetch.request Fetch.start]; specialize (IH rest);
    destruct (Fetch.pump_loop k rest) as [rest' es]; cbn [fst snd] in *;
    cbn [filter Fetch.inFlight Fetch.request negb app Fetch.sent flat_map
         Fetch.url map];
    fold (Fetch.sent es).
  - exact IH.
  - now rewrite <- IH.
Qed.

Lemma pump_waiting (f : Fetch.DataFetcher) :
  Fetch.sent (snd (Fetch.pump f)) ++ Fetch.waiting (fst (Fetch.pump f))
  = Fetch.waiting f.
Proof.
  unfold Fetch.pump, Fetch.waiting. set (k := Z.to_nat _).
  pose proof (pump_loop_waiting k (Fetch.requests f)) as H.
  destruct (Fetch.pump_loop k (Fetch.requests f)) as [rs es].
  exact H.
Qed.

Lemma waiting_list_set (f : Fetch.DataFetcher) (i : nat)
    (r r' : Fetch.DataFetcherRequest) :
  nth_error (Fetch.requests f) i = Some r ->
  Fetch.inFlight r' = Fetch.inFlight r ->
  Fetch.url r' = Fetch.url r ->
  Fetch.waiting (Fetch.set_requests (list_set (Fetch.requests f) i r') f)
  = Fetch.waiting f.
Proof.
  intros Hr Hfly Hurl. unfold Fetch.waiting.
  cbn [Fetch.set_requests Fetch.requests].
  revert i Hr. induction (Fetch.requests f) as [| h t IH]; intros i Hr.
  - now destruct i.
  - destruct i as [| i]; cbn [list_set nth_error] in *.
    + injection Hr as ->. cbn [filter]. rewrite Hfly.
      destruct (Fetch.inFlight r); cbn [negb map]; now rewrite ?Hurl.
    + cbn [filter]. destruct (negb (Fetch.inFlight h)); cbn [map];
        now rewrite (IH i Hr).
Qed.

Lemma waiting_done_state (f : Fetch.DataFetcher) (i : nat)
    (r : Fetch.DataFetcherRequest) :
  nth_error (Fetch.requests f) i = Some r ->
  Fetch.inFlight r = true ->
  Fetch.waiting (done_state i f) = Fetch.waiting f.
Proof.
  intros Hr Hfly. unfold Fetch.waiting, done_state, Fetch.splice1.
  cbn [Fetch.requests].
  revert i Hr. induction (Fetch.requests f) as [| h t IH]; intros i Hr.
  - now destruct i.
  - destruct i as [| i]; cbn [nth_error firstn skipn app] in *.
    + injection Hr as ->. cbn [filter]. now rewrite Hfly.
    + cbn [filter]. destruct (negb (Fetch.inFlight h)); cbn [map];
        now rewrite (IH i Hr).
Qed.

Lemma sent_app (a b : list Fetch.Effect) :
  Fetch.sent (a ++ b) = Fetch.sent a ++ Fetch.sent b.
Proof. apply flat_map_app. Qed.

Lemma step_order (dev : bool) (f f' : Fetch.DataFetcher) (e : Fetch.Event)
    (es : list Fetch.Effect) :
  Fetch.isAbortSignal e = false ->
  Fetch.step dev f e = Some (f', es) ->
  Fetch.sent es ++ Fetch.waiting f' = Fetch.waiting f ++ Fetch.fetched dev [e].
Proof.
  intros Hna Hstep. destruct e as [path | i | i lc loaded total | i |];
    cbn [Fetch.step Fetch.fetched flat_map] in *; [| | | | discriminate];
    rewrite ?app_nil_r.
  - destruct (Fetch.fetchData dev path f) as [err | [f1 es1]] eqn:Hfetch;
      [discriminate |].
    injection Hstep as <- <-.
    apply fetchData_inr in Hfetch. destruct Hfetch as (_ & url & Hurl & Hpump).
    rewrite Hurl.
    pose proof (pump_waiting
                  (Fetch.set_requests
                     (Fetch.requests f ++ [Fetch.mkRequest url None 0]) f))
      as H.
    rewrite Hpump in H. cbn [fst snd] in H. rewrite H.
    unfold Fetch.waiting. cbn [Fetch.set_requests Fetch.requests].
    now rewrite filter_app, map_app.
  - apply onload_Some in Hstep.
    destruct Hstep as (r & Hr & Hfly & Hf' & Hes). cbv zeta in Hf', Hes.
    set (loaded := Fetch.set_requests
                     (list_set (Fetch.requests f) i
                        (Fetch.mkRequest (Fetch.url r) (Fetch.request r) 1))
                     f) in *.
    rewrite Hes, Hf'. unfold Fetch.setProgress.
    rewrite !sent_app. cbn [Fetch.sent flat_map app]. rewrite app_nil_r.
    fold (Fetch.sent (snd (Fetch.pump (done_state i loaded)))).
    rewrite pump_waiting.
    assert (Hl : nth_error (Fetch.requests loaded) i
                 = Some (Fetch.mkRequest (Fetch.url r) (Fetch.request r) 1)).
    { unfold loaded. cbn [Fetch.set_requests Fetch.requests].
      rewrite nth_error_list_set, Nat.eqb_refl.
      assert (Hlt : (i <? length (Fetch.requests f))%nat = true).
      { apply Nat.ltb_lt. apply nth_error_Some. congruence. }
      now rewrite Hlt. }
    rewrite (waiting_done_state loaded i _ Hl) by exact Hfly.
    unfold loaded. now apply (waiting_list_set f i r).
  - unfold Fetch.onprogress in Hstep.
    destruct (nth_error (Fetch.requests f) i) as [r |] eqn:Hr; [| discriminate].
    destruct (Fetch.request r) as [x |] eqn:Hx; [| discriminate].
    cbv zeta in Hstep. injection Hstep as <- <-.
    cbn [Fetch.setProgress Fetch.sent flat_map app].
    apply (waiting_list_set f i r); [exact Hr | |];
      unfold Fetch.inFlight; destruct lc; cbn; now rewrite ?Hx.
  - unfold Fetch.onerror in Hstep.
    destruct (nth_error (Fetch.requests f) i) as [r |]; [| discriminate].
    destruct (Fetch.request r); [| discriminate].
    now injection Hstep as <- <-.
Qed.

(** X26. The requests are sent in the order they were fetched.  As long as
    the fetcher is not aborted, the addresses of the requests sent, in the
    order they were sent, followed by the addresses of the requests that
    wait in the list, in the order of the list, are the addresses that
    waited at the start followed by the addresses [fetchData] was called
    for, in the order of the calls: no request is sent twice, none is sent
    before a request fetched before it, and none that was fetched is
    neither sent nor waiting. *)
Theorem requests_sent_in_order :
  forall (dev : bool) (events : list Fetch.Event)
         (f f' : Fetch.DataFetcher) (effects : list Fetch.Effect),
    existsb Fetch.isAbortSignal events = false ->
    Fetch.run dev f events = Some (f', effects) ->
    Fetch.sent effects ++ Fetch.waiting f'
    = Fetch.waiting f ++ Fetch.fetched dev events.
Proof.
  intros dev events.
  induction events as [| e rest IH]; intros f f' effects Hna Hrun.
  - cbn in Hrun. injection Hrun as <- <-. cbn. now rewrite app_nil_r.
  - cbn [existsb] in Hna. apply orb_false_iff in Hna.
    destruct Hna as [Hna Hrest]. cbn [Fetch.run] in Hrun.
    destruct (Fetch.step dev f e) as [[f1 es1] |] eqn:Hstep; [| discriminate].
    destruct (Fetch.run dev f1 rest) as [[f2 es2] |] eqn:Hrun1;
      [| discriminate].
    injection Hrun as <- <-.
    pose proof (step_order dev f f1 e es1 Hna Hstep) as H1.
    pose proof (IH f1 f2 es2 Hrest Hrun1) as H2.
    rewrite sent_app, <- app_assoc, H2, app_assoc, H1, <- app_assoc.
    f_equal. unfold Fetch.fetched. cbn [flat_map]. now rewrite app_nil_r.
Qed.

Lemma requests_sent_in_order_witness :
  exists (f' : Fetch.DataFetcher) (effects : list Fetch.Effect),
    Fetch.run true Fetch.threeRequests
      [Fetch.FetchData String.EmptyString; Fetch.Load 1; Fetch.Load 0]
    = Some (f', effects)
    /\ Fetch.sent effects ++ Fetch.waiting f'
       = Fetch.waiting Fetch.threeRequests
         ++ Fetch.fetched true [Fetch.FetchData String.EmptyString].
Proof.
  assert (H : exists (f' : Fetch.DataFetcher) (effects : list Fetch.Effect),
             Fetch.run true Fetch.threeRequests
               [Fetch.FetchData String.EmptyString; Fetch.Load 1; Fetch.Load 0]
             = Some (f', effects)).
  { eexists. eexists. reflexivity. }
  destruct H as (f' & effects & H). exists f', effects.
  split; [exact H |].
  exact (requests_sent_in_order true
           [Fetch.FetchData String.EmptyString; Fetch.Load 1; Fetch.Load 0]
           Fetch.threeRequests f' effects eq_refl H).
Defined.

Lemma getDataURLForPath_address_witness :
  exists url : String.string,
    Fetch.getDataURLForPath false String.EmptyString = Some url
    /\ String.prefix (Fetch.getDataStorageBaseURL false) url = true.
Proof.
  pose proof (getDataURLForPath_address false String.EmptyString) as H.
  destruct (Fetch.getDataURLForPath false String.EmptyString) as [url |].
  - exists url. split; [reflexivity | apply H].
  - discriminate H.
Defined.
